(** * ms2mp4: batch subtitle burn-in driver (bin.js, config.js)

    A shallow embedding of the orchestration code of [bin.js]: the file
    matcher, the process-wide [STATUS] record, the handlers that
    [processVideo] installs on the encoder's child process, and the batch
    loop of [batchProcess] / [main], followed by the properties of the
    specification that concern them.

    Conventions of the embedding.
    - A JavaScript string is a [string]; each [ascii] stands for one code
      unit in the range 0..255.
    - A JavaScript number that is a count or an index is a [nat]; a number
      that comes out of [parseFloat] and float arithmetic is an IEEE-754
      binary64 value, modelled with the [spec_float] operations at
      precision 53.
    - A [Map] is insertion ordered: it is an association list in which
      [set] overwrites an existing key in place and appends a new one.
    - The program is reactive: after a synchronous start-up it only runs
      inside callbacks.  The callbacks are functions on the program state,
      and the environment chooses which event is delivered next. *)

From Stdlib Require Import List String Ascii Bool Arith ZArith Lia.
From Stdlib Require Import SpecFloat.
Import ListNotations.

Set Implicit Arguments.

Local Open Scope string_scope.
Local Open Scope nat_scope.
Local Open Scope list_scope.

(** ** JavaScript numbers *)

Module JSNum.

Definition prec : Z := 53.
Definition emax : Z := 1024.

Definition number := spec_float.

Definition zero : number := S754_zero false.

(** An integer literal, rounded to the nearest double. *)
Definition of_Z (z : Z) : number := binary_normalize prec emax z 0 false.

Definition add : number -> number -> number := SFadd prec emax.
Definition sub : number -> number -> number := SFsub prec emax.
Definition mul : number -> number -> number := SFmul prec emax.
Definition div : number -> number -> number := SFdiv prec emax.
Definition abs : number -> number := SFabs.
Definition ltb : number -> number -> bool := SFltb.
Definition leb : number -> number -> bool := SFleb.

(** [x > y] and [x >= y] of JavaScript: false as soon as one side is NaN. *)
Definition gtb (x y : number) : bool := ltb y x.
Definition geb (x y : number) : bool := leb y x.

(** [!x]: zero (of either sign) and NaN are the falsy numbers. *)
Definition falsy (x : number) : bool :=
  match x with
  | S754_zero _ | S754_nan => true
  | _ => false
  end.

(** The unrounded integer [m] as a float with exponent 0; the division
    below rounds once, whatever the size of [m]. *)
Definition raw (m : Z) : number :=
  match m with
  | Z0 => S754_zero false
  | Zpos p => S754_finite false p 0
  | Zneg p => S754_finite true p 0
  end.

(** The double nearest to the decimal [m * 10^e]: what [parseFloat] and
    the string-to-number conversion return for a decimal literal. *)
Definition of_decimal (m e : Z) : number :=
  if (0 <=? e)%Z then of_Z (m * 10 ^ e)
  else div (raw m) (raw (10 ^ (- e))).

(** [x.toFixed(1)] yields, for [x < 1e21], the decimal with one
    fractional digit [n / 10] where [n] is the integer closest to
    [10 * x], the larger one on a tie; for [x >= 1e21] it yields the
    shortest round-trip rendering of [x] itself. *)
Inductive fixed1 : Type :=
| Tenths (n : Z)
| Verbatim (x : number).

(** floor (10 * m * 2^e + 1/2) *)
Definition round_tenths (m e : Z) : Z :=
  if (0 <=? e)%Z then 10 * m * 2 ^ e
  else (20 * m + 2 ^ (- e)) / 2 ^ (1 - e).

Definition toFixed1 (x : number) : fixed1 :=
  match x with
  | S754_zero _ => Tenths 0
  | S754_finite s m e =>
      if leb (of_Z (10 ^ 21)) (abs x) then Verbatim x
      else if s then
             (* a negative number is rendered as "-" followed by the
                rendering of its absolute value *)
             Tenths (- round_tenths (Zpos m) e)
           else Tenths (round_tenths (Zpos m) e)
  | _ => Verbatim x
  end.

(** The number a [toFixed(1)] string converts back to, as in
    [progress - lastProgress] and [parseFloat(progress)]. *)
Definition fixed1_to_number (s : fixed1) : number :=
  match s with
  | Tenths n => of_decimal n (-1)
  | Verbatim x => x
  end.

End JSNum.

(** ** JavaScript strings *)

Module JSString.

Definition code (c : ascii) : nat := nat_of_ascii c.

(** [String.prototype.toLowerCase] on the code units 0..255: the ASCII
    capitals and the Latin-1 capitals (all of U+00C0..U+00DE but the
    multiplication sign U+00D7) move up by 32. *)
Definition lower_char (c : ascii) : ascii :=
  let n := code c in
  if ((65 <=? n) && (n <=? 90)) || ((192 <=? n) && (n <=? 222) && negb (n =? 215))
  then ascii_of_nat (n + 32) else c.

Fixpoint toLowerCase (s : string) : string :=
  match s with
  | EmptyString => EmptyString
  | String c r => String (lower_char c) (toLowerCase r)
  end.

(** The class [\s] within the code units 0..255. *)
Definition is_space (c : ascii) : bool :=
  let n := code c in
  ((9 <=? n) && (n <=? 13)) || (n =? 32) || (n =? 160).

(** The class [\d]. *)
Definition is_digit (c : ascii) : bool :=
  let n := code c in (48 <=? n) && (n <=? 57).

(** The class [.] (no [s] flag): anything but a line terminator. *)
Definition is_dot_class (c : ascii) : bool :=
  let n := code c in negb ((n =? 10) || (n =? 13)).

Definition digit_val (c : ascii) : Z := Z.of_nat (code c) - 48.

(** [s.replace(/[...]/g, '')] for a character class: delete every member. *)
Fixpoint remove_class (cls : ascii -> bool) (s : string) : string :=
  match s with
  | EmptyString => EmptyString
  | String c r => if cls c then remove_class cls r else String c (remove_class cls r)
  end.

Fixpoint mem_char (c : ascii) (s : string) : bool :=
  match s with
  | EmptyString => false
  | String d r => Ascii.eqb c d || mem_char c r
  end.

(** [arr.includes(s)] on an array of strings. *)
Definition includes (arr : list string) (s : string) : bool :=
  existsb (String.eqb s) arr.

(** [arr.join(sep)] *)
Fixpoint join (sep : string) (arr : list string) : string :=
  match arr with
  | [] => ""
  | [x] => x
  | x :: r => (x ++ sep ++ join sep r)%string
  end.

End JSString.

(** ** The insertion-ordered [Map] *)

Module JSMap.

Section WithValue.
Variable V : Type.

Definition t := list (string * V).

Definition empty : t := [].

(** [m.set(k, v)]: an existing key keeps its place, a new key goes last. *)
Fixpoint set (k : string) (v : V) (m : t) : t :=
  match m with
  | [] => [(k, v)]
  | (k', v') :: r =>
      if String.eqb k' k then (k, v) :: r else (k', v') :: set k v r
  end.

Fixpoint get (k : string) (m : t) : option V :=
  match m with
  | [] => None
  | (k', v') :: r => if String.eqb k' k then Some v' else get k r
  end.

Definition has (k : string) (m : t) : bool :=
  match get k m with Some _ => true | None => false end.

Fixpoint delete (k : string) (m : t) : t :=
  match m with
  | [] => []
  | (k', v') :: r =>
      if String.eqb k' k then delete k r else (k', v') :: delete k r
  end.

Definition keys (m : t) : list string := map fst m.
Definition values (m : t) : list V := map snd m.
Definition size (m : t) : nat := List.length m.

(** How many entries of [m] carry the key [k]. *)
Definition count (k : string) (m : t) : nat :=
  List.length (filter (fun e => String.eqb (fst e) k) m).

End WithValue.

Arguments empty {V}.

End JSMap.

(** ** The [path] module (POSIX flavour) *)

Module Path.
Import JSString.

Definition slash : ascii := "/"%char.
Definition dot : ascii := "."%char.

(** [s.split('/')] *)
Fixpoint split_slash (s : string) : list string :=
  match s with
  | EmptyString => [EmptyString]
  | String c r =>
      if Ascii.eqb c slash then EmptyString :: split_slash r
      else match split_slash r with
           | [] => [String c EmptyString]
           | x :: xs => String c x :: xs
           end
  end.

(** The last path component, trailing separators dropped: what
    [basename], [extname] and [parse] look at. *)
Definition last_component (p : string) : string :=
  last (filter (fun x => negb (String.eqb x "")) (split_slash p)) "".

Definition basename (p : string) : string := last_component p.

(** Cut a component at its last dot. *)
Fixpoint split_last_dot (s : string) : option (string * string) :=
  match s with
  | EmptyString => None
  | String c r =>
      match split_last_dot r with
      | Some (b, e) => Some (String c b, e)
      | None => if Ascii.eqb c dot then Some (EmptyString, s) else None
      end
  end.

(** [(name, ext)] of a component: there is no extension when the
    component has no dot, when its only dot is its first character, or
    when it is [".."]. *)
Definition split_ext (base : string) : string * string :=
  match split_last_dot base with
  | Some (b, e) =>
      if String.eqb b "" || String.eqb base ".." then (base, "") else (b, e)
  | None => (base, "")
  end.

Definition extname (p : string) : string := snd (split_ext (last_component p)).

(** [path.parse(p).name] *)
Definition parse_name (p : string) : string := fst (split_ext (last_component p)).

Definition isAbsolute (p : string) : bool :=
  match p with
  | String c _ => Ascii.eqb c slash
  | EmptyString => false
  end.

Definition has_trailing_slash (p : string) : bool :=
  match rev (list_ascii_of_string p) with
  | c :: _ => Ascii.eqb c slash
  | [] => false
  end.

(** One segment of [normalizeString]; [stack] holds the segments kept so
    far, the most recent first. *)
Definition normalize_step (allowAboveRoot : bool) (stack : list string) (seg : string)
  : list string :=
  if String.eqb seg "" || String.eqb seg "." then stack
  else if String.eqb seg ".." then
    match stack with
    | [] => if allowAboveRoot then [".."] else []
    | top :: rest =>
        if String.eqb top ".." then
          (if allowAboveRoot then ".." :: stack else stack)
        else rest
    end
  else seg :: stack.

Definition normalize (p : string) : string :=
  if String.eqb p "" then "."
  else
    let ab := isAbsolute p in
    let segs := rev (fold_left (normalize_step (negb ab)) (split_slash p) []) in
    let body := JSString.join "/" segs in
    match segs with
    | [] => if ab then "/" else if has_trailing_slash p then "./" else "."
    | _ =>
        ((if ab then "/" else "") ++ body ++ (if has_trailing_slash p then "/" else ""))%string
    end.

(** [path.join(a, b)] *)
Definition join (a b : string) : string :=
  match String.eqb a "", String.eqb b "" with
  | true, true => "."
  | true, false => normalize b
  | false, true => normalize a
  | false, false => normalize (a ++ "/" ++ b)%string
  end.

End Path.

(** ** [parseFloat] and the two patterns of [processVideo] *)

Module Scan.
Import JSString JSNum.

(** The longest prefix of decimal digits, most significant first. *)
Fixpoint take_digits (s : string) : list Z * string :=
  match s with
  | String c r =>
      if is_digit c then let '(ds, rest) := take_digits r in (digit_val c :: ds, rest)
      else ([], s)
  | EmptyString => ([], s)
  end.

Definition digits_value (ds : list Z) : Z :=
  fold_left (fun acc d => (10 * acc + d)%Z) ds 0%Z.

(** The exponent part [e], [E] with an optional sign; it only counts
    when a digit follows. *)
Definition exponent_part (s : string) : Z :=
  match s with
  | String c r =>
      if Ascii.eqb c "e" || Ascii.eqb c "E" then
        match r with
        | String sg r' =>
            if Ascii.eqb sg "-" then
              match take_digits r' with
              | ([], _) => 0%Z
              | (ds, _) => (- digits_value ds)%Z
              end
            else if Ascii.eqb sg "+" then digits_value (fst (take_digits r'))
            else digits_value (fst (take_digits r))
        | EmptyString => 0%Z
        end
      else 0%Z
  | EmptyString => 0%Z
  end.

(** [parseFloat] on a string that starts with its number (no leading
    blanks or sign, which the patterns below never hand over). *)
Definition parseFloat (s : string) : number :=
  let '(ip, r1) := take_digits s in
  let '(fp, r2) :=
    match r1 with
    | String c r => if Ascii.eqb c "." then take_digits r else ([], r1)
    | EmptyString => ([], r1)
    end in
  match ip ++ fp with
  | [] => S754_nan
  | ds => of_decimal (digits_value ds) (exponent_part r2 - Z.of_nat (List.length fp))
  end.

(** A pattern without repetition: one character class per position. *)
Definition pattern := list (ascii -> bool).

Definition lit (s : string) : pattern := map Ascii.eqb (list_ascii_of_string s).

Fixpoint match_here (p : pattern) (s : string) : bool :=
  match p, s with
  | [], _ => true
  | cls :: p', String c r => cls c && match_here p' r
  | _ :: _, EmptyString => false
  end.

(** [s.match(p)]: the text from the leftmost match on, if there is one. *)
Fixpoint search (p : pattern) (s : string) : option string :=
  if match_here p s then Some s
  else match s with
       | String _ r => search p r
       | EmptyString => None
       end.

Definition clock : pattern :=
  [is_digit; is_digit] ++ lit ":" ++ [is_digit; is_digit] ++ lit ":"
    ++ [is_digit; is_digit; is_dot_class; is_digit; is_digit].

(** /Duration: (\d{2}):(\d{2}):(\d{2}.\d{2})/ *)
Definition duration_re : pattern := lit "Duration: " ++ clock.

(** /time=(\d{2}):(\d{2}):(\d{2}.\d{2})/ *)
Definition time_re : pattern := lit "time=" ++ clock.

(** The three capture groups of a match that starts [skip] characters
    after the beginning of [m]. *)
Definition groups (skip : nat) (m : string) : string * string * string :=
  (substring skip 2 m, substring (skip + 3) 2 m, substring (skip + 6) 5 m).

(** hours * 3600 + minutes * 60 + seconds, in doubles. *)
Definition seconds_of (g : string * string * string) : number :=
  let '(hours, minutes, seconds) := g in
  add (add (mul (parseFloat hours) (of_Z 3600)) (mul (parseFloat minutes) (of_Z 60)))
      (parseFloat seconds).

Definition durationMatch (output : string) : option number :=
  option_map (fun m => seconds_of (groups 10 m)) (search duration_re output).

Definition timeMatch (output : string) : option number :=
  option_map (fun m => seconds_of (groups 5 m)) (search time_re output).

End Scan.

(** ** config.js *)

Module CONFIG.

Definition subtitleStyle : string :=
  "FontName=Microsoft YaHei,FontSize=24,PrimaryColour=&HFFFFFF,OutlineColour=&H000000,Outline=2".

Definition videoExtensions : list string := [".mp4"; ".mkv"; ".avi"; ".mov"].
Definition subtitleExtensions : list string := [".srt"].

Definition getEncoder : string := "libx264".
Definition preset : string := "ultrafast".
Definition crf : string := "28".
Definition threads : string := "0".

End CONFIG.

(** ** The process-wide [STATUS] and what the program prints *)

Import JSString JSNum Scan.

(** A value of [STATUS.inProgress]: the number 0 that [processVideo] stores
    first, later the strings that [toFixed(1)] returns. *)
Inductive progress_value : Type :=
| PNum (x : number)
| PStr (s : fixed1).

Record Status : Type := {
  total : nat;
  completed : nat;
  inProgress : JSMap.t progress_value;
  results : JSMap.t bool
}.

(** The errors that travel through [reject] and [catch]. *)
Inductive error : Type :=
| FsError (message : string)        (* a rejected fs.promises call *)
| NotADirectory                     (* new Error('输入路径不是目录') *)
| ProcessFailed (file : string)     (* new Error(`处理失败 ${filename}`) *)
| FFmpegError (message : string).   (* new Error(`FFmpeg 错误: ${err.message}`) *)

(** The lines written with [console.log] and [console.error], by the
    statement that writes them. *)
Inductive message : Type :=
| MsgUsage | MsgExample
| MsgTopError (e : error)
| MsgProcessingError (e : error)
| MsgNoMatches
| MsgFound (n : nat)
| MsgEncoder (name : string)
| MsgBatchStart (first last : nat)
| MsgBatchDone
| MsgBatchSucceeded (n : nat)
| MsgBatchFailed (n : nat)
| MsgFailedFiles
| MsgFailedItem (index : nat) (file : string)
| MsgFailedReason (e : error)
| MsgPressEnter
| MsgSummary
| MsgSummaryTotal (n : nat)
| MsgSummarySucceeded (n : nat)
| MsgSummaryFailed (n : nat)
| MsgStart (file : string)
| MsgCommand (line : string)
| MsgDuration (seconds : number)
| MsgDone (file : string)
| MsgFailed (file : string)
| MsgSpawnError (file : string) (err : string).

(** What [printProgress] shows. *)
Record Snapshot : Type := {
  shown_completed : nat;
  shown_total : nat;
  shown_percent : fixed1;
  shown_inProgress : list (string * progress_value);
  shown_recent : list (string * bool)
}.

(** The observable actions of the program, in the order they happen. *)
Inductive effect : Type :=
| Stat (path : string)
| Mkdir (path : string)
| Readdir (path : string)
| Log (m : message)
| LogError (m : message)
| Render (s : Snapshot)
| Spawn (command : string) (args : list string)
| ListenStdin
| ProcessExit (code : nat).

(** [arr.slice(-n)] *)
Definition slice_last {A : Type} (n : nat) (l : list A) : list A :=
  skipn (List.length l - n) l.

Definition snapshot (st : Status) : Snapshot :=
  {| shown_completed := completed st;
     shown_total := total st;
     shown_percent :=
       toFixed1 (mul (div (of_Z (Z.of_nat (completed st))) (of_Z (Z.of_nat (total st))))
                     (of_Z 100));
     shown_inProgress := inProgress st;
     shown_recent := slice_last 5 (results st) |}.

(** ** One conversion: the closure of [processVideo] *)

Inductive promise : Type :=
| Pending
| Resolved
| Rejected (e : error).

(** What Node has already emitted on a child process. *)
Inductive lifecycle : Type :=
| Alive        (* neither 'error' nor 'close' emitted *)
| Errored      (* 'error' emitted, 'close' still to come *)
| Closed.      (* 'close' emitted *)

Record Child : Type := {
  filename : string;
  duration : number;
  lastProgress : number;
  settled : promise;
  life : lifecycle
}.

Record World : Type := {
  STATUS : Status;
  children : list Child;
  out : list effect
}.

(** *** A state monad over the world *)

Definition M (A : Type) : Type := World -> A * World.

Definition ret {A : Type} (a : A) : M A := fun w => (a, w).

Definition bind {A B : Type} (m : M A) (k : A -> M B) : M B :=
  fun w => let '(a, w') := m w in k a w'.

Declare Scope prog_scope.
Delimit Scope prog_scope with prog.
Notation "x <- m ;; k" := (bind m (fun x => k))
  (at level 61, m at next level, right associativity) : prog_scope.
Notation "m ;; k" := (bind m (fun _ => k))
  (at level 61, right associativity) : prog_scope.
Local Open Scope prog_scope.

Definition exec {A : Type} (m : M A) (w : World) : World := snd (m w).

Definition emit (e : effect) : M unit :=
  fun w => (tt, {| STATUS := STATUS w; children := children w; out := out w ++ [e] |}).

Definition getStatus : M Status := fun w => (STATUS w, w).

Definition modifyStatus (f : Status -> Status) : M unit :=
  fun w => (tt, {| STATUS := f (STATUS w); children := children w; out := out w |}).

Definition getChild (i : nat) : M (option Child) := fun w => (nth_error (children w) i, w).

Fixpoint replace_nth {A : Type} (i : nat) (x : A) (l : list A) : list A :=
  match l, i with
  | [], _ => []
  | _ :: r, O => x :: r
  | y :: r, S j => y :: replace_nth j x r
  end.

Definition putChild (i : nat) (c : Child) : M unit :=
  fun w => (tt, {| STATUS := STATUS w; children := replace_nth i c (children w); out := out w |}).

Definition addChild (c : Child) : M unit :=
  fun w => (tt, {| STATUS := STATUS w; children := children w ++ [c]; out := out w |}).

Definition when (b : bool) (m : M unit) : M unit := if b then m else ret tt.

Fixpoint forEach {A : Type} (l : list A) (f : A -> M unit) : M unit :=
  match l with
  | [] => ret tt
  | x :: r => f x ;; forEach r f
  end.

(** *** The operations on [STATUS] *)

Definition inProgress_set (file : string) (v : progress_value) : M unit :=
  modifyStatus (fun st =>
    {| total := total st; completed := completed st;
       inProgress := JSMap.set file v (inProgress st); results := results st |}).

Definition inProgress_delete (file : string) : M unit :=
  modifyStatus (fun st =>
    {| total := total st; completed := completed st;
       inProgress := JSMap.delete file (inProgress st); results := results st |}).

Definition completed_incr : M unit :=
  modifyStatus (fun st =>
    {| total := total st; completed := S (completed st);
       inProgress := inProgress st; results := results st |}).

Definition results_set (file : string) (ok : bool) : M unit :=
  modifyStatus (fun st =>
    {| total := total st; completed := completed st;
       inProgress := inProgress st; results := JSMap.set file ok (results st) |}).

Definition printProgress : M unit :=
  st <- getStatus ;; emit (Render (snapshot st)).

(** [resolve] and [reject] only act on a pending promise. *)
Definition settle (i : nat) (p : promise) : M unit :=
  oc <- getChild i ;;
  match oc with
  | Some c =>
      match settled c with
      | Pending =>
          putChild i {| filename := filename c; duration := duration c;
                        lastProgress := lastProgress c; settled := p; life := life c |}
      | _ => ret tt
      end
  | None => ret tt
  end.

Definition ffmpegArgs (videoPath subtitlePath outputPath : string) : list string :=
  [ "-hwaccel"; "auto";
    "-i"; videoPath;
    "-vf"; ("subtitles=" ++ subtitlePath ++ ":force_style='" ++ CONFIG.subtitleStyle ++ "'")%string;
    "-c:v"; CONFIG.getEncoder;
    "-preset"; CONFIG.preset;
    "-crf"; CONFIG.crf;
    "-threads"; CONFIG.threads;
    "-c:a"; "copy";
    "-maxrate"; "1.5M";
    "-bufsize"; "3M";
    "-tune"; "fastdecode";
    "-movflags"; "+faststart";
    "-max_muxing_queue_size"; "1024";
    "-y";
    outputPath ].

(** The synchronous part of [processVideo]: everything up to the
    registration of the three listeners. *)
Definition processVideo (videoPath subtitlePath outputPath : string) : M unit :=
  let filename := Path.basename videoPath in
  let args := ffmpegArgs videoPath subtitlePath outputPath in
  inProgress_set filename (PNum zero) ;;
  printProgress ;;
  emit (Log (MsgStart filename)) ;;
  emit (Log (MsgCommand (JSString.join " " ("ffmpeg" :: args)))) ;;
  emit (Spawn "ffmpeg" args) ;;
  addChild {| filename := filename; duration := zero; lastProgress := zero;
              settled := Pending; life := Alive |}.

(** The listener on [ffmpeg.stderr]'s 'data'. *)
Definition on_data (i : nat) (output : string) : M unit :=
  oc <- getChild i ;;
  match oc with
  | None => ret tt
  | Some c =>
      (* if (!duration) { ... } *)
      c1 <- (if falsy (duration c) then
               match durationMatch output with
               | Some d =>
                   emit (Log (MsgDuration d)) ;;
                   ret {| filename := filename c; duration := d;
                          lastProgress := lastProgress c; settled := settled c;
                          life := life c |}
               | None => ret c
               end
             else ret c) ;;
      (* if (timeMatch && duration > 0) { ... } *)
      match timeMatch output with
      | Some currentTime =>
          if gtb (duration c1) zero then
            let progress := toFixed1 (mul (div currentTime (duration c1)) (of_Z 100)) in
            if geb (abs (sub (fixed1_to_number progress) (lastProgress c1)))
                   (of_decimal 1 (-1))
            then
              putChild i {| filename := filename c1; duration := duration c1;
                            lastProgress := fixed1_to_number progress;
                            settled := settled c1; life := life c1 |} ;;
              inProgress_set (filename c1) (PStr progress) ;;
              printProgress
            else putChild i c1
          else putChild i c1
      | None => putChild i c1
      end
  end.

(** The listener on 'close'; [code] is [None] when the process was ended
    by a signal. *)
Definition on_close (i : nat) (code : option Z) : M unit :=
  oc <- getChild i ;;
  match oc with
  | None => ret tt
  | Some c =>
      let ok := match code with Some 0%Z => true | _ => false end in
      inProgress_delete (filename c) ;;
      completed_incr ;;
      results_set (filename c) ok ;;
      printProgress ;;
      if ok then
        emit (Log (MsgDone (filename c))) ;;
        settle i Resolved
      else
        emit (Log (MsgFailed (filename c))) ;;
        settle i (Rejected (ProcessFailed (filename c)))
  end.

(** The listener on 'error'. *)
Definition on_error (i : nat) (err : string) : M unit :=
  oc <- getChild i ;;
  match oc with
  | None => ret tt
  | Some c =>
      emit (LogError (MsgSpawnError (filename c) err)) ;;
      inProgress_delete (filename c) ;;
      completed_incr ;;
      results_set (filename c) false ;;
      printProgress ;;
      settle i (Rejected (FFmpegError err))
  end.

(** ** [findMatchingFiles] *)

Record MatchedPair : Type := { video : string; subtitle : string }.

(** The class of the pattern [/[\s\-_\[\]()]/]. *)
Definition stripped (c : ascii) : bool :=
  is_space c || mem_char c "-_[]()".

(** [path.parse(file).name.toLowerCase().replace(/[\s\-_\[\]()]/g, '')] *)
Definition nameWithoutExt (file : string) : string :=
  remove_class stripped (toLowerCase (Path.parse_name file)).

Definition lowerExt (file : string) : string := toLowerCase (Path.extname file).

Definition isVideo (file : string) : bool := includes CONFIG.videoExtensions (lowerExt file).
Definition isSubtitle (file : string) : bool := includes CONFIG.subtitleExtensions (lowerExt file).

(** The body of [files.forEach]; the two maps are [videos] and [subtitles]. *)
Definition classify (inputDir : string)
    (maps : JSMap.t string * JSMap.t string) (file : string)
  : JSMap.t string * JSMap.t string :=
  let '(videos, subtitles) := maps in
  let filePath := Path.join inputDir file in
  if isVideo file then (JSMap.set (nameWithoutExt file) filePath videos, subtitles)
  else if isSubtitle file then (videos, JSMap.set (nameWithoutExt file) filePath subtitles)
  else (videos, subtitles).

Definition scan (inputDir : string) (files : list string)
  : JSMap.t string * JSMap.t string :=
  fold_left (classify inputDir) files (JSMap.empty, JSMap.empty).

(** The [for ... of videos] loop; [has] and [get] look at the same entry. *)
Fixpoint pairUp (videos subtitles : JSMap.t string) : list MatchedPair :=
  match videos with
  | [] => []
  | (name, videoPath) :: rest =>
      match JSMap.get name subtitles with
      | Some subtitlePath =>
          {| video := videoPath; subtitle := subtitlePath |} :: pairUp rest subtitles
      | None => pairUp rest subtitles
      end
  end.

(** [findMatchingFiles] once [fs.readdir] has answered with [files]. *)
Definition findMatchingFiles (inputDir : string) (files : list string) : list MatchedPair :=
  let '(videos, subtitles) := scan inputDir files in
  pairUp videos subtitles.

(** ** [processBatch], [batchProcess] and [main] *)

Definition BATCH_SIZE : nat := 10.

(** [arr.slice(a, b)] for [a <= b] *)
Definition slice {A : Type} (a b : nat) (l : list A) : list A :=
  firstn (b - a) (skipn a l).

Record BatchResult : Type := {
  success : bool;
  file : string;
  failure : option error
}.

Inductive phase : Type :=
| Running      (* suspended in [await processBatch(...)] *)
| Waiting      (* suspended in the promise on [process.stdin] *)
| Finished.    (* [batchProcess] has returned *)

Record Orch : Type := {
  matches : list MatchedPair;
  outputDir : string;
  currentIndex : nat;
  stage : phase;
  world : World
}.

Definition outputFile (outDir : string) (m : MatchedPair) : string :=
  Path.join outDir (Path.parse_name (video m) ++ "_output.mp4")%string.

(** The synchronous part of [processBatch]: each task runs up to its
    [await], that is through the executor of [processVideo]. *)
Definition processBatch (ms : list MatchedPair) (outDir : string) (startIndex endIndex : nat)
  : M unit :=
  forEach (slice startIndex endIndex ms)
          (fun m => processVideo (video m) (subtitle m) (outputFile outDir m)).

(** What a task returns once its promise is settled. *)
Definition taskResult (m : MatchedPair) (c : Child) : option BatchResult :=
  match settled c with
  | Pending => None
  | Resolved =>
      Some {| success := true; file := Path.basename (video m); failure := None |}
  | Rejected e =>
      Some {| success := false; file := Path.basename (video m); failure := Some e |}
  end.

Fixpoint collect (l : list (MatchedPair * Child)) : list BatchResult :=
  match l with
  | [] => []
  | (m, c) :: r =>
      match taskResult m c with
      | Some b => b :: collect r
      | None => collect r
      end
  end.

(** The array [Promise.all] resolves to for the batch at [startIndex]. *)
Definition batchResults (o : Orch) (startIndex : nat) : list BatchResult :=
  collect (slice startIndex (startIndex + BATCH_SIZE)
                 (combine (matches o) (children (world o)))).

Fixpoint reportFailed (index : nat) (l : list BatchResult) : M unit :=
  match l with
  | [] => ret tt
  | item :: r =>
      emit (Log (MsgFailedItem (index + 1) (file item))) ;;
      match failure item with
      | Some e => emit (Log (MsgFailedReason e))
      | None => ret tt
      end ;;
      reportFailed (S index) r
  end.

(** The top of the [while] body: announce the batch and start its tasks. *)
Definition startBatch (o : Orch) : Orch :=
  let n := List.length (matches o) in
  let i := currentIndex o in
  let w :=
    exec (emit (Log (MsgBatchStart (i + 1) (Nat.min (i + BATCH_SIZE) n))) ;;
          processBatch (matches o) (outputDir o) i (i + BATCH_SIZE))
         (world o) in
  {| matches := matches o; outputDir := outputDir o; currentIndex := i;
     stage := Running; world := w |}.

(** The rest of the [while] body, run when [processBatch] has resolved,
    and what follows the loop when this was the last batch. *)
Definition afterBatch (o : Orch) : Orch :=
  let n := List.length (matches o) in
  let res := batchResults o (currentIndex o) in
  let batchSuccessful := filter (fun r => success r) res in
  let batchFailed := filter (fun r => negb (success r)) res in
  let i := currentIndex o + BATCH_SIZE in
  let report :=
    emit (Log MsgBatchDone) ;;
    emit (Log (MsgBatchSucceeded (List.length batchSuccessful))) ;;
    emit (Log (MsgBatchFailed (List.length batchFailed))) ;;
    when (0 <? List.length batchFailed)
         (emit (Log MsgFailedFiles) ;; reportFailed 0 batchFailed) in
  if i <? n then
    {| matches := matches o; outputDir := outputDir o; currentIndex := i;
       stage := Waiting;
       world := exec (report ;; emit (Log MsgPressEnter) ;; emit ListenStdin) (world o) |}
  else
    let summary :=
      st <- getStatus ;;
      emit (Log MsgSummary) ;;
      emit (Log (MsgSummaryTotal n)) ;;
      emit (Log (MsgSummarySucceeded
                   (List.length (filter (fun b => b) (JSMap.values (results st)))))) ;;
      emit (Log (MsgSummaryFailed
                   (List.length (filter negb (JSMap.values (results st)))))) in
    {| matches := matches o; outputDir := outputDir o; currentIndex := i;
       stage := Finished;
       world := exec (report ;; summary) (world o) |}.

Definition isSettled (c : Child) : bool :=
  match settled c with Pending => false | _ => true end.

(** *** The events of the environment *)

Inductive event : Type :=
| Data (i : nat) (chunk : string)       (* 'data' on the stderr of child [i] *)
| Close (i : nat) (code : option Z)     (* 'close' on child [i] *)
| Error (i : nat) (err : string)        (* 'error' on child [i] *)
| StdinData                             (* 'data' on process.stdin *)
| Resume.                               (* the continuation of [await processBatch(...)] *)

Definition setLife (i : nat) (l : lifecycle) : M unit :=
  oc <- getChild i ;;
  match oc with
  | Some c => putChild i {| filename := filename c; duration := duration c;
                            lastProgress := lastProgress c; settled := settled c;
                            life := l |}
  | None => ret tt
  end.

Definition lifeOf (o : Orch) (i : nat) : option lifecycle :=
  option_map life (nth_error (children (world o)) i).

Definition inWorld (o : Orch) (m : M unit) : Orch :=
  {| matches := matches o; outputDir := outputDir o; currentIndex := currentIndex o;
     stage := stage o; world := exec m (world o) |}.

(** One callback.  Node emits on a child any number of 'data', then either
    'close', or 'error' (the process could not be spawned) followed by
    'close'.  The tasks of the running batch are those of the children
    spawned for [matches.slice(currentIndex, currentIndex + BATCH_SIZE)];
    [Promise.all] resolves once none of them is pending, and
    [batchProcess] then continues.  [None] says that the event cannot occur
    in this state. *)
Definition react (e : event) (o : Orch) : option Orch :=
  match e with
  | Data i chunk =>
      match lifeOf o i with
      | Some Alive => Some (inWorld o (on_data i chunk))
      | _ => None
      end
  | Close i code =>
      match lifeOf o i with
      | Some Alive | Some Errored => Some (inWorld o (on_close i code ;; setLife i Closed))
      | _ => None
      end
  | Error i err =>
      match lifeOf o i with
      | Some Alive => Some (inWorld o (on_error i err ;; setLife i Errored))
      | _ => None
      end
  | StdinData =>
      match stage o with
      | Waiting => Some (startBatch o)
      | _ => None
      end
  | Resume =>
      match stage o with
      | Running =>
          if forallb isSettled
               (slice (currentIndex o) (currentIndex o + BATCH_SIZE) (children (world o)))
          then Some (afterBatch o) else None
      | _ => None
      end
  end.

Fixpoint run (es : list event) (o : Orch) : option Orch :=
  match es with
  | [] => Some o
  | e :: r =>
      match react e o with
      | Some o' => run r o'
      | None => None
      end
  end.

(** *** Start-up *)

(** The answers of the three [fs.promises] calls. *)
Record FsEnv : Type := {
  fs_stat : string -> string + bool;            (* error, or [isDirectory()] *)
  fs_mkdir : string -> option string;           (* [Some] error, or success *)
  fs_readdir : string -> string + list string   (* error, or the entries *)
}.

(** Either the process has ended with a status, or it waits for events. *)
Inductive outcome : Type :=
| Ended (status : nat) (printed : list effect)
| Live (o : Orch).

Definition freshStatus (n : nat) : Status :=
  {| total := n; completed := 0; inProgress := JSMap.empty; results := JSMap.empty |}.

(** [batchProcess] up to its first suspension.  [pre] is what has been
    printed so far.  Its [catch] reports the error and lets the function
    return, so that the caller continues normally. *)
Definition batchProcess (fs : FsEnv) (pre : list effect) (inputDir outDir : string)
  : list effect + Orch :=
  let pre := pre ++ [Mkdir outDir] in
  match fs_mkdir fs outDir with
  | Some e => inl (pre ++ [LogError (MsgProcessingError (FsError e))])
  | None =>
      let pre := pre ++ [Readdir inputDir] in
      match fs_readdir fs inputDir with
      | inl e => inl (pre ++ [LogError (MsgProcessingError (FsError e))])
      | inr files =>
          let ms := findMatchingFiles inputDir files in
          if List.length ms =? 0 then inl (pre ++ [Log MsgNoMatches])
          else
            let w := {| STATUS := freshStatus (List.length ms); children := [];
                        out := pre ++ [Log (MsgFound (List.length ms));
                                       Log (MsgEncoder CONFIG.getEncoder)] |} in
            inr (startBatch {| matches := ms; outputDir := outDir; currentIndex := 0;
                               stage := Running; world := w |})
      end
  end.

(** [main]; [args] is [process.argv.slice(2)].  A process whose [main]
    returns with nothing left to wait for ends with status 0. *)
Definition main (args : list string) (fs : FsEnv) : outcome :=
  match args with
  | [inputDir; outDir] =>
      let pre := [Stat inputDir] in
      match fs_stat fs inputDir with
      | inl e => Ended 1 (pre ++ [LogError (MsgTopError (FsError e)); ProcessExit 1])
      | inr false => Ended 1 (pre ++ [LogError (MsgTopError NotADirectory); ProcessExit 1])
      | inr true =>
          match batchProcess fs pre inputDir outDir with
          | inl printed => Ended 0 printed
          | inr o => Live o
          end
      end
  | _ => Ended 1 [Log MsgUsage; Log MsgExample; ProcessExit 1]
  end.

(** ** Notions used to state the properties *)

(** A name that [fs.readdir] can return: not empty, not a dot segment, and
    without a separator. *)
Definition entryName (f : string) : bool :=
  negb (String.eqb f "") && negb (String.eqb f ".") && negb (String.eqb f "..")
  && negb (mem_char Path.slash f).

(** The last element of [files] that satisfies [P]. *)
Fixpoint lastWith (P : string -> bool) (files : list string) : option string :=
  match files with
  | [] => None
  | f :: r =>
      match lastWith P r with
      | Some x => Some x
      | None => if P f then Some f else None
      end
  end.

(** The files that [classify] files under the key [k], per class. *)
Definition videoFor (k : string) (f : string) : bool :=
  isVideo f && String.eqb (nameWithoutExt f) k.

Definition subtitleFor (k : string) (f : string) : bool :=
  negb (isVideo f) && isSubtitle f && String.eqb (nameWithoutExt f) k.

(** The label of a pair, as [processVideo] computes it, and its key. *)
Definition label (p : MatchedPair) : string := Path.basename (video p).

Definition pairKey (p : MatchedPair) : string := nameWithoutExt (label p).

Definition MatchedPair_eq_dec (p q : MatchedPair) : {p = q} + {p <> q}.
Proof. decide equality; apply string_dec. Defined.

Definition settledCount (o : Orch) : nat :=
  List.length (filter isSettled (children (world o))).

Definition spawned (o : Orch) : nat := List.length (children (world o)).

Definition slashFree (s : string) : bool := negb (mem_char Path.slash s).

(** The stream of one child: the chunks of its stderr, in order. *)
Definition feed (i : nat) (chunks : list string) : M unit :=
  forEach chunks (on_data i).

Definition durationOf (w : World) (i : nat) : option number :=
  option_map duration (nth_error (children w) i).

(** What one chunk does to the closure of [processVideo], read off the
    two [if] of the 'data' listener: the duration it captures (with the
    line it prints), and the percentage it forwards. *)
Definition capture (c : Child) (output : string) : Child * list effect :=
  if falsy (duration c) then
    match durationMatch output with
    | Some d =>
        ({| filename := filename c; duration := d; lastProgress := lastProgress c;
            settled := settled c; life := life c |},
         [Log (MsgDuration d)])
    | None => (c, [])
    end
  else (c, []).

(** The value [progress] of the listener, when it computes one. *)
Definition percentage (c : Child) (output : string) : option fixed1 :=
  match timeMatch output with
  | Some currentTime =>
      if gtb (duration c) zero
      then Some (toFixed1 (mul (div currentTime (duration c)) (of_Z 100)))
      else None
  | None => None
  end.

(** The test of the throttle. *)
Definition passes (c : Child) (progress : fixed1) : bool :=
  geb (abs (sub (fixed1_to_number progress) (lastProgress c))) (of_decimal 1 (-1)).

Definition forwarded (c : Child) (output : string) : option fixed1 :=
  match percentage c output with
  | Some progress => if passes c progress then Some progress else None
  | None => None
  end.

Definition withProgress (c : Child) (progress : fixed1) : Child :=
  {| filename := filename c; duration := duration c;
     lastProgress := fixed1_to_number progress; settled := settled c; life := life c |}.

Definition shownStatus (st : Status) (file : string) (v : progress_value) : Status :=
  {| total := total st; completed := completed st;
     inProgress := JSMap.set file v (inProgress st); results := results st |}.

(** [STATUS] after the three statements shared by 'close' and 'error'. *)
Definition finishStatus (st : Status) (file : string) (ok : bool) : Status :=
  {| total := total st; completed := S (completed st);
     inProgress := JSMap.delete file (inProgress st);
     results := JSMap.set file ok (results st) |}.

Definition exitOk (code : option Z) : bool :=
  match code with Some 0%Z => true | _ => false end.

Definition settleWith (c : Child) (p : promise) (l : lifecycle) : Child :=
  {| filename := filename c; duration := duration c; lastProgress := lastProgress c;
     settled := match settled c with Pending => p | q => q end; life := l |}.

Definition isRender (e : effect) : bool :=
  match e with Render _ => true | _ => false end.

Definition isSpawn (e : effect) : bool :=
  match e with Spawn _ _ => true | _ => false end.

Definition isExitCall (e : effect) : bool :=
  match e with ProcessExit _ => true | _ => false end.

(** An environment in which the three file-system calls succeed. *)
Definition fs_ok (files : list string) : FsEnv :=
  {| fs_stat := fun _ => inr true;
     fs_mkdir := fun _ => None;
     fs_readdir := fun _ => inr files |}.

(** A run on a directory with one video and its subtitle. *)
Definition oneMovie : outcome := main ["in"; "out"] (fs_ok ["movie.mp4"; "movie.srt"]).

Definition orchOf (r : outcome) : option Orch :=
  match r with Live o => Some o | Ended _ _ => None end.

Definition runFrom (r : outcome) (es : list event) : option Orch :=
  match orchOf r with Some o => run es o | None => None end.

(** [n] is the integer closest to ten times the double [x], the one of
    larger magnitude on a tie: for [x >= 0], [n - 1/2 <= 10 * x < n + 1/2]. *)
Definition nearestTenth (x : number) (n : Z) : Prop :=
  match x with
  | S754_zero _ => n = 0%Z
  | S754_finite s m e =>
      let a := if s then (- n)%Z else n in
      if (0 <=? e)%Z then a = (10 * Zpos m * 2 ^ e)%Z
      else ((2 * a - 1) * 2 ^ (- e) <= 20 * Zpos m < (2 * a + 1) * 2 ^ (- e))%Z
  | _ => False
  end.

Definition worldOf (r : option Orch) : World :=
  match r with
  | Some o => world o
  | None => {| STATUS := freshStatus 0; children := []; out := [] |}
  end.

(** The world right after the start of [oneMovie]: one child, just spawned. *)
Definition freshWorld : World := worldOf (orchOf oneMovie).

Definition statusAfter (es : list event) : option Status :=
  option_map (fun o => STATUS (world o)) (runFrom oneMovie es).

Definition rendersAfter (es : list event) : option nat :=
  option_map (fun o => List.length (filter isRender (out (world o)))) (runFrom oneMovie es).

Definition childAfter (es : list event) (i : nat) : option Child :=
  match runFrom oneMovie es with
  | Some o => nth_error (children (world o)) i
  | None => None
  end.

(** The operations of the tracker, as the listeners perform them on
    [STATUS]: registering an item at 0, updating its percentage, and
    finishing it with a success flag. *)
Inductive trackerOp : Type :=
| Register (file : string)
| Update (file : string) (progress : fixed1)
| Finish (file : string) (ok : bool).

Definition applyOp (st : Status) (op : trackerOp) : Status :=
  match op with
  | Register f => shownStatus st f (PNum zero)
  | Update f p => shownStatus st f (PStr p)
  | Finish f ok => finishStatus st f ok
  end.

Definition isFinish (op : trackerOp) : bool :=
  match op with Finish _ _ => true | _ => false end.

(** The flag of the last [Finish] of [f] in [ops]. *)
Fixpoint lastFlag (f : string) (ops : list trackerOp) : option bool :=
  match ops with
  | [] => None
  | op :: r =>
      match lastFlag f r with
      | Some b => Some b
      | None =>
          match op with
          | Finish g ok => if String.eqb g f then Some ok else None
          | _ => None
          end
      end
  end.

(** The closure [processVideo] creates for a pair. *)
Definition freshChild (m : MatchedPair) : Child :=
  {| filename := Path.basename (video m); duration := zero; lastProgress := zero;
     settled := Pending; life := Alive |}.

Definition spawnCount (o : Orch) : nat :=
  List.length (filter isSpawn (out (world o))).

(** The invariant of the batch loop, with [n] pairs: the index is a
    multiple of the batch size; the children spawned so far are those of
    the batches up to the current one; every child of an earlier batch has
    settled; and [results] has no key twice. *)
Record BatchInv (o : Orch) : Prop := {
  inv_index : exists k, currentIndex o = k * BATCH_SIZE;
  inv_stage :
    match stage o with
    | Running => currentIndex o < List.length (matches o)
    | Waiting => 0 < currentIndex o < List.length (matches o)
    | Finished => List.length (matches o) <= currentIndex o
    end;
  inv_spawned :
    spawned o =
    match stage o with
    | Running => Nat.min (currentIndex o + BATCH_SIZE) (List.length (matches o))
    | _ => Nat.min (currentIndex o) (List.length (matches o))
    end;
  inv_settled :
    forall j c, nth_error (children (world o)) j = Some c ->
                j < currentIndex o -> isSettled c = true;
  inv_spawns : spawnCount o = spawned o;
  inv_results : NoDup (JSMap.keys (results (STATUS (world o))))
}.

(** A computation that only prints: it leaves [STATUS] and the children
    alone and spawns nothing. *)
Definition quiet {A : Type} (m : M A) : Prop :=
  forall w,
    STATUS (snd (m w)) = STATUS w /\
    children (snd (m w)) = children w /\
    filter isSpawn (out (snd (m w))) = filter isSpawn (out w).

(** A run on a directory with eleven videos and their subtitles, its
    state at the start, and its state once the ten conversions of the first
    batch have ended and [batchProcess] has resumed. *)
Definition elevenMovies : list string :=
  ["v00.mp4"; "v01.mp4"; "v02.mp4"; "v03.mp4"; "v04.mp4"; "v05.mp4"; "v06.mp4"; "v07.mp4"; "v08.mp4"; "v09.mp4"; "v10.mp4"; "v00.srt"; "v01.srt"; "v02.srt"; "v03.srt"; "v04.srt"; "v05.srt"; "v06.srt"; "v07.srt"; "v08.srt"; "v09.srt"; "v10.srt"].

Definition dummyOrch : Orch :=
  {| matches := []; outputDir := ""; currentIndex := 0; stage := Finished;
     world := {| STATUS := freshStatus 0; children := []; out := [] |} |}.

Definition elevenStart : Orch :=
  match main ["in"; "out"] (fs_ok elevenMovies) with
  | Live o => o
  | Ended _ _ => dummyOrch
  end.

Definition firstBatchEvents : list event :=
  [Close 0 (Some 0%Z); Close 1 (Some 0%Z); Close 2 (Some 0%Z); Close 3 (Some 0%Z); Close 4 (Some 0%Z); Close 5 (Some 0%Z); Close 6 (Some 0%Z); Close 7 (Some 0%Z); Close 8 (Some 0%Z); Close 9 (Some 0%Z); Resume].

Definition elevenPaused : Orch :=
  match run firstBatchEvents elevenStart with
  | Some o => o
  | None => dummyOrch
  end.

(** An environment in which the output directory cannot be created. *)
Definition fs_mkdir_denied : FsEnv :=
  {| fs_stat := fun _ => inr true;
     fs_mkdir := fun _ => Some "EACCES: permission denied, mkdir 'out'";
     fs_readdir := fun _ => inr ["movie.mp4"; "movie.srt"] |}.

(** An environment in which the input directory cannot be listed. *)
Definition fs_readdir_denied : FsEnv :=
  {| fs_stat := fun _ => inr true;
     fs_mkdir := fun _ => None;
     fs_readdir := fun _ => inl "EACCES: permission denied, scandir 'in'" |}.

(** ** Further notions *)

(** An event of the child [i]. *)
Definition childEvent (i : nat) (e : event) : bool :=
  match e with
  | Data j _ | Close j _ | Error j _ => Nat.eqb i j
  | StdinData | Resume => false
  end.

(** An environment in which the input path exists but is a plain file. *)
Definition fs_not_a_directory : FsEnv :=
  {| fs_stat := fun _ => inr false;
     fs_mkdir := fun _ => None;
     fs_readdir := fun _ => inr [] |}.


(** The start of [elevenMovies] after the fourth conversion has failed. *)
Definition elevenOneFailed : Orch :=
  match react (Close 3 (Some 1%Z)) elevenStart with
  | Some o => o
  | None => dummyOrch
  end.

(** The name that [processBatch] appends to the name of the video. *)
Definition outputSuffix : string := "_output.mp4".

(** The run [oneMovie] when ffmpeg cannot be spawned: its start, its state
    after 'error', and its state after the 'close' that follows. *)
Definition oneMovieStart : Orch :=
  match oneMovie with Live o => o | Ended _ _ => dummyOrch end.

Definition oneMovieErrored : Orch :=
  match react (Error 0 "spawn ffmpeg ENOENT") oneMovieStart with
  | Some o => o
  | None => dummyOrch
  end.

Definition oneMovieClosed : Orch :=
  match react (Close 0 (Some (-2)%Z)) oneMovieErrored with
  | Some o => o
  | None => dummyOrch
  end.


(** The call of the encoder for a pair. *)
Definition spawnOf (outDir : string) (m : MatchedPair) : effect :=
  Spawn "ffmpeg" (ffmpegArgs (video m) (subtitle m) (outputFile outDir m)).

(** Every snapshot printed in [l] shows the total [n]. *)
Definition rendersShow (n : nat) (l : list effect) : Prop :=
  forall s, In (Render s) l -> shown_total s = n.

(** A computation that only appends lines to the output. *)
Definition printsOnly {A : Type} (m : M A) : Prop :=
  forall w,
    STATUS (snd (m w)) = STATUS w /\
    children (snd (m w)) = children w /\
    exists l, out (snd (m w)) = out w ++ l
              /\ forall e, In e l -> isSpawn e = false /\ isRender e = false.

(** What the output and the children say about the pairs handled so far:
    one call of the encoder and one closure per pair, in the order of the
    matcher; and the total that is stored and shown. *)
Record TraceInv (o : Orch) : Prop := {
  tr_spawns :
    filter isSpawn (out (world o))
    = map (spawnOf (outputDir o)) (firstn (spawned o) (matches o));
  tr_names :
    map filename (children (world o)) = map label (firstn (spawned o) (matches o));
  tr_total : total (STATUS (world o)) = List.length (matches o);
  tr_renders : rendersShow (List.length (matches o)) (out (world o))
}.

(** ** Runs in which every encoder could be started *)

Definition isError (e : event) : bool :=
  match e with Error _ _ => true | _ => false end.

(** A run without an 'error' event. *)
Definition faultFree (es : list event) : bool :=
  forallb (fun e => negb (isError e)) es.

(** The flag that the 'close' listener stores for the way it settles the
    promise. *)
Definition flagOf (p : promise) : option bool :=
  match p with
  | Pending => None
  | Resolved => Some true
  | Rejected _ => Some false
  end.

Definition resolved (c : Child) : bool :=
  match settled c with Resolved => true | _ => false end.

Definition rejected (c : Child) : bool :=
  match settled c with Rejected _ => true | _ => false end.

(** What [STATUS] says about the conversions while no 'error' has been
    delivered: a conversion is either running, pending and in flight, or
    closed, settled and recorded with the flag of its promise. *)
Record FlightInv (o : Orch) : Prop := {
  fl_life :
    forall j c, nth_error (children (world o)) j = Some c ->
                (life c = Alive /\ settled c = Pending)
                \/ (life c = Closed /\ isSettled c = true);
  fl_completed : completed (STATUS (world o)) = settledCount o;
  fl_inflight :
    forall j c, nth_error (children (world o)) j = Some c ->
                JSMap.has (filename c) (inProgress (STATUS (world o)))
                = negb (isSettled c);
  fl_flag :
    forall j c, nth_error (children (world o)) j = Some c ->
                JSMap.get (filename c) (results (STATUS (world o)))
                = flagOf (settled c);
  fl_keys :
    forall f, In f (JSMap.keys (results (STATUS (world o)))) ->
              exists j c, nth_error (children (world o)) j = Some c
                          /\ filename c = f /\ isSettled c = true;
  fl_succeeded :
    List.length (filter (fun b : bool => b) (JSMap.values (results (STATUS (world o)))))
    = List.length (filter resolved (children (world o)));
  fl_failed :
    List.length (filter negb (JSMap.values (results (STATUS (world o)))))
    = List.length (filter rejected (children (world o)))
}.

(** The run of [elevenMovies] when the fourth conversion fails and the
    other nine of the first batch succeed. *)
Definition mixedBatchEvents : list event :=
  [Close 0 (Some 0%Z); Close 1 (Some 0%Z); Close 2 (Some 0%Z); Close 3 (Some 1%Z); Close 4 (Some 0%Z); Close 5 (Some 0%Z); Close 6 (Some 0%Z); Close 7 (Some 0%Z); Close 8 (Some 0%Z); Close 9 (Some 0%Z); Resume].

Definition elevenMixed : Orch :=
  match run mixedBatchEvents elevenStart with
  | Some o => o
  | None => dummyOrch
  end.

(** The whole run of [elevenMovies]: the first batch as above, the key
    press, and the last conversion. *)
Definition wholeRunEvents : list event :=
  mixedBatchEvents ++ [StdinData; Data 10 "Duration: 00:00:10.00"; Close 10 (Some 0%Z)].

Definition elevenBeforeEnd : Orch :=
  match run wholeRunEvents elevenStart with
  | Some o => o
  | None => dummyOrch
  end.

Definition elevenEnd : Orch :=
  match react Resume elevenBeforeEnd with
  | Some o => o
  | None => dummyOrch
  end.

(** ** The reports of [batchProcess] *)

(** What the task of a settled conversion returns to [Promise.all]. *)
Definition resultOf (c : Child) : BatchResult :=
  {| success := resolved c; file := filename c;
     failure := match settled c with Rejected e => Some e | _ => None end |}.

(** The conversions of the batch that is running. *)
Definition currentBatch (o : Orch) : list Child :=
  slice (currentIndex o) (currentIndex o + BATCH_SIZE) (children (world o)).

(** The numbered lines of a list of failed files. *)
Definition failedItems (l : list effect) : list (nat * string) :=
  flat_map (fun e => match e with
                     | Log (MsgFailedItem k f) => [(k, f)]
                     | _ => []
                     end) l.

(** The two ways the report of a batch goes on: the prompt for the next
    batch, or the final statistics. *)
Definition promptLines : list effect := [Log MsgPressEnter; ListenStdin].

Definition summaryLines (n succeeded failed : nat) : list effect :=
  [Log MsgSummary; Log (MsgSummaryTotal n);
   Log (MsgSummarySucceeded succeeded); Log (MsgSummaryFailed failed)].

(** ** What [printProgress] shows *)

(** A snapshot printed by the events of a step from a state with [STATUS]
    [before] to one with [STATUS] [after]. *)
Definition shownBetween (before after : Status) (s : Snapshot) : Prop :=
  shown_total s = total before
  /\ (shown_completed s = completed before \/ shown_completed s = completed after)
  /\ List.length (shown_recent s) <= 5.

(** The first snapshot of the run of [elevenMovies]. *)
Definition firstSnapshot : Snapshot :=
  snapshot (shownStatus (freshStatus 11) "v00.mp4" (PNum zero)).

(** ** Names written in ASCII *)

(** Every code unit of the name is below 128.  On such names
    [String.prototype.toLowerCase] works letter by letter. *)
Fixpoint isAscii (s : string) : bool :=
  match s with
  | EmptyString => true
  | String c r => (code c <? 128) && isAscii r
  end.

(** * Properties *)

#[global] Arguments Ascii.eqb : simpl never.
#[global] Arguments String.eqb : simpl never.

(** ** Facts about the insertion-ordered map *)

Module JSMapFacts.
Import JSMap.

Section WithValue.
Variable V : Type.
Implicit Types (m : t V) (k : string) (v : V).

Lemma get_set_same k v m : get k (set k v m) = Some v.
Proof.
  induction m as [|[k' v'] r IH]; simpl.
  - now rewrite String.eqb_refl.
  - destruct (String.eqb k' k) eqn:E; simpl.
    + now rewrite String.eqb_refl.
    + now rewrite E.
Qed.

Lemma get_set_other k k' v m : k <> k' -> get k' (set k v m) = get k' m.
Proof.
  intros Hne. induction m as [|[k0 v0] r IH]; simpl.
  - apply String.eqb_neq in Hne. now rewrite Hne.
  - destruct (String.eqb k0 k) eqn:E; simpl.
    + apply String.eqb_eq in E. subst k0.
      apply String.eqb_neq in Hne. now rewrite Hne.
    + now rewrite IH.
Qed.

Lemma get_set k k' v m :
  get k' (set k v m) = if String.eqb k k' then Some v else get k' m.
Proof.
  destruct (String.eqb k k') eqn:E.
  - apply String.eqb_eq in E. subst. apply get_set_same.
  - apply String.eqb_neq in E. now apply get_set_other.
Qed.

Lemma get_None_not_In k m : get k m = None -> ~ In k (keys m).
Proof.
  induction m as [|[k' v'] r IH]; simpl; intros H; [tauto|].
  destruct (String.eqb k' k) eqn:E; [discriminate|].
  apply String.eqb_neq in E. intros [?|?]; [congruence | now apply IH].
Qed.

Lemma get_Some_In k v m : get k m = Some v -> In (k, v) m.
Proof.
  induction m as [|[k' v'] r IH]; simpl; intros H; [discriminate|].
  destruct (String.eqb k' k) eqn:E.
  - apply String.eqb_eq in E. left. congruence.
  - right. now apply IH.
Qed.

Lemma In_get k v m : NoDup (keys m) -> In (k, v) m -> get k m = Some v.
Proof.
  induction m as [|[k' v'] r IH]; simpl; intros Hnd Hin; [tauto|].
  inversion Hnd as [|? ? Hnotin Hnd']; subst.
  destruct Hin as [Heq|Hin].
  - inversion Heq; subst. now rewrite String.eqb_refl.
  - destruct (String.eqb k' k) eqn:E.
    + apply String.eqb_eq in E. subst k'.
      exfalso. apply Hnotin. change k with (fst (k, v)). now apply in_map.
    + now apply IH.
Qed.

Lemma keys_set k v m :
  keys (set k v m) = if has k m then keys m else keys m ++ [k].
Proof.
  unfold has. induction m as [|[k' v'] r IH]; simpl; [reflexivity|].
  destruct (String.eqb k' k) eqn:E; simpl.
  - apply String.eqb_eq in E. now subst.
  - rewrite IH. now destruct (get k r).
Qed.

Lemma NoDup_keys_set k v m : NoDup (keys m) -> NoDup (keys (set k v m)).
Proof.
  intros Hnd. rewrite keys_set. unfold has.
  destruct (get k m) eqn:E; [assumption|].
  apply get_None_not_In in E.
  apply NoDup_app; [assumption | repeat constructor; simpl; tauto |].
  intros x Hx [<-|[]]. contradiction.
Qed.

Lemma keys_delete_incl k m x : In x (keys (delete k m)) -> In x (keys m).
Proof.
  induction m as [|[k' v'] r IH]; simpl; [tauto|].
  destruct (String.eqb k' k); simpl; intuition.
Qed.

Lemma get_delete_same k m : get k (delete k m) = None.
Proof.
  induction m as [|[k' v'] r IH]; simpl; [reflexivity|].
  destruct (String.eqb k' k) eqn:E; simpl; [assumption|]. now rewrite E.
Qed.

Lemma count_le_1 k m : NoDup (keys m) -> count k m <= 1.
Proof.
  unfold count.
  induction m as [|[k' v'] r IH]; simpl; intros Hnd; [lia|].
  inversion Hnd as [|? ? Hnotin Hnd']; subst.
  destruct (String.eqb k' k) eqn:E; simpl; [|now apply IH].
  apply String.eqb_eq in E. subst k'.
  assert (Hz : filter (fun e : string * V => String.eqb (fst e) k) r = []).
  { clear -Hnotin. induction r as [|[k1 v1] r IH]; simpl; [reflexivity|].
    destruct (String.eqb k1 k) eqn:E.
    - apply String.eqb_eq in E. subst. exfalso. apply Hnotin. now left.
    - apply IH. intros H. apply Hnotin. now right. }
  rewrite Hz. simpl. lia.
Qed.

Lemma count_get k v m : NoDup (keys m) -> get k m = Some v -> count k m = 1.
Proof.
  unfold count.
  induction m as [|[k' v'] r IH]; simpl; intros Hnd Hget; [discriminate|].
  inversion Hnd as [|? ? Hnotin Hnd']; subst.
  destruct (String.eqb k' k) eqn:E; simpl; [|now apply IH].
  apply String.eqb_eq in E. subst k'.
  pose proof (@count_le_1 k ((k, v') :: r) Hnd) as Hle.
  unfold count in Hle. simpl in Hle. rewrite String.eqb_refl in Hle.
  simpl in Hle. lia.
Qed.

End WithValue.

End JSMapFacts.

(** ** Facts about paths *)

Module PathFacts.
Import Path.

Lemma append_empty_r (s : string) : (s ++ "")%string = s.
Proof. induction s; simpl; congruence. Qed.

Lemma list_ascii_app (a b : string) :
  list_ascii_of_string (a ++ b)%string = list_ascii_of_string a ++ list_ascii_of_string b.
Proof. induction a; simpl; congruence. Qed.

Lemma split_slash_nonempty (s : string) : split_slash s <> [].
Proof.
  induction s as [|c r IH]; simpl; [discriminate|].
  destruct (Ascii.eqb c slash); [discriminate|].
  destruct (split_slash r); [contradiction | discriminate].
Qed.

Lemma split_slash_app (a b : string) :
  split_slash (a ++ String slash b)%string = split_slash a ++ split_slash b.
Proof.
  induction a as [|c r IH]; simpl.
  - reflexivity.
  - destruct (Ascii.eqb c slash).
    + now rewrite IH.
    + rewrite IH. pose proof (split_slash_nonempty r) as Hne.
      destruct (split_slash r); [contradiction | reflexivity].
Qed.

Lemma split_slash_slashFree (f : string) : slashFree f = true -> split_slash f = [f].
Proof.
  unfold slashFree. induction f as [|c r IH]; simpl; [reflexivity|].
  rewrite Ascii.eqb_sym. destruct (Ascii.eqb c slash); simpl; intros H; [discriminate|].
  now rewrite (IH H).
Qed.

Lemma split_slash_segments (s : string) : Forall (fun x => slashFree x = true) (split_slash s).
Proof.
  induction s as [|c r IH]; simpl.
  - repeat constructor.
  - destruct (Ascii.eqb c slash) eqn:E.
    + constructor; [reflexivity | assumption].
    + destruct (split_slash r) as [|x xs]; [repeat constructor; unfold slashFree; simpl;
        rewrite Ascii.eqb_sym, E; reflexivity|].
      inversion IH; subst. constructor; [|assumption].
      unfold slashFree in *. simpl. now rewrite Ascii.eqb_sym, E.
Qed.

Lemma split_slash_join (l : list string) :
  l <> [] -> Forall (fun x => slashFree x = true) l ->
  split_slash (JSString.join "/" l) = l.
Proof.
  induction l as [|x r IH]; [congruence|]. intros _ Hall.
  inversion Hall as [|? ? Hx Hr]; subst.
  destruct r as [|y r'].
  - simpl. now apply split_slash_slashFree.
  - change (JSString.join "/" (x :: y :: r'))
      with (x ++ String slash (JSString.join "/" (y :: r')))%string.
    rewrite split_slash_app, IH; [|discriminate|assumption].
    now rewrite split_slash_slashFree.
Qed.

Lemma normalize_step_slashFree (b : bool) (stack : list string) (seg : string) :
  Forall (fun x => slashFree x = true) stack -> slashFree seg = true ->
  Forall (fun x => slashFree x = true) (normalize_step b stack seg).
Proof.
  intros Hs Hseg. unfold normalize_step.
  destruct (String.eqb seg "" || String.eqb seg "."); [assumption|].
  destruct (String.eqb seg "..").
  - destruct stack as [|top rest].
    + destruct b; repeat constructor.
    + inversion Hs; subst.
      destruct (String.eqb top ".."); [destruct b|]; try assumption.
      constructor; [reflexivity | assumption].
  - now constructor.
Qed.

Lemma normalize_fold_slashFree (b : bool) (segs stack : list string) :
  Forall (fun x => slashFree x = true) stack ->
  Forall (fun x => slashFree x = true) segs ->
  Forall (fun x => slashFree x = true) (fold_left (normalize_step b) segs stack).
Proof.
  revert stack. induction segs as [|s r IH]; simpl; intros stack Hs Hsegs; [assumption|].
  inversion Hsegs; subst. apply IH; [|assumption].
  now apply normalize_step_slashFree.
Qed.

Lemma entryName_spec (f : string) :
  entryName f = true ->
  f <> "" /\ f <> "." /\ f <> ".." /\ slashFree f = true.
Proof.
  unfold entryName, slashFree. intros H.
  repeat (apply andb_prop in H; destruct H as [H ?]).
  repeat split; try assumption;
    apply String.eqb_neq; now apply negb_true_iff.
Qed.

Lemma no_trailing_slash (a f : string) :
  f <> "" -> slashFree f = true -> has_trailing_slash (a ++ f)%string = false.
Proof.
  intros Hne Hsf. unfold has_trailing_slash.
  rewrite list_ascii_app, rev_app_distr.
  assert (Hin : forall c, In c (list_ascii_of_string f) -> Ascii.eqb c slash = false).
  { clear Hne. unfold slashFree in Hsf. induction f as [|d r IH]; simpl; [tauto|].
    simpl in Hsf. apply negb_true_iff, orb_false_iff in Hsf. destruct Hsf as [H1 H2].
    intros c [<-|Hc].
    - now rewrite Ascii.eqb_sym.
    - apply IH; [now apply negb_true_iff | assumption]. }
  destruct (rev (list_ascii_of_string f)) as [|c l] eqn:E.
  - apply (f_equal (@rev ascii)) in E. rewrite rev_involutive in E. simpl in E.
    destruct f; [congruence | discriminate].
  - simpl. apply Hin. apply in_rev. rewrite E. now left.
Qed.

Lemma last_component_ends (pre : string) (X : list string) (f : string) :
  (pre = "" \/ pre = "/") ->
  Forall (fun x => slashFree x = true) X -> slashFree f = true -> f <> "" ->
  last_component (pre ++ JSString.join "/" (X ++ [f]))%string = f.
Proof.
  intros Hpre HX Hf Hne. unfold last_component.
  assert (Hsplit : exists Y, split_slash (pre ++ JSString.join "/" (X ++ [f]))%string = Y ++ [f]).
  { assert (Hj : split_slash (JSString.join "/" (X ++ [f])) = X ++ [f]).
    { apply split_slash_join; [now destruct X|].
      apply Forall_app. split; [assumption | now repeat constructor]. }
    destruct Hpre as [-> | ->].
    - exists X. exact Hj.
    - exists ("" :: X).
      change ("/" ++ JSString.join "/" (X ++ [f]))%string
        with ("" ++ String slash (JSString.join "/" (X ++ [f])))%string.
      rewrite split_slash_app, Hj. reflexivity. }
  destruct Hsplit as [Y ->].
  rewrite filter_app. simpl.
  apply String.eqb_neq in Hne. rewrite Hne. simpl.
  apply last_last.
Qed.

Lemma normalize_last (p : string) (X : list string) (f : string) :
  split_slash p = X ++ [f] -> entryName f = true -> has_trailing_slash p = false ->
  last_component (normalize p) = f.
Proof.
  intros Hsplit Hentry Htrail.
  destruct (entryName_spec f Hentry) as (Hne & Hd & Hdd & Hsf).
  unfold normalize.
  destruct (String.eqb p "") eqn:Ep.
  { apply String.eqb_eq in Ep. subst p. simpl in Hsplit.
    destruct X as [|x [|? ?]]; simpl in Hsplit; inversion Hsplit; congruence. }
  rewrite Hsplit, fold_left_app. simpl.
  set (stack := fold_left (normalize_step (negb (isAbsolute p))) X []).
  assert (Hstack : Forall (fun x => slashFree x = true) stack).
  { apply normalize_fold_slashFree; [constructor|].
    pose proof (split_slash_segments p) as Hall. rewrite Hsplit in Hall.
    apply Forall_app in Hall. tauto. }
  assert (Hstep : normalize_step (negb (isAbsolute p)) stack f = f :: stack).
  { unfold normalize_step.
    apply String.eqb_neq in Hne, Hd, Hdd. now rewrite Hne, Hd, Hdd. }
  rewrite Hstep, Htrail. simpl rev.
  destruct (rev stack ++ [f]) as [|s0 l0] eqn:E; [now destruct (rev stack)|].
  rewrite <- E. rewrite append_empty_r.
  apply last_component_ends; try assumption.
  - destruct (isAbsolute p); auto.
  - apply Forall_rev. assumption.
Qed.

(** The label of an entry of the input directory is its name. *)
Lemma basename_join (d f : string) :
  entryName f = true -> basename (join d f) = f.
Proof.
  intros Hentry. destruct (entryName_spec f Hentry) as (Hne & Hd & Hdd & Hsf).
  unfold basename, join.
  apply String.eqb_neq in Hne. rewrite Hne. apply String.eqb_neq in Hne.
  destruct (String.eqb d "") eqn:Ed.
  - apply normalize_last with (X := []); [now apply split_slash_slashFree|assumption|].
    now apply (no_trailing_slash "").
  - apply normalize_last with (X := split_slash d); [|assumption|].
    + change (d ++ "/" ++ f)%string with (d ++ String slash f)%string.
      rewrite split_slash_app. now rewrite (split_slash_slashFree f).
    + assert (Hassoc : (d ++ "/" ++ f)%string = ((d ++ "/") ++ f)%string).
      { clear. induction d as [|a d IH]; simpl in *; congruence. }
      rewrite Hassoc. now apply no_trailing_slash.
Qed.

Lemma join_injective (d f g : string) :
  entryName f = true -> entryName g = true -> join d f = join d g -> f = g.
Proof.
  intros Hf Hg H. apply (f_equal basename) in H.
  now rewrite !basename_join in H.
Qed.

End PathFacts.

(** ** Facts about the file matcher *)

Module MatcherFacts.
Import JSMap JSMapFacts Path PathFacts.

Lemma lastWith_Some (P : string -> bool) (files : list string) (f : string) :
  lastWith P files = Some f -> In f files /\ P f = true.
Proof.
  induction files as [|g r IH]; simpl; [discriminate|].
  destruct (lastWith P r) as [x|] eqn:E.
  - intros H. inversion H; subst. destruct (IH eq_refl). auto.
  - destruct (P g) eqn:Pg; [|discriminate].
    intros H. inversion H; subst. auto.
Qed.

Lemma lastWith_None (P : string -> bool) (files : list string) :
  lastWith P files = None <-> (forall f, In f files -> P f = false).
Proof.
  induction files as [|g r IH]; simpl.
  - split; [intros _ f []| reflexivity].
  - destruct (lastWith P r) as [x|] eqn:E.
    + split; [discriminate|]. intros H.
      destruct (lastWith_Some _ _ E) as [Hin HP].
      rewrite H in HP; [discriminate | now right].
    + destruct (P g) eqn:Pg.
      * split; [discriminate|]. intros H. rewrite H in Pg; [discriminate | now left].
      * split; [|reflexivity]. intros _ f [<-|Hf]; [assumption|].
        now apply (proj1 IH).
Qed.

Lemma lastWith_split (P : string -> bool) (l1 l2 : list string) (f : string) :
  P f = true -> (forall g, In g l2 -> P g = false) ->
  lastWith P (l1 ++ f :: l2) = Some f.
Proof.
  intros Pf Hl2. induction l1 as [|g r IH]; simpl.
  - apply lastWith_None in Hl2. now rewrite Hl2, Pf.
  - now rewrite IH.
Qed.

Lemma lastWith_unique (P : string -> bool) (files : list string) (f : string) :
  In f files -> P f = true -> (forall g, In g files -> P g = true -> g = f) ->
  lastWith P files = Some f.
Proof.
  intros Hin Pf Huniq.
  destruct (lastWith P files) as [x|] eqn:E.
  - destruct (lastWith_Some _ _ E) as [Hx HPx]. f_equal. now apply Huniq.
  - rewrite lastWith_None in E. rewrite (E f Hin) in Pf. discriminate.
Qed.

Lemma subtitle_not_video (f : string) : isSubtitle f = true -> isVideo f = false.
Proof.
  unfold isSubtitle, isVideo, includes, CONFIG.subtitleExtensions. simpl.
  rewrite orb_false_r. intros H. apply String.eqb_eq in H. now rewrite H.
Qed.

(** Nothing of the class that is stripped remains in a normalized name. *)
Lemma remove_class_clean (cls : ascii -> bool) (s : string) (c : ascii) :
  mem_char c (remove_class cls s) = true -> cls c = false /\ mem_char c s = true.
Proof.
  induction s as [|d r IH]; simpl; [discriminate|].
  destruct (cls d) eqn:Ed; simpl.
  - intros H. destruct (IH H) as [H1 H2]. split; [assumption|].
    rewrite H2. apply orb_true_r.
  - intros H. apply orb_prop in H. destruct H as [H|H].
    + apply Ascii.eqb_eq in H. subst d. rewrite Ascii.eqb_refl. auto.
    + destruct (IH H) as [H1 H2]. rewrite H2, orb_true_r. auto.
Qed.

Lemma nameWithoutExt_clean (f : string) (c : ascii) :
  mem_char c (nameWithoutExt f) = true -> stripped c = false.
Proof. unfold nameWithoutExt. intros H. now apply remove_class_clean in H. Qed.

Section Scan.
Variable inputDir : string.

(** Last wins, in the map of the videos... *)
Lemma videos_get (k : string) (files : list string) (vs ss : JSMap.t string) :
  get k (fst (fold_left (classify inputDir) files (vs, ss))) =
  match lastWith (videoFor k) files with
  | Some f => Some (join inputDir f)
  | None => get k vs
  end.
Proof.
  revert vs ss. induction files as [|f r IH]; intros vs ss; simpl; [reflexivity|].
  unfold classify.
  destruct (isVideo f) eqn:Ev; [|destruct (isSubtitle f) eqn:Es]; rewrite IH;
    destruct (lastWith (videoFor k) r); try reflexivity;
    unfold videoFor; rewrite Ev; simpl; try reflexivity.
  rewrite get_set. now destruct (String.eqb (nameWithoutExt f) k).
Qed.

(** ... and in the map of the subtitles. *)
Lemma subtitles_get (k : string) (files : list string) (vs ss : JSMap.t string) :
  get k (snd (fold_left (classify inputDir) files (vs, ss))) =
  match lastWith (subtitleFor k) files with
  | Some f => Some (join inputDir f)
  | None => get k ss
  end.
Proof.
  revert vs ss. induction files as [|f r IH]; intros vs ss; simpl; [reflexivity|].
  unfold classify.
  destruct (isVideo f) eqn:Ev; [|destruct (isSubtitle f) eqn:Es]; rewrite IH;
    destruct (lastWith (subtitleFor k) r); try reflexivity;
    unfold subtitleFor; rewrite Ev, ?Es; simpl; try reflexivity.
  rewrite get_set. now destruct (String.eqb (nameWithoutExt f) k).
Qed.

Lemma scan_NoDup (files : list string) (vs ss : JSMap.t string) :
  NoDup (keys vs) -> NoDup (keys ss) ->
  NoDup (keys (fst (fold_left (classify inputDir) files (vs, ss)))) /\
  NoDup (keys (snd (fold_left (classify inputDir) files (vs, ss)))).
Proof.
  revert vs ss. induction files as [|f r IH]; intros vs ss Hv Hs; simpl; [auto|].
  unfold classify.
  destruct (isVideo f); [|destruct (isSubtitle f)]; apply IH;
    auto using NoDup_keys_set.
Qed.

Lemma scan_videos_NoDup (files : list string) : NoDup (keys (fst (scan inputDir files))).
Proof. apply scan_NoDup; constructor. Qed.

Lemma scan_videos_get (k : string) (files : list string) :
  get k (fst (scan inputDir files)) =
  option_map (join inputDir) (lastWith (videoFor k) files).
Proof. unfold scan. rewrite videos_get. now destruct (lastWith _ _). Qed.

Lemma scan_subtitles_get (k : string) (files : list string) :
  get k (snd (scan inputDir files)) =
  option_map (join inputDir) (lastWith (subtitleFor k) files).
Proof. unfold scan. rewrite subtitles_get. now destruct (lastWith _ _). Qed.

(** Every entry of the video map comes from a video of the listing. *)
Lemma scan_videos_origin (files : list string) (k v : string) :
  In (k, v) (fst (scan inputDir files)) ->
  exists f, lastWith (videoFor k) files = Some f /\ v = join inputDir f.
Proof.
  intros Hin. apply In_get in Hin; [|apply scan_videos_NoDup].
  rewrite scan_videos_get in Hin.
  destruct (lastWith (videoFor k) files) as [f|]; [|discriminate].
  exists f. simpl in Hin. split; congruence.
Qed.

Lemma videoFor_spec (k f : string) :
  videoFor k f = true <-> isVideo f = true /\ nameWithoutExt f = k.
Proof.
  unfold videoFor. rewrite andb_true_iff, String.eqb_eq. tauto.
Qed.

Lemma subtitleFor_spec (k f : string) :
  subtitleFor k f = true <-> isSubtitle f = true /\ nameWithoutExt f = k.
Proof.
  unfold subtitleFor. rewrite !andb_true_iff, String.eqb_eq, negb_true_iff.
  split; [tauto|]. intros [H1 H2]. auto using subtitle_not_video.
Qed.

Lemma scan_videos_keyed (files : list string) (k v : string) :
  Forall (fun f => entryName f = true) files ->
  In (k, v) (fst (scan inputDir files)) ->
  nameWithoutExt (basename v) = k.
Proof.
  intros Hall Hin. destruct (scan_videos_origin _ _ _ Hin) as (f & Hlast & ->).
  apply lastWith_Some in Hlast. destruct Hlast as [Hf HP].
  rewrite basename_join; [|now apply (proj1 (Forall_forall _ _) Hall)].
  now apply videoFor_spec in HP.
Qed.

End Scan.

(** *** The pairing loop *)

Lemma In_pairUp (vs ss : JSMap.t string) (p : MatchedPair) :
  In p (pairUp vs ss) ->
  exists k, In (k, video p) vs /\ get k ss = Some (subtitle p).
Proof.
  induction vs as [|[k v] r IH]; simpl; [tauto|].
  destruct (get k ss) as [s|] eqn:E.
  - intros [<-|Hin].
    + exists k. simpl. auto.
    + destruct (IH Hin) as (k' & ? & ?). exists k'. auto.
  - intros Hin. destruct (IH Hin) as (k' & ? & ?). exists k'. auto.
Qed.

Lemma filter_pairUp (k : string) (vs ss : JSMap.t string) :
  NoDup (keys vs) ->
  (forall k' v', In (k', v') vs -> nameWithoutExt (basename v') = k') ->
  filter (fun p => String.eqb (pairKey p) k) (pairUp vs ss) =
  match get k vs, get k ss with
  | Some v, Some s => [{| video := v; subtitle := s |}]
  | _, _ => []
  end.
Proof.
  induction vs as [|[k0 v0] r IH]; intros Hnd Hkeyed; simpl; [reflexivity|].
  inversion Hnd as [|? ? Hnotin Hnd']; subst.
  assert (IH' := IH Hnd' (fun k' v' H => Hkeyed k' v' (or_intror H))).
  destruct (String.eqb k0 k) eqn:E.
  - apply String.eqb_eq in E. subst k0.
    assert (Hk0 : nameWithoutExt (basename v0) = k) by (apply Hkeyed; now left).
    assert (Hr : get k r = None).
    { destruct (get k r) eqn:G; [|reflexivity].
      apply get_Some_In in G. exfalso. apply Hnotin.
      change k with (fst (k, s)). now apply in_map. }
    rewrite Hr in IH'.
    destruct (get k ss) as [s|] eqn:Gs; simpl.
    + unfold pairKey at 1, label. simpl. rewrite Hk0, String.eqb_refl.
      now rewrite IH'.
    + exact IH'.
  - assert (Hk0 : nameWithoutExt (basename v0) = k0) by (apply Hkeyed; now left).
    destruct (get k0 ss) as [s0|] eqn:Gs; simpl.
    + unfold pairKey at 1, label. simpl. rewrite Hk0, E. exact IH'.
    + exact IH'.
Qed.

Lemma keys_pairUp (vs ss : JSMap.t string) :
  (forall k' v', In (k', v') vs -> nameWithoutExt (basename v') = k') ->
  map pairKey (pairUp vs ss) = filter (fun k => has k ss) (keys vs).
Proof.
  induction vs as [|[k0 v0] r IH]; intros Hkeyed; simpl; [reflexivity|].
  assert (Hk0 : nameWithoutExt (basename v0) = k0) by (apply Hkeyed; now left).
  unfold has at 1. destruct (get k0 ss) as [s0|]; simpl.
  - unfold pairKey at 1, label. simpl. rewrite Hk0. f_equal.
    apply IH. intros. apply Hkeyed. now right.
  - apply IH. intros. apply Hkeyed. now right.
Qed.

Lemma count_occ_filter (f : MatchedPair -> bool) (l : list MatchedPair) (p : MatchedPair) :
  f p = true ->
  count_occ MatchedPair_eq_dec l p = count_occ MatchedPair_eq_dec (filter f l) p.
Proof.
  intros Hp. induction l as [|q r IH]; simpl; [reflexivity|].
  destruct (MatchedPair_eq_dec q p) as [->|Hne].
  - rewrite Hp. simpl. destruct (MatchedPair_eq_dec p p); [|contradiction]. now rewrite IH.
  - destruct (f q); simpl; [|assumption].
    destruct (MatchedPair_eq_dec q p); [contradiction | assumption].
Qed.

(** The pairs that carry the key [k]: the last video and the last
    subtitle filed under [k], when both exist. *)
Lemma matches_for_key (inputDir : string) (files : list string) (k : string) :
  Forall (fun f => entryName f = true) files ->
  filter (fun p => String.eqb (pairKey p) k) (findMatchingFiles inputDir files) =
  match lastWith (videoFor k) files, lastWith (subtitleFor k) files with
  | Some v, Some s => [{| video := join inputDir v; subtitle := join inputDir s |}]
  | _, _ => []
  end.
Proof.
  intros Hall. unfold findMatchingFiles.
  pose proof (scan_videos_NoDup inputDir files) as Hnd.
  pose proof (scan_videos_get inputDir k files) as Hv.
  pose proof (scan_subtitles_get inputDir k files) as Hs.
  pose proof (fun k' v' => @scan_videos_keyed inputDir files k' v' Hall) as Hkeyed.
  destruct (scan inputDir files) as [vs ss]. simpl in *.
  rewrite filter_pairUp, Hv, Hs by assumption.
  destruct (lastWith (videoFor k) files), (lastWith (subtitleFor k) files); reflexivity.
Qed.

Lemma matches_origin (inputDir : string) (files : list string) (p : MatchedPair) :
  In p (findMatchingFiles inputDir files) ->
  exists k v s,
    lastWith (videoFor k) files = Some v /\ lastWith (subtitleFor k) files = Some s /\
    p = {| video := join inputDir v; subtitle := join inputDir s |}.
Proof.
  unfold findMatchingFiles.
  pose proof (@scan_videos_origin inputDir files) as Hv.
  pose proof (fun k => scan_subtitles_get inputDir k files) as Hs.
  destruct (scan inputDir files) as [vs ss]. simpl in *.
  intros Hin. apply In_pairUp in Hin. destruct Hin as (k & Hin & Hget).
  destruct (Hv _ _ Hin) as (v & HV & Hvid).
  rewrite Hs in Hget.
  destruct (lastWith (subtitleFor k) files) as [s|] eqn:HS; [|discriminate].
  exists k, v, s. simpl in Hget. destruct p as [pv ps]. simpl in *.
  split; [assumption|]. split; [assumption|]. congruence.
Qed.

Lemma labels_NoDup (inputDir : string) (files : list string) :
  Forall (fun f => entryName f = true) files ->
  NoDup (map label (findMatchingFiles inputDir files)).
Proof.
  intros Hall. apply (NoDup_map_inv nameWithoutExt). rewrite map_map.
  change (fun x => nameWithoutExt (label x)) with pairKey.
  unfold findMatchingFiles.
  pose proof (scan_videos_NoDup inputDir files) as Hnd.
  pose proof (fun k' v' => @scan_videos_keyed inputDir files k' v' Hall) as Hkeyed.
  destruct (scan inputDir files) as [vs ss]. simpl in *.
  rewrite keys_pairUp by assumption. now apply NoDup_filter.
Qed.

End MatcherFacts.

(** ** The file matcher *)

Module FileMatcher.
Import JSMap JSMapFacts Path PathFacts MatcherFacts.

Example matcher_sample :
  findMatchingFiles "./videos" ["My Movie (2020).MKV"; "notes.txt"; "my_movie-[2020].srt"; "b.mp4"]
  = [{| video := "videos/My Movie (2020).MKV"; subtitle := "videos/my_movie-[2020].srt" |}].
Proof. vm_compute. reflexivity. Qed.

Example normalization_sample :
  nameWithoutExt "My Movie_[Part-1] (2020).final.MKV" = "mymoviepart12020.final"
  /\ isVideo "My Movie_[Part-1] (2020).final.MKV" = true
  /\ isSubtitle "subs.SRT" = true
  /\ isVideo ".mp4" = false.
Proof. vm_compute. repeat split; reflexivity. Qed.

(** C4, as stated, fails: a video and a subtitle with equal normalized
    names are not paired when a later video takes the same key. *)
Lemma C4_shadowed_video :
  In "a-b.mp4" ["a-b.mp4"; "ab.mp4"; "ab.srt"] /\
  In "ab.srt" ["a-b.mp4"; "ab.mp4"; "ab.srt"] /\
  isVideo "a-b.mp4" = true /\ isSubtitle "ab.srt" = true /\
  nameWithoutExt "a-b.mp4" = nameWithoutExt "ab.srt" /\
  count_occ MatchedPair_eq_dec
            (findMatchingFiles "in" ["a-b.mp4"; "ab.mp4"; "ab.srt"])
            {| video := join "in" "a-b.mp4"; subtitle := join "in" "ab.srt" |} = 0 /\
  findMatchingFiles "in" ["a-b.mp4"; "ab.mp4"; "ab.srt"]
  = [{| video := "in/ab.mp4"; subtitle := "in/ab.srt" |}].
Proof.
  repeat split; try (vm_compute; reflexivity); simpl; auto.
Qed.

(** C4, amended: in a listing of entry names, a video [v] and a subtitle
    [s] with equal normalized names, neither followed by a file of its
    class with the same normalized name, give exactly one pair [{v, s}],
    which is the only pair under that name.  Whatever else the listing
    holds, a video without a subtitle of the same normalized name is the
    video of no pair, a subtitle without such a video is the subtitle of no
    pair, and a listing in which no video and subtitle share a normalized
    name gives no pair at all. *)
Theorem C4_exactly_one_pair (inputDir : string) (files : list string) :
  Forall (fun f => entryName f = true) files ->
  (forall l1 l2 m1 m2 v s,
     files = l1 ++ v :: l2 -> files = m1 ++ s :: m2 ->
     isVideo v = true -> isSubtitle s = true ->
     nameWithoutExt v = nameWithoutExt s ->
     (forall f, In f l2 -> isVideo f = true -> nameWithoutExt f <> nameWithoutExt v) ->
     (forall f, In f m2 -> isSubtitle f = true -> nameWithoutExt f <> nameWithoutExt s) ->
     count_occ MatchedPair_eq_dec (findMatchingFiles inputDir files)
               {| video := join inputDir v; subtitle := join inputDir s |} = 1
     /\ filter (fun p => String.eqb (pairKey p) (nameWithoutExt v))
               (findMatchingFiles inputDir files)
        = [{| video := join inputDir v; subtitle := join inputDir s |}])
  /\ (forall u, In u files -> isVideo u = true ->
        (forall t, In t files -> isSubtitle t = true -> nameWithoutExt t <> nameWithoutExt u) ->
        forall p, In p (findMatchingFiles inputDir files) -> video p <> join inputDir u)
  /\ (forall t, In t files -> isSubtitle t = true ->
        (forall u, In u files -> isVideo u = true -> nameWithoutExt u <> nameWithoutExt t) ->
        forall p, In p (findMatchingFiles inputDir files) -> subtitle p <> join inputDir t)
  /\ ((forall u t, In u files -> In t files -> isVideo u = true -> isSubtitle t = true ->
                   nameWithoutExt u <> nameWithoutExt t) ->
      findMatchingFiles inputDir files = []).
Proof.
  intros Hall.
  pose proof (proj1 (Forall_forall _ _) Hall) as Hentry.
  split; [|split; [|split]].
  - intros l1 l2 m1 m2 v s Hv Hs Vv Ss Hkey Hlv Hls.
    remember (nameWithoutExt v) as k eqn:Hk.
    assert (HlastV : lastWith (videoFor k) files = Some v).
    { rewrite Hv. apply lastWith_split; [now apply videoFor_spec|].
      intros g Hg. destruct (videoFor k g) eqn:E; [|reflexivity].
      apply videoFor_spec in E. destruct E. exfalso. apply (Hlv g); congruence. }
    assert (HlastS : lastWith (subtitleFor k) files = Some s).
    { rewrite Hs. apply lastWith_split; [apply subtitleFor_spec; split; congruence|].
      intros g Hg. destruct (subtitleFor k g) eqn:E; [|reflexivity].
      apply subtitleFor_spec in E. destruct E. exfalso. apply (Hls g); congruence. }
    assert (Hfilter : filter (fun p => String.eqb (pairKey p) k)
                             (findMatchingFiles inputDir files)
                      = [{| video := join inputDir v; subtitle := join inputDir s |}]).
    { now rewrite (@matches_for_key inputDir files k Hall), HlastV, HlastS. }
    split; [|exact Hfilter].
    rewrite (count_occ_filter (fun p => String.eqb (pairKey p) k)).
    + rewrite Hfilter. now rewrite count_occ_cons_eq.
    + unfold pairKey, label. simpl. rewrite basename_join.
      * rewrite Hk. apply String.eqb_refl.
      * apply Hentry. rewrite Hv. apply in_elt.
  - intros u Hu Vu Hnone p Hp Heq.
    destruct (matches_origin _ _ _ Hp) as (k' & v' & s' & Hv' & Hs' & ->).
    simpl in Heq. apply lastWith_Some in Hv', Hs'.
    destruct Hv' as [Hinv' Pv'], Hs' as [Hins' Ps'].
    apply join_injective in Heq; auto. subst v'.
    apply videoFor_spec in Pv'. apply subtitleFor_spec in Ps'.
    apply (Hnone s'); intuition congruence.
  - intros t Ht St Hnone p Hp Heq.
    destruct (matches_origin _ _ _ Hp) as (k' & v' & s' & Hv' & Hs' & ->).
    simpl in Heq. apply lastWith_Some in Hv', Hs'.
    destruct Hv' as [Hinv' Pv'], Hs' as [Hins' Ps'].
    apply join_injective in Heq; auto. subst s'.
    apply videoFor_spec in Pv'. apply subtitleFor_spec in Ps'.
    apply (Hnone v'); intuition congruence.
  - intros Hnone.
    destruct (findMatchingFiles inputDir files) as [|p r] eqn:E; [reflexivity|].
    exfalso.
    assert (Hp : In p (findMatchingFiles inputDir files)) by (rewrite E; now left).
    destruct (matches_origin _ _ _ Hp) as (k' & v' & s' & Hv' & Hs' & _).
    apply lastWith_Some in Hv', Hs'.
    destruct Hv' as [Hinv' Pv'], Hs' as [Hins' Ps'].
    apply videoFor_spec in Pv'. apply subtitleFor_spec in Ps'.
    apply (Hnone v' s'); intuition congruence.
Qed.

Lemma C4_exactly_one_pair_witness :
  count_occ MatchedPair_eq_dec
            (findMatchingFiles "in" ["Movie.MKV"; "alone.mp4"; "movie.srt"; "other.srt"])
            {| video := join "in" "Movie.MKV"; subtitle := join "in" "movie.srt" |} = 1
  /\ (forall p, In p (findMatchingFiles "in" ["Movie.MKV"; "alone.mp4"; "movie.srt"; "other.srt"]) ->
        video p <> join "in" "alone.mp4")
  /\ (forall p, In p (findMatchingFiles "in" ["Movie.MKV"; "alone.mp4"; "movie.srt"; "other.srt"]) ->
        subtitle p <> join "in" "other.srt").
Proof.
  destruct (@C4_exactly_one_pair "in" ["Movie.MKV"; "alone.mp4"; "movie.srt"; "other.srt"])
    as (H1 & H2 & H3 & _).
  - repeat constructor.
  - split; [|split].
    + refine (proj1 (H1 [] ["alone.mp4"; "movie.srt"; "other.srt"]
                        ["Movie.MKV"; "alone.mp4"] ["other.srt"]
                        "Movie.MKV" "movie.srt" eq_refl eq_refl eq_refl eq_refl eq_refl _ _)).
      * intros f [<-|[<-|[<-|[]]]] Hf; vm_compute in Hf; try discriminate Hf;
          vm_compute; intros Heq; discriminate Heq.
      * intros f [<-|[]] Hf. vm_compute. intros Heq; discriminate Heq.
    + apply H2; [simpl; auto | reflexivity |].
      intros t [<-|[<-|[<-|[<-|[]]]]] Ht; vm_compute in Ht; try discriminate Ht;
        vm_compute; intros Heq; discriminate Heq.
    + apply H3; [simpl; auto | reflexivity |].
      intros u [<-|[<-|[<-|[<-|[]]]]] Hu; vm_compute in Hu; try discriminate Hu;
        vm_compute; intros Heq; discriminate Heq.
Defined.

(** C5: each of the two maps holds, for a normalized name, exactly one
    entry, and it is the path of the file of that class enumerated last
    under that name, whatever files of the same name come before it: a
    later video overwrites an earlier video, a later subtitle an earlier
    subtitle.  In a listing of entry names, the pairs under a name are
    then exactly one, made of the last video and the last subtitle of that
    name; a file of that name enumerated earlier is in no pair.  So two
    colliding videos and one subtitle give one pair, with the later
    video. *)
Theorem C5_last_wins (inputDir : string) (files : list string) (k : string) :
  (forall l1 l2 v,
     files = l1 ++ v :: l2 -> isVideo v = true -> nameWithoutExt v = k ->
     (forall f, In f l2 -> isVideo f = true -> nameWithoutExt f <> k) ->
     get k (fst (scan inputDir files)) = Some (join inputDir v)
     /\ count k (fst (scan inputDir files)) = 1)
  /\ (forall m1 m2 s,
        files = m1 ++ s :: m2 -> isSubtitle s = true -> nameWithoutExt s = k ->
        (forall f, In f m2 -> isSubtitle f = true -> nameWithoutExt f <> k) ->
        get k (snd (scan inputDir files)) = Some (join inputDir s)
        /\ count k (snd (scan inputDir files)) = 1)
  /\ (Forall (fun f => entryName f = true) files ->
      forall l1 l2 m1 m2 v s,
        files = l1 ++ v :: l2 -> isVideo v = true -> nameWithoutExt v = k ->
        (forall f, In f l2 -> isVideo f = true -> nameWithoutExt f <> k) ->
        files = m1 ++ s :: m2 -> isSubtitle s = true -> nameWithoutExt s = k ->
        (forall f, In f m2 -> isSubtitle f = true -> nameWithoutExt f <> k) ->
        filter (fun p => String.eqb (pairKey p) k) (findMatchingFiles inputDir files)
        = [{| video := join inputDir v; subtitle := join inputDir s |}]
        /\ (forall f, In f files -> nameWithoutExt f = k -> f <> v ->
              forall p, In p (findMatchingFiles inputDir files) ->
                        video p <> join inputDir f)
        /\ (forall f, In f files -> nameWithoutExt f = k -> f <> s ->
              forall p, In p (findMatchingFiles inputDir files) ->
                        subtitle p <> join inputDir f)).
Proof.
  assert (HV : forall l1 l2 v,
             files = l1 ++ v :: l2 -> isVideo v = true -> nameWithoutExt v = k ->
             (forall f, In f l2 -> isVideo f = true -> nameWithoutExt f <> k) ->
             lastWith (videoFor k) files = Some v).
  { intros l1 l2 v Hf Vv Kv Hl2. rewrite Hf.
    apply lastWith_split; [now apply videoFor_spec|].
    intros g Hg. destruct (videoFor k g) eqn:E; [|reflexivity].
    apply videoFor_spec in E. destruct E. exfalso. now apply (Hl2 g). }
  assert (HS : forall m1 m2 s,
             files = m1 ++ s :: m2 -> isSubtitle s = true -> nameWithoutExt s = k ->
             (forall f, In f m2 -> isSubtitle f = true -> nameWithoutExt f <> k) ->
             lastWith (subtitleFor k) files = Some s).
  { intros m1 m2 s Hf Ss Ks Hm2. rewrite Hf.
    apply lastWith_split; [now apply subtitleFor_spec|].
    intros g Hg. destruct (subtitleFor k g) eqn:E; [|reflexivity].
    apply subtitleFor_spec in E. destruct E. exfalso. now apply (Hm2 g). }
  split; [|split].
  - intros l1 l2 v Hf Vv Kv Hl2.
    assert (Hget : get k (fst (scan inputDir files)) = Some (join inputDir v)).
    { now rewrite scan_videos_get, (HV l1 l2 v Hf Vv Kv Hl2). }
    split; [exact Hget|].
    eapply count_get; [apply scan_videos_NoDup | exact Hget].
  - intros m1 m2 s Hf Ss Ks Hm2.
    assert (Hget : get k (snd (scan inputDir files)) = Some (join inputDir s)).
    { now rewrite scan_subtitles_get, (HS m1 m2 s Hf Ss Ks Hm2). }
    split; [exact Hget|].
    eapply count_get; [|exact Hget].
    apply (@scan_NoDup inputDir files empty empty); constructor.
  - intros Hall l1 l2 m1 m2 v s Hfv Vv Kv Hl2 Hfs Ss Ks Hm2.
    pose proof (proj1 (Forall_forall _ _) Hall) as Hentry.
    pose proof (HV l1 l2 v Hfv Vv Kv Hl2) as HlastV.
    pose proof (HS m1 m2 s Hfs Ss Ks Hm2) as HlastS.
    split; [|split].
    + now rewrite (@matches_for_key inputDir files k Hall), HlastV, HlastS.
    + intros f Hf Kf Hne p Hp Heq.
      destruct (matches_origin _ _ _ Hp) as (k' & v' & s' & Hv' & Hs' & ->).
      simpl in Heq. pose proof Hv' as Hv''. apply lastWith_Some in Hv''.
      destruct Hv'' as [Hinv' Pv'].
      apply join_injective in Heq; auto. subst v'.
      apply videoFor_spec in Pv'. destruct Pv' as [_ Pk]. rewrite Kf in Pk. subst k'.
      congruence.
    + intros f Hf Kf Hne p Hp Heq.
      destruct (matches_origin _ _ _ Hp) as (k' & v' & s' & Hv' & Hs' & ->).
      simpl in Heq. pose proof Hs' as Hs''. apply lastWith_Some in Hs''.
      destruct Hs'' as [Hins' Ps'].
      apply join_injective in Heq; auto. subst s'.
      apply subtitleFor_spec in Ps'. destruct Ps' as [_ Pk]. rewrite Kf in Pk. subst k'.
      congruence.
Qed.

Lemma C5_last_wins_witness :
  get "ab" (fst (scan "in" ["a-b.mp4"; "ab.srt"; "x.mkv"; "A_B.avi"; "A-B.SRT"]))
  = Some (join "in" "A_B.avi")
  /\ get "ab" (snd (scan "in" ["a-b.mp4"; "ab.srt"; "x.mkv"; "A_B.avi"; "A-B.SRT"]))
     = Some (join "in" "A-B.SRT")
  /\ filter (fun p => String.eqb (pairKey p) "ab")
            (findMatchingFiles "in" ["a-b.mp4"; "ab.srt"; "x.mkv"; "A_B.avi"; "A-B.SRT"])
     = [{| video := join "in" "A_B.avi"; subtitle := join "in" "A-B.SRT" |}]
  /\ (forall p, In p (findMatchingFiles "in" ["a-b.mp4"; "ab.srt"; "x.mkv"; "A_B.avi"; "A-B.SRT"]) ->
                video p <> join "in" "a-b.mp4").
Proof.
  destruct (@C5_last_wins "in" ["a-b.mp4"; "ab.srt"; "x.mkv"; "A_B.avi"; "A-B.SRT"] "ab")
    as (HV & HS & HP).
  assert (Hl2 : forall f, In f ["A-B.SRT"] -> isVideo f = true -> nameWithoutExt f <> "ab").
  { intros f [<-|[]] Hf. vm_compute in Hf. discriminate Hf. }
  assert (Hm2 : forall f, In f (@nil string) -> isSubtitle f = true -> nameWithoutExt f <> "ab").
  { intros f []. }
  split; [|split; [|split]].
  - exact (proj1 (HV ["a-b.mp4"; "ab.srt"; "x.mkv"] ["A-B.SRT"] "A_B.avi"
                     eq_refl eq_refl eq_refl Hl2)).
  - exact (proj1 (HS ["a-b.mp4"; "ab.srt"; "x.mkv"; "A_B.avi"] [] "A-B.SRT"
                     eq_refl eq_refl eq_refl Hm2)).
  - refine (proj1 (HP _ ["a-b.mp4"; "ab.srt"; "x.mkv"] ["A-B.SRT"]
                      ["a-b.mp4"; "ab.srt"; "x.mkv"; "A_B.avi"] [] "A_B.avi" "A-B.SRT"
                      eq_refl eq_refl eq_refl Hl2 eq_refl eq_refl eq_refl Hm2)).
    repeat constructor.
  - refine (proj1 (proj2 (HP _ ["a-b.mp4"; "ab.srt"; "x.mkv"] ["A-B.SRT"]
                      ["a-b.mp4"; "ab.srt"; "x.mkv"; "A_B.avi"] [] "A_B.avi" "A-B.SRT"
                      eq_refl eq_refl eq_refl Hl2 eq_refl eq_refl eq_refl Hm2))
                  "a-b.mp4" _ eq_refl _).
    + repeat constructor.
    + simpl. auto.
    + discriminate.
Defined.

(** C9: an entry whose lower-cased extension is in neither allow-list is
    passed over: both maps stay as they are, and the result of the
    matcher is the one obtained without the entry. *)
Theorem C9_other_extension_ignored
    (inputDir : string) (before after : list string) (file : string)
    (maps : JSMap.t string * JSMap.t string) :
  includes CONFIG.videoExtensions (toLowerCase (extname file)) = false ->
  includes CONFIG.subtitleExtensions (toLowerCase (extname file)) = false ->
  classify inputDir maps file = maps
  /\ scan inputDir (before ++ file :: after) = scan inputDir (before ++ after)
  /\ findMatchingFiles inputDir (before ++ file :: after)
     = findMatchingFiles inputDir (before ++ after).
Proof.
  intros Hv Hs.
  assert (Hstep : forall m, classify inputDir m file = m).
  { intros [vs ss]. unfold classify, isVideo, isSubtitle, lowerExt. now rewrite Hv, Hs. }
  assert (Hscan : scan inputDir (before ++ file :: after) = scan inputDir (before ++ after)).
  { unfold scan. rewrite !fold_left_app. simpl. now rewrite Hstep. }
  split; [apply Hstep|]. split; [exact Hscan|].
  unfold findMatchingFiles. now rewrite Hscan.
Qed.

Lemma C9_other_extension_ignored_witness :
  findMatchingFiles "in" (["a.mp4"] ++ "notes.TXT" :: ["a.srt"])
  = findMatchingFiles "in" (["a.mp4"] ++ ["a.srt"]).
Proof.
  refine (proj2 (proj2
    (@C9_other_extension_ignored "in" ["a.mp4"] ["a.srt"] "notes.TXT"
       (JSMap.empty, JSMap.empty) _ _))); reflexivity.
Defined.

End FileMatcher.

(** ** Facts about the listeners *)

Module ListenerFacts.

Lemma length_replace_nth (A : Type) (i : nat) (x : A) (l : list A) :
  List.length (replace_nth i x l) = List.length l.
Proof.
  revert i. induction l as [|y r IH]; intros [|j]; simpl; auto.
Qed.

Lemma nth_error_replace_same (A : Type) (i : nat) (x y : A) (l : list A) :
  nth_error l i = Some y -> nth_error (replace_nth i x l) i = Some x.
Proof.
  revert i. induction l as [|z r IH]; intros [|j]; simpl; try discriminate; auto.
Qed.

Lemma nth_error_replace_other (A : Type) (i j : nat) (x : A) (l : list A) :
  i <> j -> nth_error (replace_nth i x l) j = nth_error l j.
Proof.
  revert i j. induction l as [|z r IH]; intros [|i] [|j] H; simpl; auto; congruence.
Qed.

Lemma replace_nth_id (A : Type) (i : nat) (x : A) (l : list A) :
  nth_error l i = Some x -> replace_nth i x l = l.
Proof.
  revert i. induction l as [|z r IH]; intros [|j]; simpl; try discriminate.
  - congruence.
  - intros H. now rewrite IH.
Qed.

Lemma replace_nth_twice (A : Type) (i : nat) (x y : A) (l : list A) :
  replace_nth i x (replace_nth i y l) = replace_nth i x l.
Proof.
  revert i. induction l as [|z r IH]; intros [|j]; simpl; auto. now rewrite IH.
Qed.

Lemma world_eta (w : World) :
  {| STATUS := STATUS w; children := children w; out := out w |} = w.
Proof. now destruct w. Qed.

Lemma status_eta (st : Status) :
  {| total := total st; completed := completed st;
     inProgress := inProgress st; results := results st |} = st.
Proof. now destruct st. Qed.

Lemma child_eta (c : Child) :
  {| filename := filename c; duration := duration c; lastProgress := lastProgress c;
     settled := settled c; life := life c |} = c.
Proof. now destruct c. Qed.

(** The 'data' listener, as one equation. *)
Lemma on_data_eq (w : World) (i : nat) (c : Child) (output : string) :
  nth_error (children w) i = Some c ->
  exec (on_data i output) w =
  let '(c1, logs) := capture c output in
  match forwarded c1 output with
  | Some progress =>
      let st := shownStatus (STATUS w) (filename c) (PStr progress) in
      {| STATUS := st;
         children := replace_nth i (withProgress c1 progress) (children w);
         out := out w ++ logs ++ [Render (snapshot st)] |}
  | None =>
      {| STATUS := STATUS w;
         children := replace_nth i c1 (children w);
         out := out w ++ logs |}
  end.
Proof.
  intros Hc. unfold exec, on_data, bind, getChild. rewrite Hc.
  unfold capture, forwarded, percentage, passes.
  destruct (falsy (duration c)); [destruct (durationMatch output) as [d|]|];
    cbn [bind emit ret fst snd out STATUS children filename duration lastProgress settled life];
    (destruct (timeMatch output) as [t|];
     [ match goal with |- context [gtb ?d zero] => destruct (gtb d zero) end;
       [ match goal with |- context [geb ?a ?b] => destruct (geb a b) end |] |]);
    cbn; rewrite ?app_nil_r, <- ?app_assoc; reflexivity.
Qed.

(** The 'close' listener together with Node's bookkeeping. *)
Lemma on_close_eq (w : World) (i : nat) (c : Child) (code : option Z) :
  nth_error (children w) i = Some c ->
  exec (bind (on_close i code) (fun _ => setLife i Closed)) w =
  let st := finishStatus (STATUS w) (filename c) (exitOk code) in
  {| STATUS := st;
     children :=
       replace_nth i
         (settleWith c (if exitOk code then Resolved
                        else Rejected (ProcessFailed (filename c))) Closed)
         (children w);
     out := out w ++ [Render (snapshot st);
                      Log (if exitOk code then MsgDone (filename c)
                           else MsgFailed (filename c))] |}.
Proof.
  intros Hc. unfold exec, on_close, setLife, settle, bind, getChild. rewrite Hc.
  fold (exitOk code).
  destruct (exitOk code); cbn; rewrite Hc;
    unfold settleWith; destruct (settled c) eqn:Es; cbn;
    rewrite ?(@nth_error_replace_same _ i _ c (children w) Hc), ?Hc; cbn;
    rewrite ?replace_nth_twice, ?Es, <- ?app_assoc; reflexivity.
Qed.

(** The 'error' listener together with Node's bookkeeping. *)
Lemma on_error_eq (w : World) (i : nat) (c : Child) (err : string) :
  nth_error (children w) i = Some c ->
  exec (bind (on_error i err) (fun _ => setLife i Errored)) w =
  let st := finishStatus (STATUS w) (filename c) false in
  {| STATUS := st;
     children := replace_nth i (settleWith c (Rejected (FFmpegError err)) Errored) (children w);
     out := out w ++ [LogError (MsgSpawnError (filename c) err); Render (snapshot st)] |}.
Proof.
  intros Hc. unfold exec, on_error, setLife, settle, bind, getChild. rewrite Hc.
  cbn; rewrite Hc;
    unfold settleWith; destruct (settled c) eqn:Es; cbn;
    rewrite ?(@nth_error_replace_same _ i _ c (children w) Hc), ?Hc; cbn;
    rewrite ?replace_nth_twice, ?Es, <- ?app_assoc; reflexivity.
Qed.

End ListenerFacts.

(** ** The progress parser and the throttle *)

Module ProgressParser.
Import ListenerFacts.

Lemma exec_bind (A : Type) (m : M A) (k : A -> M unit) (w : World) :
  exec (bind m k) w = exec (k (fst (m w))) (snd (m w)).
Proof. unfold exec, bind. now destruct (m w). Qed.

Lemma feed_cons (i : nat) (ch : string) (r : list string) (w : World) :
  exec (feed i (ch :: r)) w = exec (feed i r) (exec (on_data i ch) w).
Proof. unfold feed. simpl. now rewrite exec_bind. Qed.

Lemma falsy_not_positive (x : number) : falsy x = true -> gtb x zero = false.
Proof. destruct x as [[]|[]| |[] m e]; simpl; intros H; try discriminate; reflexivity. Qed.

Lemma positive_not_falsy (x : number) : gtb x zero = true -> falsy x = false.
Proof. destruct x as [[]|[]| |[] m e]; simpl; intros H; try discriminate; reflexivity. Qed.

Lemma capture_known (c : Child) (output : string) :
  falsy (duration c) = false -> capture c output = (c, []).
Proof. unfold capture. now intros ->. Qed.

Lemma forwarded_unknown (c : Child) (output : string) :
  falsy (duration c) = true -> forwarded c output = None.
Proof.
  intros H. unfold forwarded, percentage.
  destruct (timeMatch output); [|reflexivity]. now rewrite falsy_not_positive.
Qed.

(** The child after one chunk. *)
Lemma on_data_child (w : World) (i : nat) (c : Child) (output : string) :
  nth_error (children w) i = Some c ->
  nth_error (children (exec (on_data i output) w)) i =
  Some (match forwarded (fst (capture c output)) output with
        | Some progress => withProgress (fst (capture c output)) progress
        | None => fst (capture c output)
        end).
Proof.
  intros Hc. rewrite (@on_data_eq w i c output Hc).
  destruct (capture c output) as [c1 logs]. simpl.
  destruct (forwarded c1 output); simpl; eapply nth_error_replace_same; eassumption.
Qed.

(** A duration that is known stays. *)
Lemma feed_keeps_duration (i : nat) (chunks : list string) (w : World) (c : Child) :
  nth_error (children w) i = Some c -> falsy (duration c) = false ->
  durationOf (exec (feed i chunks) w) i = Some (duration c).
Proof.
  revert w c. induction chunks as [|ch r IH]; intros w c Hc Hd.
  - unfold durationOf, feed, exec. simpl. now rewrite Hc.
  - rewrite feed_cons.
    pose proof (@on_data_child w i c ch Hc) as Hc'.
    rewrite (@capture_known c ch Hd) in Hc'. simpl in Hc'.
    destruct (forwarded c ch) as [p|].
    + rewrite (IH _ _ Hc'); [reflexivity | exact Hd].
    + now rewrite (IH _ _ Hc').
Qed.

(** While no chunk brings a non-zero duration, the chunks change nothing
    but the (still zero) duration, and print at most the duration line. *)
Lemma feed_unknown (i : nat) (chunks : list string) (w : World) (c : Child) :
  nth_error (children w) i = Some c -> falsy (duration c) = true ->
  (forall ch d, In ch chunks -> durationMatch ch = Some d -> falsy d = true) ->
  exists c',
    nth_error (children (exec (feed i chunks) w)) i = Some c' /\
    falsy (duration c') = true /\
    lastProgress c' = lastProgress c /\
    STATUS (exec (feed i chunks) w) = STATUS w /\
    filter isRender (out (exec (feed i chunks) w)) = filter isRender (out w).
Proof.
  revert w c. induction chunks as [|ch r IH]; intros w c Hc Hd Hall.
  - exists c. unfold feed, exec. simpl. auto.
  - rewrite feed_cons.
    pose proof (@on_data_child w i c ch Hc) as Hc'.
    pose proof (@on_data_eq w i c ch Hc) as Heq.
    assert (Hcap : falsy (duration (fst (capture c ch))) = true /\
                   lastProgress (fst (capture c ch)) = lastProgress c /\
                   filter isRender (snd (capture c ch)) = []).
    { unfold capture. rewrite Hd.
      destruct (durationMatch ch) as [d|] eqn:E; simpl; [|auto].
      split; [|auto]. apply (Hall ch d); [now left | assumption]. }
    destruct Hcap as (Hf & Hl & Hr).
    destruct (capture c ch) as [c1 logs]. simpl in *.
    rewrite (@forwarded_unknown c1 ch Hf) in Hc', Heq.
    destruct (IH _ _ Hc' Hf) as (c' & H1 & H2 & H3 & H4 & H5).
    { intros ch' d Hin. apply Hall. now right. }
    exists c'. rewrite H1, H2, H3, H4, H5, Heq. simpl.
    rewrite filter_app, Hr, app_nil_r. auto.
Qed.

Lemma round_tenths_nearest (m : positive) (e : Z) :
  nearestTenth (S754_finite false m e) (round_tenths (Zpos m) e).
Proof.
  unfold nearestTenth, round_tenths.
  destruct (0 <=? e)%Z eqn:E; [reflexivity|].
  apply Z.leb_gt in E.
  replace (1 - e)%Z with (Z.succ (- e)) by lia.
  rewrite Z.pow_succ_r by lia.
  set (d := (2 ^ (- e))%Z).
  assert (Hd : (0 < d)%Z) by (apply Z.pow_pos_nonneg; lia).
  pose proof (Z.div_mod (20 * Zpos m + d) (2 * d) ltac:(lia)) as Hdm.
  pose proof (Z.mod_pos_bound (20 * Zpos m + d) (2 * d) ltac:(lia)) as Hb.
  nia.
Qed.

Lemma toFixed1_nearest (x : number) (n : Z) :
  toFixed1 x = Tenths n -> nearestTenth x n.
Proof.
  unfold toFixed1. destruct x as [s|s| |s m e].
  - intros H. inversion H. reflexivity.
  - intros H; discriminate H.
  - intros H; discriminate H.
  - destruct (leb (of_Z (10 ^ 21)) (abs (S754_finite s m e))).
    + intros H; discriminate H.
    + pose proof (round_tenths_nearest m e) as Hr.
      destruct s; intros H; inversion H; unfold nearestTenth in *.
      * now rewrite Z.opp_involutive.
      * exact Hr.
Qed.

(** A value equal to the one recorded last never passes the throttle. *)
Lemma same_value_blocked (x : number) :
  geb (abs (sub x x)) (of_decimal 1 (-1)) = false.
Proof.
  destruct x as [s|s| |s m e].
  - destruct s; vm_compute; reflexivity.
  - destruct s; vm_compute; reflexivity.
  - vm_compute; reflexivity.
  - unfold sub, SFsub. rewrite Z.sub_diag. vm_compute. reflexivity.
Qed.

Example duration_marker :
  durationMatch "  Duration: 00:16:40.00, start: 0.000000, bitrate: 1 kb/s" = Some (of_Z 1000).
Proof. vm_compute. reflexivity. Qed.

Example time_marker :
  timeMatch "frame=  10 fps=0.0 q=28.0 size=1kB time=00:00:05.25 bitrate=1kbits/s"
  = Some (of_decimal 525 (-2)).
Proof. vm_compute. reflexivity. Qed.

(** C3: a defect of the code.  The listener is meant to get the
    duration once (its comment says so), but it uses the number 0 both for
    "not yet known" and as a value.  A first marker
    "Duration: 00:00:00.00" is read and printed, and then not kept; the
    marker of the next chunk is read and printed as well, and it is the
    one that the percentages are computed with.  So the duration is not
    taken from the first occurrence only, and a later marker is not
    ignored. *)
Lemma C3_zero_marker_not_kept :
  durationMatch "Duration: 00:00:00.00, start: 0.0" = Some zero /\
  durationMatch "Duration: 00:00:10.00, start: 0.0" = Some (of_Z 10) /\
  durationOf freshWorld 0 = Some zero /\
  durationOf (exec (feed 0 ["Duration: 00:00:00.00, start: 0.0";
                            "Duration: 00:00:10.00, start: 0.0";
                            "time=00:00:05.00"]) freshWorld) 0 = Some (of_Z 10) /\
  inProgress (STATUS (exec (feed 0 ["Duration: 00:00:00.00, start: 0.0";
                                    "Duration: 00:00:10.00, start: 0.0";
                                    "time=00:00:05.00"]) freshWorld))
  = [("movie.mp4", PStr (Tenths 500))] /\
  out (exec (feed 0 ["Duration: 00:00:00.00, start: 0.0";
                     "Duration: 00:00:10.00, start: 0.0";
                     "time=00:00:05.00"]) freshWorld)
  = out freshWorld
    ++ [Log (MsgDuration zero); Log (MsgDuration (of_Z 10));
        Render (snapshot (shownStatus (STATUS freshWorld) "movie.mp4"
                                      (PStr (Tenths 500))))].
Proof. repeat split; vm_compute; reflexivity. Qed.

(** What the listener does on every stream, the defect above included:
    the duration is taken from the first chunk whose "Duration:" marker
    has a non-zero value, and is kept from then on, whatever markers
    follow; before that nothing is forwarded, and when no chunk has a
    duration marker the stream changes nothing at all; once the duration
    is positive, a chunk with a "time=" marker gives the percentage
    100 * position / duration computed in doubles and rounded to the
    nearest tenth, which is stored and rendered when it passes the
    throttle and dropped otherwise. *)
Theorem C3_progress_parser (w : World) (i : nat) (c : Child) :
  nth_error (children w) i = Some c ->
  (falsy (duration c) = true ->
     forall chunks,
       (forall ch, In ch chunks -> durationMatch ch = None) ->
       exec (feed i chunks) w = w)
  /\
  (falsy (duration c) = true ->
     forall pre mark post d,
       (forall ch d0, In ch pre -> durationMatch ch = Some d0 -> falsy d0 = true) ->
       durationMatch mark = Some d -> falsy d = false ->
       durationOf (exec (feed i (pre ++ mark :: post)) w) i = Some d
       /\ STATUS (exec (feed i pre) w) = STATUS w
       /\ filter isRender (out (exec (feed i pre) w)) = filter isRender (out w))
  /\
  (gtb (duration c) zero = true ->
     forall post, durationOf (exec (feed i post) w) i = Some (duration c))
  /\
  (gtb (duration c) zero = true ->
     forall chunk t,
       timeMatch chunk = Some t ->
       percentage c chunk = Some (toFixed1 (mul (div t (duration c)) (of_Z 100)))
       /\ (forall n, toFixed1 (mul (div t (duration c)) (of_Z 100)) = Tenths n ->
             nearestTenth (mul (div t (duration c)) (of_Z 100)) n)
       /\ (passes c (toFixed1 (mul (div t (duration c)) (of_Z 100))) = true ->
             inProgress (STATUS (exec (on_data i chunk) w))
             = JSMap.set (filename c)
                         (PStr (toFixed1 (mul (div t (duration c)) (of_Z 100))))
                         (inProgress (STATUS w))
             /\ List.length (filter isRender (out (exec (on_data i chunk) w)))
                = S (List.length (filter isRender (out w))))
       /\ (passes c (toFixed1 (mul (div t (duration c)) (of_Z 100))) = false ->
             STATUS (exec (on_data i chunk) w) = STATUS w
             /\ out (exec (on_data i chunk) w) = out w)).
Proof.
  intros Hc. split; [|split; [|split]].
  - intros Hd chunks. revert w Hc.
    induction chunks as [|ch r IH]; intros w Hc Hnone; [reflexivity|].
    rewrite feed_cons.
    assert (Hstep : exec (on_data i ch) w = w).
    { rewrite (@on_data_eq w i c ch Hc). unfold capture.
      rewrite Hd, (Hnone ch (or_introl eq_refl)), (@forwarded_unknown c ch Hd).
      rewrite app_nil_r, (replace_nth_id _ _ Hc). apply world_eta. }
    rewrite Hstep. apply IH; [assumption|]. intros ch' Hin. apply Hnone. now right.
  - intros Hd pre mark post d Hpre Hmark Hdnz.
    destruct (@feed_unknown i pre w c Hc Hd Hpre) as (c' & Hc' & Hd' & _ & Hst & Hout).
    split; [|split; assumption].
    assert (Happ : forall l1 l2 w0,
               exec (feed i (l1 ++ l2)) w0 = exec (feed i l2) (exec (feed i l1) w0)).
    { induction l1 as [|x l1 IH]; intros l2 w0; [reflexivity|].
      simpl app. now rewrite !feed_cons, IH. }
    rewrite Happ, feed_cons.
    set (w1 := exec (feed i pre) w) in *.
    pose proof (@on_data_child w1 i c' mark Hc') as Hc2.
    assert (Hcap : capture c' mark =
                   ({| filename := filename c'; duration := d;
                       lastProgress := lastProgress c';
                       settled := settled c'; life := life c' |},
                    [Log (MsgDuration d)])).
    { unfold capture. now rewrite Hd', Hmark. }
    rewrite Hcap in Hc2. simpl fst in Hc2.
    match type of Hc2 with _ = Some ?x => set (c2 := x) in * end.
    assert (Hdur : duration c2 = d) by (unfold c2; destruct (forwarded _ mark); reflexivity).
    rewrite (@feed_keeps_duration i post _ c2 Hc2); [now rewrite Hdur|].
    now rewrite Hdur.
  - intros Hpos post. apply feed_keeps_duration; [assumption|].
    now apply positive_not_falsy.
  - intros Hpos chunk t Ht.
    pose proof (positive_not_falsy _ Hpos) as Hnf.
    set (p := toFixed1 (mul (div t (duration c)) (of_Z 100))).
    assert (Hperc : percentage c chunk = Some p).
    { unfold percentage. now rewrite Ht, Hpos. }
    split; [exact Hperc|]. split; [intros n; apply toFixed1_nearest|].
    pose proof (@on_data_eq w i c chunk Hc) as Heq.
    rewrite (@capture_known c chunk Hnf) in Heq. unfold forwarded in Heq.
    rewrite Hperc in Heq.
    split; intros Hpass; rewrite Hpass in Heq; rewrite Heq; simpl.
    + split; [reflexivity|].
      rewrite filter_app, length_app. simpl. lia.
    + now rewrite app_nil_r.
Qed.

Lemma C3_progress_parser_witness :
  exec (feed 0 ["ffmpeg version 6.0"; "Input #0, matroska, from 'in/movie.mp4':"]) freshWorld
  = freshWorld
  /\ durationOf (exec (feed 0 (["Duration: 00:00:00.00"] ++ "Duration: 00:00:10.00"
                                 :: ["Duration: 00:00:20.00"; "time=00:00:05.00"]))
                      freshWorld) 0 = Some (of_Z 10)
  /\ percentage {| filename := "movie.mp4"; duration := of_Z 10; lastProgress := zero;
                   settled := Pending; life := Alive |} "time=00:00:05.00"
     = Some (Tenths 500).
Proof.
  assert (Hc : nth_error (children freshWorld) 0 =
               Some {| filename := "movie.mp4"; duration := zero; lastProgress := zero;
                       settled := Pending; life := Alive |}) by reflexivity.
  destruct (C3_progress_parser freshWorld 0 Hc) as (H1 & H2 & _ & _).
  split; [|split].
  - apply H1; [reflexivity|].
    intros ch [<-|[<-|[]]]; vm_compute; reflexivity.
  - refine (proj1 (H2 eq_refl ["Duration: 00:00:00.00"] "Duration: 00:00:10.00"
                      ["Duration: 00:00:20.00"; "time=00:00:05.00"] (of_Z 10) _ _ _)).
    + intros ch d0 [<-|[]] Hd0. vm_compute in Hd0. inversion Hd0. reflexivity.
    + vm_compute. reflexivity.
    + reflexivity.
  - assert (Hk : nth_error [{| filename := "movie.mp4"; duration := of_Z 10;
                               lastProgress := zero; settled := Pending; life := Alive |}] 0
                 = Some {| filename := "movie.mp4"; duration := of_Z 10;
                           lastProgress := zero; settled := Pending; life := Alive |})
      by reflexivity.
    destruct (C3_progress_parser
                {| STATUS := freshStatus 1;
                   children := [{| filename := "movie.mp4"; duration := of_Z 10;
                                   lastProgress := zero; settled := Pending; life := Alive |}];
                   out := [] |} 0 Hk) as (_ & _ & _ & H4).
    destruct (H4 eq_refl "time=00:00:05.00" (of_Z 5) eq_refl) as (Hp & _).
    exact Hp.
Defined.

(** C6 at the failing input.  With a duration of 1000 s the positions 2 s
    and 3 s give the values 0.2 and 0.3.  After 0.2 has been recorded, 0.3
    is computed but neither stored nor rendered, although it differs from
    0.2 by a tenth: in doubles 0.3 - 0.2 is below 0.1.  The next value,
    0.4, is stored. *)
Theorem C6_tenth_step_dropped :
  statusAfter [Data 0 "Duration: 00:16:40.00"; Data 0 "time=00:00:02.00"]
  = Some {| total := 1; completed := 0;
            inProgress := [("movie.mp4", PStr (Tenths 2))]; results := [] |}
  /\ option_map (fun c => (lastProgress c, percentage c "time=00:00:03.00",
                           passes c (Tenths 3)))
                (childAfter [Data 0 "Duration: 00:16:40.00"; Data 0 "time=00:00:02.00"] 0)
     = Some (of_decimal 2 (-1), Some (Tenths 3), false)
  /\ statusAfter [Data 0 "Duration: 00:16:40.00"; Data 0 "time=00:00:02.00";
                  Data 0 "time=00:00:03.00"]
     = Some {| total := 1; completed := 0;
               inProgress := [("movie.mp4", PStr (Tenths 2))]; results := [] |}
  /\ rendersAfter [Data 0 "Duration: 00:16:40.00"; Data 0 "time=00:00:02.00";
                   Data 0 "time=00:00:03.00"]
     = rendersAfter [Data 0 "Duration: 00:16:40.00"; Data 0 "time=00:00:02.00"]
  /\ statusAfter [Data 0 "Duration: 00:16:40.00"; Data 0 "time=00:00:02.00";
                  Data 0 "time=00:00:03.00"; Data 0 "time=00:00:04.00"]
     = Some {| total := 1; completed := 0;
               inProgress := [("movie.mp4", PStr (Tenths 4))]; results := [] |}.
Proof. repeat split; vm_compute; reflexivity. Qed.

(** The part of C6 that holds: the listener stores and renders a value
    exactly when the test on doubles passes, and a value equal to the one
    recorded last never passes. *)
Lemma throttle_decides (w : World) (i : nat) (c : Child) (chunk : string) (p : fixed1) :
  nth_error (children w) i = Some c -> falsy (duration c) = false ->
  percentage c chunk = Some p ->
  (passes c p = true ->
     inProgress (STATUS (exec (on_data i chunk) w))
     = JSMap.set (filename c) (PStr p) (inProgress (STATUS w))
     /\ nth_error (children (exec (on_data i chunk) w)) i = Some (withProgress c p))
  /\ (passes c p = false -> exec (on_data i chunk) w = w).
Proof.
  intros Hc Hnf Hp.
  pose proof (@on_data_eq w i c chunk Hc) as Heq.
  pose proof (@on_data_child w i c chunk Hc) as Hchild.
  rewrite (@capture_known c chunk Hnf) in Heq, Hchild. unfold forwarded in *.
  simpl fst in Hchild. rewrite Hp in Heq, Hchild.
  split; intros Hpass; rewrite Hpass in Heq, Hchild.
  - split; [now rewrite Heq | exact Hchild].
  - rewrite Heq, app_nil_r, (replace_nth_id _ _ Hc). apply world_eta.
Qed.

Lemma throttle_blocks_repeat (c : Child) (p : fixed1) :
  lastProgress c = fixed1_to_number p -> passes c p = false.
Proof. intros H. unfold passes. rewrite H. apply same_value_blocked. Qed.

End ProgressParser.

(** ** The tracker *)

Module ProgressTracker.
Import JSMap JSMapFacts ListenerFacts.

(** Each of the two listeners, taken alone, removes the item from the
    in-flight map, counts it once and records its flag. *)
Lemma close_counts_once (w : World) (i : nat) (c : Child) (code : option Z) :
  nth_error (children w) i = Some c ->
  completed (STATUS (exec (bind (on_close i code) (fun _ => setLife i Closed)) w))
  = S (completed (STATUS w))
  /\ get (filename c)
         (inProgress (STATUS (exec (bind (on_close i code) (fun _ => setLife i Closed)) w)))
     = None
  /\ get (filename c)
         (results (STATUS (exec (bind (on_close i code) (fun _ => setLife i Closed)) w)))
     = Some (exitOk code).
Proof.
  intros Hc. rewrite (@on_close_eq w i c code Hc). simpl.
  split; [reflexivity|]. split; [apply get_delete_same | apply get_set_same].
Qed.

Lemma error_counts_once (w : World) (i : nat) (c : Child) (err : string) :
  nth_error (children w) i = Some c ->
  completed (STATUS (exec (bind (on_error i err) (fun _ => setLife i Errored)) w))
  = S (completed (STATUS w))
  /\ get (filename c)
         (inProgress (STATUS (exec (bind (on_error i err) (fun _ => setLife i Errored)) w)))
     = None
  /\ get (filename c)
         (results (STATUS (exec (bind (on_error i err) (fun _ => setLife i Errored)) w)))
     = Some false.
Proof.
  intros Hc. rewrite (@on_error_eq w i c err Hc). simpl.
  split; [reflexivity|]. split; [apply get_delete_same | apply get_set_same].
Qed.

(** One after the other on the same child, they count it twice. *)
Lemma error_then_close_counts_twice
    (w : World) (i : nat) (c : Child) (err : string) (code : option Z) :
  nth_error (children w) i = Some c ->
  completed
    (STATUS (exec (bind (on_close i code) (fun _ => setLife i Closed))
                  (exec (bind (on_error i err) (fun _ => setLife i Errored)) w)))
  = S (S (completed (STATUS w))).
Proof.
  intros Hc.
  set (w1 := exec (bind (on_error i err) (fun _ => setLife i Errored)) w).
  assert (Hc1 : exists c1, nth_error (children w1) i = Some c1).
  { unfold w1. rewrite (@on_error_eq w i c err Hc). simpl.
    eexists. eapply nth_error_replace_same. exact Hc. }
  destruct Hc1 as [c1 Hc1].
  destruct (@close_counts_once w1 i c1 code Hc1) as [H1 _].
  destruct (@error_counts_once w i c err Hc) as [H2 _].
  fold w1 in H2. now rewrite H1, H2.
Qed.

Lemma results_untouched (f : string) (ops : list trackerOp) (st : Status) :
  lastFlag f ops = None ->
  get f (results (fold_left applyOp ops st)) = get f (results st).
Proof.
  revert st. induction ops as [|op r IH]; intros st H; simpl in *; [reflexivity|].
  destruct (lastFlag f r) eqn:E; [discriminate|].
  rewrite IH by reflexivity.
  destruct op as [g|g p|g ok]; simpl; try reflexivity.
  destruct (String.eqb g f) eqn:Eg; [discriminate|].
  apply get_set_other. now apply String.eqb_neq.
Qed.

(** The invariant of the tracker over any sequence of its operations:
    [completed] counts the [Finish] operations, and an item that was
    finished has one entry in [results], with the flag of its last
    [Finish]. *)
Lemma tracker_invariant (ops : list trackerOp) (st : Status) :
  NoDup (keys (results st)) ->
  completed (fold_left applyOp ops st)
  = completed st + List.length (filter isFinish ops)
  /\ NoDup (keys (results (fold_left applyOp ops st)))
  /\ (forall f b, lastFlag f ops = Some b ->
        get f (results (fold_left applyOp ops st)) = Some b
        /\ count f (results (fold_left applyOp ops st)) = 1).
Proof.
  revert st. induction ops as [|op r IH]; intros st Hnd.
  - simpl. split; [lia|]. split; [assumption|]. intros f b H. discriminate.
  - assert (Hnd1 : NoDup (keys (results (applyOp st op)))).
    { destruct op; simpl; auto using NoDup_keys_set. }
    destruct (IH _ Hnd1) as (Hc & Hn & Hf). simpl fold_left.
    split; [|split; [assumption|]].
    + rewrite Hc. destruct op; simpl; lia.
    + intros f b Hlast. simpl in Hlast.
      destruct (lastFlag f r) as [b'|] eqn:E.
      * inversion Hlast; subst. now apply Hf.
      * destruct op as [g|g p|g ok]; try discriminate.
        destruct (String.eqb g f) eqn:Eg; [|discriminate].
        apply String.eqb_eq in Eg. inversion Hlast; subst.
        assert (Hget : get f (results (fold_left applyOp r (applyOp st (Finish f b))))
                       = Some b).
        { rewrite results_untouched by assumption. simpl. apply get_set_same. }
        split; [exact Hget|]. eapply count_get; eassumption.
Qed.

(** C2 at the failing input.  When ffmpeg cannot be spawned, Node emits
    'error' and then 'close' on the child; both listeners run, and the one
    item of the run is counted twice. *)
Theorem C2_spawn_failure_counted_twice :
  statusAfter []
  = Some {| total := 1; completed := 0;
            inProgress := [("movie.mp4", PNum zero)]; results := [] |}
  /\ statusAfter [Error 0 "spawn ffmpeg ENOENT"; Close 0 (Some (-2)%Z)]
     = Some {| total := 1; completed := 2;
               inProgress := []; results := [("movie.mp4", false)] |}
  /\ option_map stage
       (runFrom oneMovie [Error 0 "spawn ffmpeg ENOENT"; Close 0 (Some (-2)%Z); Resume])
     = Some Finished
  /\ statusAfter [Close 0 (Some 1%Z)]
     = Some {| total := 1; completed := 1;
               inProgress := []; results := [("movie.mp4", false)] |}.
Proof. repeat split; vm_compute; reflexivity. Qed.

End ProgressTracker.

(** ** The batch loop *)

Module Orchestrator.
Import JSMap JSMapFacts ListenerFacts.

(** *** Computations that only print *)

Lemma quiet_ret (A : Type) (a : A) : quiet (ret a).
Proof. intros w. simpl. auto. Qed.

Lemma quiet_emit (e : effect) : isSpawn e = false -> quiet (emit e).
Proof.
  intros He w. simpl. repeat split. rewrite filter_app. simpl. rewrite He.
  apply app_nil_r.
Qed.

Lemma quiet_getStatus : quiet getStatus.
Proof. intros w. simpl. auto. Qed.

Lemma quiet_bind (A B : Type) (m : M A) (k : A -> M B) :
  quiet m -> (forall a, quiet (k a)) -> quiet (bind m k).
Proof.
  intros Hm Hk w. unfold bind. destruct (m w) as [a w1] eqn:E.
  destruct (Hm w) as (H1 & H2 & H3). rewrite E in H1, H2, H3. simpl in *.
  destruct (Hk a w1) as (K1 & K2 & K3). repeat split; congruence.
Qed.

Lemma quiet_when (b : bool) (m : M unit) : quiet m -> quiet (when b m).
Proof. destruct b; simpl; auto using quiet_ret. Qed.

Lemma quiet_reportFailed (l : list BatchResult) (index : nat) : quiet (reportFailed index l).
Proof.
  revert index. induction l as [|item r IH]; intros index; simpl.
  - apply quiet_ret.
  - apply quiet_bind; [now apply quiet_emit|]. intros _.
    apply quiet_bind; [|intros _; apply IH].
    destruct (failure item); [now apply quiet_emit | apply quiet_ret].
Qed.

Create HintDb quiet.
#[local] Hint Resolve quiet_ret quiet_getStatus quiet_when quiet_reportFailed : quiet.

Ltac quiet_steps :=
  repeat first
    [ apply quiet_bind; [|intros ?]
    | apply quiet_emit; reflexivity
    | apply quiet_when
    | solve [auto with quiet] ].

(** *** Starting and finishing a batch *)

Lemma processVideo_eq (v s o : string) (w : World) :
  exec (processVideo v s o) w =
  let st := shownStatus (STATUS w) (Path.basename v) (PNum zero) in
  {| STATUS := st;
     children := children w ++ [freshChild {| video := v; subtitle := s |}];
     out := out w ++ [Render (snapshot st);
                      Log (MsgStart (Path.basename v));
                      Log (MsgCommand (JSString.join " " ("ffmpeg" :: ffmpegArgs v s o)));
                      Spawn "ffmpeg" (ffmpegArgs v s o)] |}.
Proof.
  unfold exec, processVideo, bind, inProgress_set, printProgress, modifyStatus,
    getStatus, emit, addChild, bind. cbn -[ffmpegArgs JSString.join snapshot].
  rewrite <- !app_assoc. reflexivity.
Qed.

Lemma processBatch_spec (outDir : string) (l : list MatchedPair) (w : World) :
  let w' := exec (forEach l (fun m => processVideo (video m) (subtitle m)
                                                   (outputFile outDir m))) w in
  children w' = children w ++ map freshChild l
  /\ results (STATUS w') = results (STATUS w)
  /\ completed (STATUS w') = completed (STATUS w)
  /\ total (STATUS w') = total (STATUS w)
  /\ List.length (filter isSpawn (out w'))
     = List.length (filter isSpawn (out w)) + List.length l.
Proof.
  revert w. induction l as [|m r IH]; intros w; simpl forEach.
  - unfold exec. simpl. rewrite app_nil_r. repeat split; lia.
  - cbv zeta. rewrite ProgressParser.exec_bind.
    fold (exec (processVideo (video m) (subtitle m) (outputFile outDir m)) w).
    rewrite processVideo_eq. cbv zeta.
    match goal with |- context [exec _ ?w1] => destruct (IH w1) as (H1 & H2 & H3 & H4 & H5) end.
    rewrite H1, H2, H3, H4, H5. simpl.
    rewrite <- app_assoc. destruct m. simpl.
    rewrite filter_app, length_app. simpl. repeat split; lia.
Qed.

Lemma length_slice (A : Type) (a b : nat) (l : list A) :
  List.length (slice a b l) = Nat.min (b - a) (List.length l - a).
Proof. unfold slice. now rewrite length_firstn, length_skipn. Qed.

Lemma startBatch_spec (o : Orch) :
  matches (startBatch o) = matches o
  /\ currentIndex (startBatch o) = currentIndex o
  /\ stage (startBatch o) = Running
  /\ children (world (startBatch o))
     = children (world o)
       ++ map freshChild (slice (currentIndex o) (currentIndex o + BATCH_SIZE) (matches o))
  /\ results (STATUS (world (startBatch o))) = results (STATUS (world o))
  /\ spawnCount (startBatch o)
     = spawnCount o
       + List.length (slice (currentIndex o) (currentIndex o + BATCH_SIZE) (matches o)).
Proof.
  unfold startBatch, spawnCount. cbn [matches currentIndex stage world].
  rewrite ProgressParser.exec_bind. unfold processBatch.
  match goal with |- context [exec (forEach ?l ?f) ?w1] =>
    destruct (@processBatch_spec (outputDir o) l w1) as (H1 & H2 & H3 & H4 & H5)
  end.
  cbv zeta in *. rewrite H1, H2, H5. simpl.
  rewrite filter_app. simpl. rewrite app_nil_r. repeat split; reflexivity.
Qed.

Lemma afterBatch_spec (o : Orch) :
  matches (afterBatch o) = matches o
  /\ currentIndex (afterBatch o) = currentIndex o + BATCH_SIZE
  /\ stage (afterBatch o)
     = (if currentIndex o + BATCH_SIZE <? List.length (matches o) then Waiting else Finished)
  /\ children (world (afterBatch o)) = children (world o)
  /\ STATUS (world (afterBatch o)) = STATUS (world o)
  /\ spawnCount (afterBatch o) = spawnCount o.
Proof.
  unfold afterBatch, spawnCount. cbv zeta.
  destruct (currentIndex o + BATCH_SIZE <? List.length (matches o));
    cbn [matches currentIndex stage world];
    match goal with |- context [exec ?m ?w] =>
      assert (Hq : quiet m) by quiet_steps;
      destruct (Hq w) as (H1 & H2 & H3)
    end; unfold exec; rewrite H1, H2, H3; repeat split; reflexivity.
Qed.

(** *** What the listeners do to the children *)

Lemma on_data_summary (w : World) (i : nat) (c : Child) (output : string) :
  nth_error (children w) i = Some c ->
  exists c',
    children (exec (on_data i output) w) = replace_nth i c' (children w)
    /\ settled c' = settled c
    /\ results (STATUS (exec (on_data i output) w)) = results (STATUS w)
    /\ completed (STATUS (exec (on_data i output) w)) = completed (STATUS w)
    /\ filter isSpawn (out (exec (on_data i output) w)) = filter isSpawn (out w).
Proof.
  intros Hc. rewrite (@on_data_eq w i c output Hc).
  assert (Hcap : settled (fst (capture c output)) = settled c
                 /\ filter isSpawn (snd (capture c output)) = []).
  { unfold capture. destruct (falsy (duration c)); [|auto].
    destruct (durationMatch output); auto. }
  destruct (capture c output) as [c1 logs]. simpl in Hcap. destruct Hcap as [Hs Hl].
  destruct (forwarded c1 output) as [p|].
  - exists (withProgress c1 p). simpl. repeat split; try assumption.
    rewrite !filter_app, Hl. simpl. now rewrite app_nil_r.
  - exists c1. simpl. repeat split; try assumption.
    rewrite filter_app, Hl. now rewrite app_nil_r.
Qed.

Lemma settleWith_monotone (c : Child) (p : promise) (l : lifecycle) :
  isSettled c = true -> isSettled (settleWith c p l) = true.
Proof. unfold isSettled, settleWith. simpl. now destruct (settled c). Qed.

Lemma settleWith_settles (c : Child) (p : promise) (l : lifecycle) :
  p <> Pending -> isSettled (settleWith c p l) = true.
Proof.
  unfold isSettled, settleWith. simpl. intros Hp.
  destruct (settled c); [destruct p; congruence | reflexivity | reflexivity].
Qed.

Lemma lifeOf_child (o : Orch) (i : nat) (l : lifecycle) :
  lifeOf o i = Some l -> exists c, nth_error (children (world o)) i = Some c /\ life c = l.
Proof.
  unfold lifeOf. destruct (nth_error (children (world o)) i) as [c|]; [|discriminate].
  simpl. intros H. exists c. split; congruence.
Qed.

(** *** The invariant *)

Lemma inv_child_update (o : Orch) (i : nat) (c c' : Child) (w' : World) :
  BatchInv o ->
  nth_error (children (world o)) i = Some c ->
  (isSettled c = true -> isSettled c' = true) ->
  children w' = replace_nth i c' (children (world o)) ->
  NoDup (keys (results (STATUS w'))) ->
  filter isSpawn (out w') = filter isSpawn (out (world o)) ->
  BatchInv {| matches := matches o; outputDir := outputDir o;
              currentIndex := currentIndex o; stage := stage o; world := w' |}.
Proof.
  intros [Hi Hst Hsp Hse Hsn Hre] Hc Hmono Hch Hnd Hout.
  assert (Hlen : List.length (children w') = List.length (children (world o))).
  { rewrite Hch. apply length_replace_nth. }
  constructor; unfold spawned, spawnCount in *; simpl; try assumption.
  - now rewrite Hlen.
  - intros j x Hj Hlt. rewrite Hch in Hj.
    destruct (Nat.eq_dec i j) as [->|Hne].
    + rewrite (@nth_error_replace_same _ j c' c _ Hc) in Hj. inversion Hj; subst.
      apply Hmono. now apply (Hse j).
    + rewrite nth_error_replace_other in Hj by assumption. now apply (Hse j).
  - now rewrite Hout, Hlen.
Qed.

Lemma batch_settled (o : Orch) :
  BatchInv o -> stage o = Running ->
  forallb isSettled
    (slice (currentIndex o) (currentIndex o + BATCH_SIZE) (children (world o))) = true ->
  forallb isSettled (children (world o)) = true.
Proof.
  intros [Hi Hst Hsp Hse Hsn Hre] Es Hall. rewrite Es in Hsp. unfold spawned in Hsp.
  apply forallb_forall. intros c Hin.
  apply In_nth_error in Hin. destruct Hin as [j Hj].
  destruct (Nat.lt_ge_cases j (currentIndex o)) as [Hlt|Hge]; [now apply (Hse j)|].
  assert (Hlen : j < List.length (children (world o))).
  { apply nth_error_Some. congruence. }
  apply (proj1 (forallb_forall _ _) Hall).
  apply (@nth_error_In _ _ (j - currentIndex o)).
  unfold slice. rewrite nth_error_firstn, nth_error_skipn.
  replace (currentIndex o + (j - currentIndex o)) with j by lia.
  destruct (Nat.ltb_spec (j - currentIndex o) (currentIndex o + BATCH_SIZE - currentIndex o));
    [assumption | lia].
Qed.

Lemma react_inv (e : event) (o o' : Orch) :
  BatchInv o -> react e o = Some o' -> BatchInv o' /\ matches o' = matches o.
Proof.
  intros Hinv Hr. destruct e as [i chunk|i code|i err| |]; simpl in Hr.
  - destruct (lifeOf o i) as [[]|] eqn:El; try discriminate.
    apply lifeOf_child in El. destruct El as (c & Hc & _).
    inversion Hr; subst o'. split; [|reflexivity]. unfold inWorld.
    destruct (@on_data_summary (world o) i c chunk Hc) as (c' & H1 & H2 & H3 & _ & H5).
    apply (@inv_child_update o i c c'); auto.
    + unfold isSettled. now rewrite H2.
    + rewrite H3. apply Hinv.
  - assert (Hex : exists c, nth_error (children (world o)) i = Some c).
    { destruct (lifeOf o i) as [l|] eqn:El; [|discriminate].
      apply lifeOf_child in El. destruct El as (c & Hc & _). now exists c. }
    destruct Hex as (c & Hc).
    assert (Ho' : o' = inWorld o (bind (on_close i code) (fun _ => setLife i Closed))).
    { destruct (lifeOf o i) as [[]|]; congruence. }
    subst o'. split; [|reflexivity]. unfold inWorld.
    rewrite (@on_close_eq (world o) i c code Hc). cbv zeta.
    apply (@inv_child_update o i c
             (settleWith c (if exitOk code then Resolved
                            else Rejected (ProcessFailed (filename c))) Closed));
      simpl; auto.
    + apply settleWith_monotone.
    + apply NoDup_keys_set, Hinv.
    + rewrite filter_app. simpl. apply app_nil_r.
  - destruct (lifeOf o i) as [[]|] eqn:El; try discriminate.
    apply lifeOf_child in El. destruct El as (c & Hc & _).
    inversion Hr; subst o'. split; [|reflexivity]. unfold inWorld.
    rewrite (@on_error_eq (world o) i c err Hc). cbv zeta.
    apply (@inv_child_update o i c (settleWith c (Rejected (FFmpegError err)) Errored));
      simpl; auto.
    + apply settleWith_monotone.
    + apply NoDup_keys_set, Hinv.
    + rewrite filter_app. simpl. apply app_nil_r.
  - destruct (stage o) eqn:Es; try discriminate. inversion Hr; subst o'.
    destruct Hinv as [Hi Hst Hsp Hse Hsn Hre]. rewrite Es in Hst, Hsp.
    destruct (startBatch_spec o) as (S1 & S2 & S3 & S4 & S5 & S6).
    split; [|assumption].
    unfold spawned, spawnCount in *.
    constructor; unfold spawned, spawnCount; rewrite ?S1, ?S2, ?S3, ?S4, ?S5.
    + assumption.
    + lia.
    + rewrite length_app, length_map, length_slice. unfold BATCH_SIZE in *. lia.
    + intros j c Hj Hlt. rewrite nth_error_app1 in Hj by lia. now apply (Hse j).
    + rewrite S6, length_app, length_map. lia.
    + assumption.
  - destruct (stage o) eqn:Es; try discriminate.
    destruct (forallb isSettled (slice _ _ _)) eqn:Eb; [|discriminate].
    pose proof (batch_settled Hinv Es Eb) as Eall.
    inversion Hr; subst o'.
    destruct Hinv as [Hi Hst Hsp Hse Hsn Hre]. rewrite Es in Hst, Hsp.
    destruct (afterBatch_spec o) as (A1 & A2 & A3 & A4 & A5 & A6).
    split; [|assumption].
    unfold spawned, spawnCount in *.
    constructor; unfold spawned, spawnCount; rewrite ?A1, ?A2, ?A3, ?A4, ?A5.
    + destruct Hi as [k Hk]. exists (S k). simpl. unfold BATCH_SIZE in *. lia.
    + destruct (Nat.ltb_spec (currentIndex o + BATCH_SIZE) (List.length (matches o)));
        unfold BATCH_SIZE in *; lia.
    + destruct (currentIndex o + BATCH_SIZE <? List.length (matches o)); assumption.
    + intros j c Hj _. apply nth_error_In in Hj.
      now apply (proj1 (forallb_forall _ _) Eall).
    + rewrite A6. assumption.
    + assumption.
Qed.

Lemma run_inv (es : list event) (o o' : Orch) :
  BatchInv o -> run es o = Some o' -> BatchInv o' /\ matches o' = matches o.
Proof.
  revert o. induction es as [|e r IH]; intros o Hinv Hrun; simpl in Hrun.
  - inversion Hrun; subst. auto.
  - destruct (react e o) as [o1|] eqn:E; [|discriminate].
    destruct (react_inv _ Hinv E) as [Hinv1 Hm1].
    destruct (IH _ Hinv1 Hrun) as [Hinv' Hm']. split; congruence.
Qed.

(** The state in which [main] hands over to the event loop. *)
Lemma main_live (args : list string) (fs : FsEnv) (o0 : Orch) :
  main args fs = Live o0 ->
  BatchInv o0
  /\ exists inputDir outDir files,
       args = [inputDir; outDir]
       /\ fs_readdir fs inputDir = inr files
       /\ matches o0 = findMatchingFiles inputDir files
       /\ currentIndex o0 = 0 /\ stage o0 = Running.
Proof.
  unfold main. intros H.
  destruct args as [|inputDir [|outDir [|? ?]]]; try discriminate.
  destruct (fs_stat fs inputDir) as [?|[]]; try discriminate.
  unfold batchProcess in H.
  destruct (fs_mkdir fs outDir); [discriminate|].
  destruct (fs_readdir fs inputDir) as [?|files] eqn:Er; [discriminate|].
  destruct (List.length (findMatchingFiles inputDir files) =? 0) eqn:En; [discriminate|].
  apply Nat.eqb_neq in En. inversion H as [Ho]. clear H.
  match type of Ho with startBatch ?x = _ => set (o := x) in * end.
  destruct (startBatch_spec o) as (S1 & S2 & S3 & S4 & S5 & S6).
  split.
  - constructor; unfold spawned; rewrite ?S1, ?S2, ?S3, ?S4, ?S5;
      cbn [o matches currentIndex stage world children STATUS results freshStatus app].
    + now exists 0.
    + lia.
    + rewrite length_map, length_slice. unfold BATCH_SIZE. lia.
    + intros j c _ Hj. lia.
    + rewrite S6. unfold spawnCount.
      cbn [o matches currentIndex stage world out]. rewrite length_map.
      reflexivity.
    + constructor.
  - exists inputDir, outDir, files. rewrite S1, S2, S3. auto.
Qed.

(** *** Counting the settled tasks *)

Lemma settled_prefix (l : list Child) (a : nat) :
  (forall j c, nth_error l j = Some c -> j < a -> isSettled c = true) ->
  Nat.min a (List.length l) <= List.length (filter isSettled l).
Proof.
  revert a. induction l as [|c r IH]; intros a H; simpl; [lia|].
  destruct a as [|a']; [lia|].
  rewrite (H 0 c eq_refl) by lia. simpl.
  specialize (IH a' (fun j x Hj Hlt => H (S j) x Hj (proj1 (Nat.succ_lt_mono j a') Hlt))).
  lia.
Qed.

Lemma settled_all (l : list Child) (a : nat) :
  (forall j c, nth_error l j = Some c -> j < a -> isSettled c = true) ->
  List.length l <= a -> List.length (filter isSettled l) = List.length l.
Proof.
  intros H Hle. pose proof (settled_prefix l H) as H1.
  pose proof (filter_length_le isSettled l) as H2. lia.
Qed.

Lemma child_event_keeps_stage (e : event) (o o' : Orch) :
  react e o = Some o' -> e <> StdinData -> e <> Resume ->
  stage o' = stage o /\ currentIndex o' = currentIndex o.
Proof.
  intros Hr H1 H2. destruct e as [i chunk|i code|i err| |]; simpl in Hr; try congruence;
    destruct (lifeOf o i) as [[]|]; inversion Hr; subst; auto.
Qed.

Lemma afterBatch_waits (o : Orch) :
  currentIndex o + BATCH_SIZE < List.length (matches o) ->
  exists l, out (world (afterBatch o)) = l ++ [Log MsgPressEnter; ListenStdin].
Proof.
  intros Hlt. apply Nat.ltb_lt in Hlt. unfold afterBatch. cbv zeta. rewrite Hlt.
  cbn [world]. rewrite ProgressParser.exec_bind.
  match goal with |- context [snd (?r (world o))] => exists (out (snd (r (world o)))) end.
  unfold exec, bind, emit. simpl. now rewrite <- app_assoc.
Qed.

(** C7: the pairs are processed in consecutive batches of ten.  At every
    moment of a run the index is [k * 10]; while batch [k] runs, the
    tasks spawned are the first [min ((k+1)*10, N)] and those of the
    earlier batches have settled; when [batchProcess] has resumed after
    batch [k - 1] (it waits for the operator, or has finished), exactly
    [min (k*10, N)] tasks have been spawned and all of them have settled.
    A task is spawned only when all tasks of the earlier batches have
    settled.  [batchProcess] resumes only when every task of the batch has
    settled; if pairs remain it then prints the prompt and listens on
    stdin, and in that state nothing is spawned until the operator's input
    arrives, which starts the next batch; if none remain it finishes. *)
Theorem C7_batch_barrier (args : list string) (fs : FsEnv) (o0 o : Orch) (es : list event) :
  main args fs = Live o0 -> run es o0 = Some o ->
  matches o = matches o0
  /\ (exists k,
        currentIndex o = k * BATCH_SIZE
        /\ match stage o with
           | Running =>
               k * BATCH_SIZE < List.length (matches o0)
               /\ spawned o = Nat.min ((k + 1) * BATCH_SIZE) (List.length (matches o0))
               /\ Nat.min (k * BATCH_SIZE) (List.length (matches o0)) <= settledCount o
           | Waiting =>
               0 < k /\ k * BATCH_SIZE < List.length (matches o0)
               /\ spawned o = Nat.min (k * BATCH_SIZE) (List.length (matches o0))
               /\ settledCount o = Nat.min (k * BATCH_SIZE) (List.length (matches o0))
           | Finished =>
               List.length (matches o0) <= k * BATCH_SIZE
               /\ spawned o = Nat.min (k * BATCH_SIZE) (List.length (matches o0))
               /\ settledCount o = Nat.min (k * BATCH_SIZE) (List.length (matches o0))
           end)
  /\ spawnCount o = spawned o
  /\ (forall i j,
        j < spawned o -> i / BATCH_SIZE < j / BATCH_SIZE ->
        exists c, nth_error (children (world o)) i = Some c /\ isSettled c = true)
  /\ (stage o = Waiting ->
        react StdinData o = Some (startBatch o)
        /\ forall e o', react e o = Some o' -> e <> StdinData ->
                        stage o' = Waiting /\ spawnCount o' = spawnCount o)
  /\ (forall o', react Resume o = Some o' ->
        settledCount o = spawned o
        /\ (currentIndex o + BATCH_SIZE < List.length (matches o0) ->
              stage o' = Waiting
              /\ exists l, out (world o') = l ++ [Log MsgPressEnter; ListenStdin])
        /\ (List.length (matches o0) <= currentIndex o + BATCH_SIZE ->
              stage o' = Finished)).
Proof.
  intros Hmain Hrun.
  destruct (main_live _ _ Hmain) as [Hinv0 _].
  destruct (run_inv _ Hinv0 Hrun) as [Hinv Hm].
  pose proof Hinv as [Hi Hst Hsp Hse Hsn Hre].
  rewrite Hm in Hst, Hsp.
  split; [exact Hm|]. split; [|split; [exact Hsn|split; [|split]]].
  - destruct Hi as [k Hk]. exists k. split; [exact Hk|].
    unfold settledCount, spawned in *. rewrite <- Hk.
    destruct (stage o).
    + split; [exact Hst|]. split.
      * rewrite Hsp. unfold BATCH_SIZE in *. lia.
      * pose proof (settled_prefix (children (world o)) Hse) as Hp. lia.
    + split; [unfold BATCH_SIZE in *; lia|]. split; [lia|]. split; [exact Hsp|].
      rewrite <- Hsp. apply (settled_all _ Hse). lia.
    + split; [exact Hst|]. split; [exact Hsp|].
      rewrite <- Hsp. apply (settled_all _ Hse). lia.
  - intros i j Hj Hdiv. unfold spawned in *.
    pose proof (Nat.div_mod_eq i BATCH_SIZE) as Hi1.
    pose proof (Nat.mod_upper_bound i BATCH_SIZE ltac:(discriminate)) as Hi2.
    pose proof (Nat.div_mod_eq j BATCH_SIZE) as Hj1.
    pose proof (Nat.mod_upper_bound j BATCH_SIZE ltac:(discriminate)) as Hj2.
    destruct Hi as [k Hk].
    assert (Hlt : i < currentIndex o /\ i < List.length (children (world o))).
    { unfold BATCH_SIZE in *. destruct (stage o); nia. }
    destruct Hlt as [Hlt1 Hlt2].
    destruct (nth_error (children (world o)) i) as [c|] eqn:Ec.
    + exists c. split; [reflexivity|]. now apply (Hse i).
    + apply nth_error_None in Ec. lia.
  - intros Hw. split; [simpl; now rewrite Hw|].
    intros e o' Hr Hne.
    assert (Hres : e <> Resume).
    { intros ->. simpl in Hr. rewrite Hw in Hr. discriminate. }
    destruct (@child_event_keeps_stage e o o' Hr Hne Hres) as [Hs' Hc'].
    destruct (@react_inv e o o' Hinv Hr) as [Hinv' Hm'].
    split; [congruence|].
    rewrite (inv_spawns Hinv'), Hsn, (inv_spawned Hinv'), (inv_spawned Hinv).
    now rewrite Hs', Hc', Hm'.
  - intros o' Hr. simpl in Hr.
    destruct (stage o) eqn:Es; try discriminate.
    destruct (forallb isSettled (slice _ _ _)) eqn:Eb; [|discriminate].
    pose proof (batch_settled Hinv Es Eb) as Eall.
    inversion Hr; subst o'.
    destruct (afterBatch_spec o) as (A1 & A2 & A3 & A4 & A5 & A6).
    split; [|split].
    + unfold settledCount, spawned. now rewrite forallb_filter_id.
    + intros Hlt. rewrite A3, Hm.
      split; [now rewrite (proj2 (Nat.ltb_lt _ _) Hlt)|].
      apply afterBatch_waits. now rewrite Hm.
    + intros Hle. rewrite A3, Hm.
      now rewrite (proj2 (Nat.ltb_ge _ _) Hle).
Qed.

Example eleven_paused :
  stage elevenPaused = Waiting /\ currentIndex elevenPaused = 10
  /\ spawned elevenPaused = 10 /\ settledCount elevenPaused = 10
  /\ List.length (matches elevenPaused) = 11
  /\ option_map spawned (react StdinData elevenPaused) = Some 11.
Proof. vm_compute. repeat split; reflexivity. Qed.

Lemma C7_batch_barrier_witness :
  matches elevenPaused = matches elevenStart
  /\ spawnCount elevenPaused = spawned elevenPaused.
Proof.
  assert (Hmain : main ["in"; "out"] (fs_ok elevenMovies) = Live elevenStart)
    by (vm_compute; reflexivity).
  assert (Hrun : run firstBatchEvents elevenStart = Some elevenPaused)
    by (vm_compute; reflexivity).
  destruct (C7_batch_barrier ["in"; "out"] (fs_ok elevenMovies) firstBatchEvents Hmain Hrun)
    as (H1 & _ & H3 & _).
  split; assumption.
Defined.

(** C10: in the pairs found in one directory, distinct pairs have
    distinct labels, so the label identifies the pair, and at every moment
    of the run [results] holds at most one entry for the label of a
    pair. *)
Theorem C10_labels_identify_pairs
    (inputDir outDir : string) (fs : FsEnv) (files : list string) :
  Forall (fun f => entryName f = true) files ->
  fs_readdir fs inputDir = inr files ->
  NoDup (map label (findMatchingFiles inputDir files))
  /\ (forall i j p q,
        nth_error (findMatchingFiles inputDir files) i = Some p ->
        nth_error (findMatchingFiles inputDir files) j = Some q ->
        label p = label q -> i = j)
  /\ (forall o0 es o,
        main [inputDir; outDir] fs = Live o0 -> run es o0 = Some o ->
        matches o = findMatchingFiles inputDir files
        /\ forall p, In p (matches o) ->
                     count (label p) (results (STATUS (world o))) <= 1).
Proof.
  intros Hall Hread.
  pose proof (MatcherFacts.labels_NoDup inputDir Hall) as Hnd.
  split; [exact Hnd|]. split.
  - intros i j p q Hp Hq Hl.
    apply (proj1 (NoDup_nth_error _) Hnd).
    + rewrite length_map. apply nth_error_Some. congruence.
    + rewrite !nth_error_map, Hp, Hq. simpl. congruence.
  - intros o0 es o Hmain Hrun.
    destruct (main_live _ _ Hmain) as [Hinv0 (d & od & fl & Hargs & Hrd & Hms & _)].
    destruct (run_inv _ Hinv0 Hrun) as [Hinv Hm].
    inversion Hargs; subst d od. rewrite Hread in Hrd. inversion Hrd; subst fl.
    split; [congruence|].
    intros p _. apply count_le_1, Hinv.
Qed.

Lemma C10_labels_identify_pairs_witness :
  NoDup (map label (findMatchingFiles "in" elevenMovies)).
Proof.
  refine (proj1 (@C10_labels_identify_pairs "in" "out" (fs_ok elevenMovies) elevenMovies _ _)).
  - repeat constructor.
  - reflexivity.
Defined.

End Orchestrator.

(** ** Start-up and the ways the run ends early *)

Module Main.

(** Two runs in which the file system fails after the arguments have
    been validated: the output directory cannot be created, or the input
    directory cannot be listed.  Each ends with status 0. *)
Lemma C1_failure_ends_with_status_zero :
  main ["in"; "out"] fs_mkdir_denied
  = Ended 0 [Stat "in"; Mkdir "out";
             LogError (MsgProcessingError
                         (FsError "EACCES: permission denied, mkdir 'out'"))]
  /\ main ["in"; "out"] fs_readdir_denied
     = Ended 0 [Stat "in"; Mkdir "out"; Readdir "in";
                LogError (MsgProcessingError
                            (FsError "EACCES: permission denied, scandir 'in'"))].
Proof. split; reflexivity. Qed.

(** C1: a defect of the code.  [main] awaits [batchProcess] inside a
    [try] whose [catch] prints the error and calls [process.exit(1)], as
    it does when [stat] fails; but [batchProcess] catches every error of
    its own body, prints it and returns, so that the [catch] of [main] is
    never reached.  If, after the arguments have been validated, creating
    the output directory fails, or reading the input directory fails, the
    run does stop there, with the error reported as the last thing printed
    and nothing spawned; but [process.exit] is not called and the process
    ends with status 0, not with the non-zero status of a failed run. *)
Theorem C1_filesystem_failure_reported
    (inputDir outDir : string) (fs : FsEnv) (e : string) :
  fs_stat fs inputDir = inr true ->
  fs_mkdir fs outDir = Some e
  \/ (fs_mkdir fs outDir = None /\ fs_readdir fs inputDir = inl e) ->
  exists printed,
    main [inputDir; outDir] fs
    = Ended 0 (printed ++ [LogError (MsgProcessingError (FsError e))])
    /\ filter isSpawn printed = []
    /\ filter isExitCall printed = []
    /\ (forall m, ~ In (Log m) printed)
    /\ (forall m, ~ In (LogError m) printed).
Proof.
  intros Hstat [Hmk | [Hmk Hrd]]; unfold main, batchProcess; rewrite Hstat, Hmk, ?Hrd.
  - exists [Stat inputDir; Mkdir outDir]. repeat split; try reflexivity;
      intros m [H|[H|[]]]; discriminate H.
  - exists [Stat inputDir; Mkdir outDir; Readdir inputDir]. repeat split; try reflexivity;
      intros m [H|[H|[H|[]]]]; discriminate H.
Qed.

Lemma C1_filesystem_failure_reported_witness :
  exists printed,
    main ["in"; "out"] fs_readdir_denied
    = Ended 0 (printed ++ [LogError (MsgProcessingError
                                       (FsError "EACCES: permission denied, scandir 'in'"))])
    /\ filter isSpawn printed = []
    /\ filter isExitCall printed = []
    /\ (forall m, ~ In (Log m) printed)
    /\ (forall m, ~ In (LogError m) printed).
Proof.
  apply (@C1_filesystem_failure_reported "in" "out" fs_readdir_denied
           "EACCES: permission denied, scandir 'in'").
  - reflexivity.
  - right. split; reflexivity.
Defined.

(** C8: when the matcher finds no pair, the run is not an error: the
    output directory has been created, the directory has been read, the
    "no matches" line is printed, nothing is spawned, and the process ends
    with status 0. *)
Theorem C8_no_matches_is_not_an_error
    (inputDir outDir : string) (fs : FsEnv) (files : list string) :
  fs_stat fs inputDir = inr true ->
  fs_mkdir fs outDir = None ->
  fs_readdir fs inputDir = inr files ->
  findMatchingFiles inputDir files = [] ->
  main [inputDir; outDir] fs
  = Ended 0 [Stat inputDir; Mkdir outDir; Readdir inputDir; Log MsgNoMatches].
Proof.
  intros Hstat Hmk Hrd Hnone. unfold main, batchProcess.
  now rewrite Hstat, Hmk, Hrd, Hnone.
Qed.

Lemma C8_no_matches_is_not_an_error_witness :
  main ["in"; "out"] (fs_ok ["movie.mp4"; "other.srt"; "readme.txt"])
  = Ended 0 [Stat "in"; Mkdir "out"; Readdir "in"; Log MsgNoMatches].
Proof.
  apply (@C8_no_matches_is_not_an_error "in" "out"
           (fs_ok ["movie.mp4"; "other.srt"; "readme.txt"])
           ["movie.mp4"; "other.srt"; "readme.txt"]); reflexivity.
Defined.

(** The other ways [main] ends at once: a wrong number of arguments, an
    input path that cannot be examined, or one that is not a directory. *)
Lemma main_rejects_arguments (args : list string) (fs : FsEnv) :
  List.length args <> 2 ->
  main args fs = Ended 1 [Log MsgUsage; Log MsgExample; ProcessExit 1].
Proof.
  intros H. destruct args as [|a [|b [|c r]]]; simpl in *; try reflexivity; congruence.
Qed.

Lemma main_rejects_input (inputDir outDir : string) (fs : FsEnv) :
  fs_stat fs inputDir <> inr true ->
  exists printed, main [inputDir; outDir] fs = Ended 1 (printed ++ [ProcessExit 1]).
Proof.
  intros H. unfold main. destruct (fs_stat fs inputDir) as [e|[]]; [| congruence |].
  - now exists [Stat inputDir; LogError (MsgTopError (FsError e))].
  - now exists [Stat inputDir; LogError (MsgTopError NotADirectory)].
Qed.

End Main.

(** * Further properties of the code *)

(** ** [main]: validation of the command line *)

Module Validation.

(** X1: with any number of arguments other than two, [main] prints the
    usage and the example and exits with status 1, whatever the file
    system holds; it does not look at the file system at all. *)
Theorem X1_wrong_argument_count (args : list string) (fs : FsEnv) :
  List.length args <> 2 ->
  main args fs = Ended 1 [Log MsgUsage; Log MsgExample; ProcessExit 1].
Proof.
  intros H. destruct args as [|a [|b [|c r]]]; simpl in *; try reflexivity; congruence.
Qed.

Lemma X1_wrong_argument_count_witness :
  main ["in"] (fs_ok ["movie.mp4"; "movie.srt"])
  = Ended 1 [Log MsgUsage; Log MsgExample; ProcessExit 1].
Proof.
  apply (@X1_wrong_argument_count ["in"] (fs_ok ["movie.mp4"; "movie.srt"])).
  simpl. discriminate.
Defined.

(** X2: when the input path cannot be examined, or is not a directory,
    [main] reports one error and exits with status 1 right after the
    [stat]: the output directory is not created, the input directory is
    not read and nothing is spawned. *)
Theorem X2_bad_input_path (inputDir outDir : string) (fs : FsEnv) :
  fs_stat fs inputDir <> inr true ->
  exists e,
    main [inputDir; outDir] fs
    = Ended 1 [Stat inputDir; LogError (MsgTopError e); ProcessExit 1]
    /\ (e = NotADirectory \/ exists message, e = FsError message).
Proof.
  intros H. unfold main. destruct (fs_stat fs inputDir) as [m|[]]; [| congruence |].
  - exists (FsError m). split; [reflexivity|]. right. now exists m.
  - exists NotADirectory. split; [reflexivity|]. now left.
Qed.

Lemma X2_bad_input_path_witness :
  exists e,
    main ["in"; "out"] fs_not_a_directory
    = Ended 1 [Stat "in"; LogError (MsgTopError e); ProcessExit 1]
    /\ (e = NotADirectory \/ exists message, e = FsError message).
Proof.
  apply (@X2_bad_input_path "in" "out" fs_not_a_directory). discriminate.
Defined.

End Validation.

(** ** [findMatchingFiles]: what a pair is made of *)

Module MatcherSoundness.
Import JSMap JSMapFacts Path PathFacts MatcherFacts.

(** X3: every pair returned by the matcher is made of a video file and a
    subtitle file of the listing that have the same normalized name; the
    matcher never pairs a file with an unrecognized extension, nor two
    files whose normalized names differ. *)
Theorem X3_pairs_come_from_the_listing
    (inputDir : string) (files : list string) (p : MatchedPair) :
  In p (findMatchingFiles inputDir files) ->
  exists v s,
    In v files /\ In s files
    /\ isVideo v = true /\ isSubtitle s = true /\ isVideo s = false
    /\ nameWithoutExt v = nameWithoutExt s
    /\ video p = join inputDir v /\ subtitle p = join inputDir s.
Proof.
  intros Hp.
  destruct (matches_origin _ _ _ Hp) as (k & v & s & Hv & Hs & ->).
  apply lastWith_Some in Hv, Hs. destruct Hv as [Hv Pv], Hs as [Hs Ps].
  apply videoFor_spec in Pv. apply subtitleFor_spec in Ps.
  destruct Pv as [Pv Kv], Ps as [Ps Ks].
  exists v, s. repeat split; auto using subtitle_not_video. congruence.
Qed.

Lemma X3_pairs_come_from_the_listing_witness :
  exists v s,
    In v ["Movie.MKV"; "notes.txt"; "movie.srt"] /\ In s ["Movie.MKV"; "notes.txt"; "movie.srt"]
    /\ isVideo v = true /\ isSubtitle s = true /\ isVideo s = false
    /\ nameWithoutExt v = nameWithoutExt s
    /\ "in/Movie.MKV" = join "in" v /\ "in/movie.srt" = join "in" s.
Proof.
  apply (@X3_pairs_come_from_the_listing "in" ["Movie.MKV"; "notes.txt"; "movie.srt"]
           {| video := "in/Movie.MKV"; subtitle := "in/movie.srt" |}).
  vm_compute. left. reflexivity.
Defined.

Lemma length_set (V : Type) (k : string) (v : V) (m : JSMap.t V) :
  List.length (set k v m) <= S (List.length m).
Proof.
  induction m as [|[k' v'] r IH]; simpl; [lia|].
  destruct (String.eqb k' k); simpl; lia.
Qed.

Lemma classify_sizes (inputDir : string) (vs ss : JSMap.t string) (f : string) :
  List.length (fst (classify inputDir (vs, ss) f))
  <= List.length vs + (if isVideo f then 1 else 0)
  /\ List.length (snd (classify inputDir (vs, ss) f))
     <= List.length ss + (if isSubtitle f then 1 else 0).
Proof.
  unfold classify.
  pose proof (length_set (nameWithoutExt f) (join inputDir f) vs).
  pose proof (length_set (nameWithoutExt f) (join inputDir f) ss).
  destruct (isVideo f), (isSubtitle f); simpl; lia.
Qed.

Lemma scan_sizes (inputDir : string) (files : list string) (vs ss : JSMap.t string) :
  List.length (fst (fold_left (classify inputDir) files (vs, ss)))
  <= List.length vs + List.length (filter isVideo files)
  /\ List.length (snd (fold_left (classify inputDir) files (vs, ss)))
     <= List.length ss + List.length (filter isSubtitle files).
Proof.
  revert vs ss. induction files as [|f r IH]; intros vs ss; [simpl; lia|].
  cbn [fold_left filter].
  destruct (classify_sizes inputDir vs ss f) as [C1 C2].
  destruct (classify inputDir (vs, ss) f) as [vs' ss'].
  destruct (IH vs' ss') as [H1 H2]. simpl in C1, C2.
  destruct (isVideo f), (isSubtitle f); simpl; lia.
Qed.

Lemma length_pairUp (vs ss : JSMap.t string) :
  List.length (pairUp vs ss) = List.length (filter (fun k => has k ss) (keys vs)).
Proof.
  induction vs as [|[k v] r IH]; simpl; [reflexivity|].
  unfold has at 1. destruct (get k ss); simpl; now rewrite IH.
Qed.

(** X4: the matcher returns at most as many pairs as the listing has
    video files, and at most as many as it has subtitle files; an empty
    listing, or one without videos or without subtitles, gives no pair. *)
Theorem X4_number_of_pairs (inputDir : string) (files : list string) :
  List.length (findMatchingFiles inputDir files) <= List.length (filter isVideo files)
  /\ List.length (findMatchingFiles inputDir files)
     <= List.length (filter isSubtitle files).
Proof.
  unfold findMatchingFiles.
  pose proof (scan_videos_NoDup inputDir files) as Hnd.
  destruct (@scan_sizes inputDir files JSMap.empty JSMap.empty) as [Hv Hs].
  fold (scan inputDir files) in Hv, Hs.
  destruct (scan inputDir files) as [vs ss]. simpl in *.
  rewrite length_pairUp. split.
  - pose proof (filter_length_le (fun k => has k ss) (keys vs)) as H.
    unfold keys in H at 2. rewrite length_map in H. lia.
  - assert (Hle : List.length (filter (fun k => has k ss) (keys vs))
                  <= List.length (keys ss)).
    { apply NoDup_incl_length; [now apply NoDup_filter|].
      intros k Hk. apply filter_In in Hk. destruct Hk as [_ Hk].
      unfold has in Hk. destruct (get k ss) as [s|] eqn:E; [|discriminate].
      apply get_Some_In in E. change k with (fst (k, s)). now apply in_map. }
    unfold keys in Hle at 2. rewrite length_map in Hle. lia.
Qed.

End MatcherSoundness.

(** ** The listeners: what an event of one child can touch *)

Module Isolation.
Import JSMap JSMapFacts ListenerFacts.

(** X5: an event of one conversion ('data', 'close' or 'error', whatever
    the exit code) leaves every other conversion's closure as it is, does
    not move the batch loop (same stage, same index), spawns nothing and
    keeps [STATUS.total]: a failed conversion does not abort its batch. *)
Theorem X5_child_events_are_local (i : nat) (e : event) (o o' : Orch) :
  childEvent i e = true -> react e o = Some o' ->
  matches o' = matches o /\ outputDir o' = outputDir o
  /\ currentIndex o' = currentIndex o /\ stage o' = stage o
  /\ List.length (children (world o')) = List.length (children (world o))
  /\ (forall j, j <> i ->
        nth_error (children (world o')) j = nth_error (children (world o)) j)
  /\ spawnCount o' = spawnCount o
  /\ total (STATUS (world o')) = total (STATUS (world o)).
Proof.
  intros He Hr. unfold spawnCount.
  destruct e as [j chunk|j code|j err| |]; simpl in He; try discriminate;
    apply Nat.eqb_eq in He; subst j; simpl in Hr.
  - destruct (lifeOf o i) as [[]|] eqn:El; try discriminate.
    apply Orchestrator.lifeOf_child in El. destruct El as (c & Hc & _).
    inversion Hr; subst o'. unfold inWorld. cbn [matches outputDir currentIndex stage world].
    rewrite (@on_data_eq (world o) i c chunk Hc).
    assert (Hl : filter isSpawn (snd (capture c chunk)) = []).
    { unfold capture. destruct (falsy (duration c)); [|reflexivity].
      destruct (durationMatch chunk); reflexivity. }
    destruct (capture c chunk) as [c1 logs]. simpl in Hl.
    destruct (forwarded c1 chunk); cbn [STATUS children out total shownStatus];
      rewrite length_replace_nth, !filter_app, Hl; simpl; rewrite ?app_nil_r;
      repeat split; auto; intros k Hk; now apply nth_error_replace_other.
  - assert (Hex : exists c, nth_error (children (world o)) i = Some c).
    { destruct (lifeOf o i) as [l|] eqn:El; [|discriminate].
      apply Orchestrator.lifeOf_child in El. destruct El as (c & Hc & _). now exists c. }
    destruct Hex as (c & Hc).
    assert (Ho' : o' = inWorld o (bind (on_close i code) (fun _ => setLife i Closed))).
    { destruct (lifeOf o i) as [[]|]; congruence. }
    subst o'. unfold inWorld. cbn [matches outputDir currentIndex stage world].
    rewrite (@on_close_eq (world o) i c code Hc).
    cbn [STATUS children out total finishStatus].
    rewrite length_replace_nth, filter_app. simpl. rewrite app_nil_r.
    repeat split; auto; intros k Hk; now apply nth_error_replace_other.
  - destruct (lifeOf o i) as [[]|] eqn:El; try discriminate.
    apply Orchestrator.lifeOf_child in El. destruct El as (c & Hc & _).
    inversion Hr; subst o'. unfold inWorld. cbn [matches outputDir currentIndex stage world].
    rewrite (@on_error_eq (world o) i c err Hc).
    cbn [STATUS children out total finishStatus].
    rewrite length_replace_nth, filter_app. simpl. rewrite app_nil_r.
    repeat split; auto; intros k Hk; now apply nth_error_replace_other.
Qed.

Lemma X5_child_events_are_local_witness :
  stage elevenOneFailed = stage elevenStart
  /\ nth_error (children (world elevenOneFailed)) 4
     = nth_error (children (world elevenStart)) 4.
Proof.
  assert (Hr : react (Close 3 (Some 1%Z)) elevenStart = Some elevenOneFailed)
    by (vm_compute; reflexivity).
  destruct (@X5_child_events_are_local 3 (Close 3 (Some 1%Z)) elevenStart elevenOneFailed
              eq_refl Hr) as (_ & _ & _ & H4 & _ & H6 & _).
  split; [exact H4|]. apply H6. discriminate.
Defined.

(** X6: when 'error' and then 'close' are delivered for the same child,
    [STATUS.completed] grows by two for that one conversion; [results]
    keeps a single entry for the file, whose flag is the one of 'close'
    ([false] unless the code is 0), and the file is no longer in flight. *)
Theorem X6_error_then_close (i : nat) (err : string) (code : option Z) (o o1 o2 : Orch)
    (c : Child) :
  nth_error (children (world o)) i = Some c ->
  react (Error i err) o = Some o1 -> react (Close i code) o1 = Some o2 ->
  completed (STATUS (world o2)) = 2 + completed (STATUS (world o))
  /\ get (filename c) (results (STATUS (world o2))) = Some (exitOk code)
  /\ get (filename c) (inProgress (STATUS (world o2))) = None
  /\ (NoDup (keys (results (STATUS (world o)))) ->
      count (filename c) (results (STATUS (world o2))) = 1).
Proof.
  intros Hc H1 H2. simpl in H1, H2.
  destruct (lifeOf o i) as [[]|] eqn:El; try discriminate.
  inversion H1; subst o1. clear H1.
  unfold inWorld in H2. unfold lifeOf in H2. cbn [world] in H2.
  rewrite (@on_error_eq (world o) i c err Hc) in H2. cbv zeta in H2.
  cbn [children] in H2.
  rewrite (@nth_error_replace_same _ i _ c _ Hc) in H2. simpl in H2.
  inversion H2; subst o2. clear H2. unfold inWorld. cbn [world].
  set (c1 := settleWith c (Rejected (FFmpegError err)) Errored).
  match goal with |- context [exec _ ?w] => set (w1 := w) end.
  assert (Hc1 : nth_error (children w1) i = Some c1).
  { unfold w1. simpl. eapply nth_error_replace_same. exact Hc. }
  rewrite (@on_close_eq w1 i c1 code Hc1). simpl.
  split; [reflexivity|]. split; [apply get_set_same|]. split; [apply get_delete_same|].
  intros Hnd. eapply count_get; [|apply get_set_same].
  now apply NoDup_keys_set, NoDup_keys_set.
Qed.

Lemma X6_error_then_close_witness :
  completed (STATUS (world oneMovieClosed))
  = 2 + completed (STATUS (world oneMovieStart)).
Proof.
  refine (proj1 (@X6_error_then_close 0 "spawn ffmpeg ENOENT" (Some (-2)%Z)
                   oneMovieStart oneMovieErrored oneMovieClosed
                   {| filename := "movie.mp4"; duration := zero; lastProgress := zero;
                      settled := Pending; life := Alive |} _ _ _));
    vm_compute; reflexivity.
Defined.

End Isolation.

(** ** [processBatch]: the output files *)

Module OutputFiles.
Import JSMap JSMapFacts Path PathFacts MatcherFacts.

Lemma length_append (a b : string) :
  String.length (a ++ b)%string = String.length a + String.length b.
Proof. induction a as [|c r IH]; simpl; [reflexivity | now rewrite IH]. Qed.

Lemma mem_char_append (c : ascii) (a b : string) :
  mem_char c (a ++ b)%string = mem_char c a || mem_char c b.
Proof.
  induction a as [|d r IH]; simpl; [reflexivity|]. now rewrite IH, orb_assoc.
Qed.

Lemma append_cancel_r (a b s : string) : (a ++ s)%string = (b ++ s)%string -> a = b.
Proof.
  intros H. apply (f_equal list_ascii_of_string) in H.
  rewrite !list_ascii_app in H. apply app_inv_tail in H.
  apply (f_equal string_of_list_ascii) in H.
  now rewrite !string_of_list_ascii_of_string in H.
Qed.

Lemma split_last_dot_sound (s b e : string) :
  split_last_dot s = Some (b, e) -> s = (b ++ e)%string.
Proof.
  revert b e. induction s as [|c r IH]; intros b e; simpl; [discriminate|].
  destruct (split_last_dot r) as [[b' e']|].
  - intros H. inversion H; subst. simpl. now rewrite <- (IH b' e eq_refl).
  - destruct (Ascii.eqb c dot); [|discriminate]. intros H. now inversion H.
Qed.

Lemma split_last_dot_append (a b x e : string) :
  split_last_dot b = Some (x, e) ->
  split_last_dot (a ++ b)%string = Some ((a ++ x)%string, e).
Proof.
  intros H. induction a as [|c r IH]; simpl; [assumption|]. now rewrite IH.
Qed.

Lemma last_component_entry (f : string) : entryName f = true -> last_component f = f.
Proof.
  intros H. destruct (entryName_spec f H) as (Hne & _ & _ & Hsf).
  unfold last_component. rewrite (@split_slash_slashFree f Hsf). simpl.
  apply String.eqb_neq in Hne. now rewrite Hne.
Qed.

Lemma parse_name_slashFree (f : string) :
  slashFree f = true -> slashFree (fst (split_ext f)) = true.
Proof.
  intros Hsf. unfold split_ext.
  destruct (split_last_dot f) as [[b e]|] eqn:E; [|assumption].
  destruct (String.eqb b "" || String.eqb f ".."); [assumption|]. simpl.
  apply split_last_dot_sound in E. subst f.
  unfold slashFree in *. rewrite mem_char_append in Hsf.
  apply negb_true_iff, orb_false_iff in Hsf. apply negb_true_iff. tauto.
Qed.

Lemma outputName_entry (n : string) :
  slashFree n = true -> entryName (n ++ outputSuffix)%string = true.
Proof.
  intros Hsf. unfold entryName.
  assert (Hlen : 11 <= String.length (n ++ outputSuffix)%string).
  { rewrite length_append. simpl. lia. }
  assert (Hne : forall t, String.length t < 11 ->
                          String.eqb (n ++ outputSuffix)%string t = false).
  { intros t Ht. apply String.eqb_neq. intros Heq. rewrite Heq in Hlen. lia. }
  rewrite !Hne by (simpl; lia). simpl.
  unfold slashFree in Hsf. rewrite mem_char_append.
  apply negb_true_iff in Hsf. rewrite Hsf. reflexivity.
Qed.

(** The path that [processBatch] hands to [processVideo] for the video
    of a directory entry. *)
Lemma outputFile_entry (inputDir outDir s f : string) :
  entryName f = true ->
  outputFile outDir {| video := join inputDir f; subtitle := s |}
  = join outDir (fst (split_ext f) ++ outputSuffix)%string.
Proof.
  intros Hf. unfold outputFile, parse_name. simpl video.
  fold (basename (join inputDir f)). now rewrite basename_join.
Qed.

Lemma output_basename (inputDir outDir s f : string) :
  entryName f = true ->
  basename (outputFile outDir {| video := join inputDir f; subtitle := s |})
  = (parse_name f ++ "_output.mp4")%string.
Proof.
  intros Hf. destruct (entryName_spec f Hf) as (_ & _ & _ & Hsf).
  rewrite (@outputFile_entry inputDir outDir s f Hf).
  unfold parse_name. rewrite (@last_component_entry f Hf).
  apply basename_join, outputName_entry. now apply parse_name_slashFree.
Qed.

(** X7: for the video of a directory entry [f], the output file is the
    file named after [f] without its extension, followed by
    [_output.mp4], in the output directory: that is its base name, its
    extension is [.mp4], whatever the extension of the video was. *)
Theorem X7_output_file_name (inputDir outDir s f : string) :
  entryName f = true ->
  basename (outputFile outDir {| video := join inputDir f; subtitle := s |})
  = (parse_name f ++ "_output.mp4")%string
  /\ extname (outputFile outDir {| video := join inputDir f; subtitle := s |}) = ".mp4"
  /\ parse_name (outputFile outDir {| video := join inputDir f; subtitle := s |})
     = (parse_name f ++ "_output")%string.
Proof.
  intros Hf. destruct (entryName_spec f Hf) as (_ & _ & _ & Hsf).
  rewrite (@outputFile_entry inputDir outDir s f Hf).
  assert (Hpn : parse_name f = fst (split_ext f)).
  { unfold parse_name. now rewrite (@last_component_entry f Hf). }
  rewrite Hpn. set (n := fst (split_ext f)).
  assert (Hent : entryName (n ++ outputSuffix)%string = true).
  { apply outputName_entry. now apply parse_name_slashFree. }
  assert (Hbase : basename (join outDir (n ++ outputSuffix)%string)
                  = (n ++ outputSuffix)%string) by now apply basename_join.
  split; [exact Hbase|].
  unfold extname, parse_name. unfold basename in Hbase. rewrite Hbase.
  unfold split_ext.
  rewrite (@split_last_dot_append n outputSuffix "_output" ".mp4" eq_refl).
  assert (H1 : String.eqb (n ++ "_output")%string "" = false).
  { apply String.eqb_neq. intros Heq. apply (f_equal String.length) in Heq.
    rewrite length_append in Heq. simpl in Heq. lia. }
  assert (H2 : String.eqb (n ++ outputSuffix)%string ".." = false).
  { apply String.eqb_neq. intros Heq. apply (f_equal String.length) in Heq.
    rewrite length_append in Heq. simpl in Heq. lia. }
  rewrite H1, H2. simpl. auto.
Qed.

Lemma X7_output_file_name_witness :
  basename (outputFile "./out" {| video := join "in" "My Movie.final.MKV";
                                  subtitle := "in/mymovie.final.srt" |})
  = (parse_name "My Movie.final.MKV" ++ "_output.mp4")%string.
Proof.
  refine (proj1 (@X7_output_file_name "in" "./out" "in/mymovie.final.srt"
                   "My Movie.final.MKV" _)).
  reflexivity.
Defined.

Lemma NoDup_map_finer (A B C : Type) (f : A -> B) (g : A -> C) (l : list A) :
  NoDup (map g l) ->
  (forall x y, In x l -> In y l -> f x = f y -> g x = g y) ->
  NoDup (map f l).
Proof.
  induction l as [|a r IH]; intros Hnd Hfg; simpl; [constructor|].
  simpl in Hnd. inversion Hnd as [|? ? Hnotin Hnd']; subst.
  constructor.
  - intros Hin. apply in_map_iff in Hin. destruct Hin as (y & Hy & Hiny).
    apply Hnotin. apply in_map_iff. exists y. split; [|assumption].
    apply Hfg; [now right | now left | assumption].
  - apply IH; [assumption|]. intros x y Hx Hy. apply Hfg; now right.
Qed.

Lemma pairKeys_NoDup (inputDir : string) (files : list string) :
  Forall (fun f => entryName f = true) files ->
  NoDup (map pairKey (findMatchingFiles inputDir files)).
Proof.
  intros Hall. unfold findMatchingFiles.
  pose proof (scan_videos_NoDup inputDir files) as Hnd.
  pose proof (fun k' v' => @scan_videos_keyed inputDir files k' v' Hall) as Hkeyed.
  destruct (scan inputDir files) as [vs ss]. simpl in *.
  rewrite keys_pairUp by assumption. now apply NoDup_filter.
Qed.

(** X8: in one run no two conversions write the same output file: the
    output paths of the pairs found in a directory are pairwise
    distinct. *)
Theorem X8_output_files_distinct (inputDir outDir : string) (files : list string) :
  Forall (fun f => entryName f = true) files ->
  NoDup (map (outputFile outDir) (findMatchingFiles inputDir files)).
Proof.
  intros Hall. pose proof (proj1 (Forall_forall _ _) Hall) as Hentry.
  apply (@NoDup_map_finer _ _ _ (outputFile outDir) pairKey);
    [now apply pairKeys_NoDup|].
  assert (Hform : forall p, In p (findMatchingFiles inputDir files) ->
            exists v, entryName v = true
                      /\ pairKey p = nameWithoutExt v
                      /\ basename (outputFile outDir p)
                         = (parse_name v ++ "_output.mp4")%string).
  { intros p Hp.
    destruct (matches_origin _ _ _ Hp) as (k & v & s & Hv & _ & ->).
    apply lastWith_Some in Hv. destruct Hv as [Hv _].
    exists v. split; [now apply Hentry|]. split.
    - unfold pairKey, label. simpl. rewrite basename_join; auto.
    - apply output_basename. now apply Hentry. }
  intros p q Hp Hq Heq.
  destruct (Hform p Hp) as (v & _ & Kp & Bp).
  destruct (Hform q Hq) as (u & _ & Kq & Bq).
  rewrite Kp, Kq. rewrite Heq, Bq in Bp.
  apply append_cancel_r in Bp. unfold nameWithoutExt. now rewrite Bp.
Qed.

Lemma X8_output_files_distinct_witness :
  NoDup (map (outputFile "out") (findMatchingFiles "in" elevenMovies)).
Proof.
  apply (@X8_output_files_distinct "in" "out" elevenMovies). repeat constructor.
Defined.

End OutputFiles.

(** ** [findMatchingFiles]: the case of the letters *)

Module LetterCase.
Import Path.

Lemma lower_char_idem (c : ascii) : lower_char (lower_char c) = lower_char c.
Proof. destruct c as [[] [] [] [] [] [] [] []]; vm_compute; reflexivity. Qed.

Lemma lower_char_slash (c : ascii) : Ascii.eqb (lower_char c) slash = Ascii.eqb c slash.
Proof. destruct c as [[] [] [] [] [] [] [] []]; vm_compute; reflexivity. Qed.

Lemma lower_char_dot (c : ascii) : Ascii.eqb (lower_char c) dot = Ascii.eqb c dot.
Proof. destruct c as [[] [] [] [] [] [] [] []]; vm_compute; reflexivity. Qed.

Lemma toLowerCase_idem (s : string) : toLowerCase (toLowerCase s) = toLowerCase s.
Proof. induction s as [|c r IH]; simpl; [reflexivity|]. now rewrite lower_char_idem, IH. Qed.

Lemma toLowerCase_empty (s : string) : String.eqb (toLowerCase s) "" = String.eqb s "".
Proof. destruct s; reflexivity. Qed.

Lemma toLowerCase_dotdot (s : string) : String.eqb (toLowerCase s) ".." = String.eqb s "..".
Proof.
  destruct s as [|a [|b [|c r]]]; try reflexivity.
  - simpl toLowerCase. unfold String.eqb.
    change (Ascii.eqb (lower_char a) "." && false = Ascii.eqb a "." && false).
    now rewrite !andb_false_r.
  - simpl toLowerCase. unfold String.eqb.
    change ((if Ascii.eqb (lower_char a) dot
             then if Ascii.eqb (lower_char b) dot then true else false else false)
            = (if Ascii.eqb a dot then if Ascii.eqb b dot then true else false else false)).
    now rewrite !lower_char_dot.
  - simpl toLowerCase. unfold String.eqb.
    change ((if Ascii.eqb (lower_char a) dot
             then if Ascii.eqb (lower_char b) dot then false else false else false)
            = (if Ascii.eqb a dot then if Ascii.eqb b dot then false else false else false)).
    now rewrite !lower_char_dot.
Qed.

Lemma split_slash_lower (s : string) :
  split_slash (toLowerCase s) = map toLowerCase (split_slash s).
Proof.
  induction s as [|c r IH]; simpl; [reflexivity|].
  rewrite lower_char_slash, IH.
  destruct (Ascii.eqb c slash); [reflexivity|].
  destruct (split_slash r); reflexivity.
Qed.

Lemma last_map_lower (l : list string) :
  last (map toLowerCase l) "" = toLowerCase (last l "").
Proof.
  induction l as [|x r IH]; [reflexivity|].
  destruct r as [|y r']; [reflexivity|]. exact IH.
Qed.

Lemma last_component_lower (s : string) :
  last_component (toLowerCase s) = toLowerCase (last_component s).
Proof.
  unfold last_component. rewrite split_slash_lower, <- last_map_lower. f_equal.
  induction (split_slash s) as [|x r IH]; simpl; [reflexivity|].
  rewrite toLowerCase_empty. destruct (String.eqb x ""); simpl; now rewrite IH.
Qed.

Lemma split_last_dot_lower (s : string) :
  split_last_dot (toLowerCase s)
  = option_map (fun be => (toLowerCase (fst be), toLowerCase (snd be))) (split_last_dot s).
Proof.
  induction s as [|c r IH]; simpl; [reflexivity|].
  rewrite IH, lower_char_dot.
  destruct (split_last_dot r) as [[b e]|]; simpl; [reflexivity|].
  destruct (Ascii.eqb c dot); reflexivity.
Qed.

Lemma split_ext_lower (s : string) :
  split_ext (toLowerCase s)
  = (toLowerCase (fst (split_ext s)), toLowerCase (snd (split_ext s))).
Proof.
  unfold split_ext. rewrite split_last_dot_lower, toLowerCase_dotdot.
  destruct (split_last_dot s) as [[b e]|]; simpl; [|reflexivity].
  rewrite toLowerCase_empty.
  destruct (String.eqb b "" || String.eqb s ".."); reflexivity.
Qed.

Lemma lowered_key_and_class (f : string) :
  nameWithoutExt (toLowerCase f) = nameWithoutExt f
  /\ lowerExt (toLowerCase f) = lowerExt f.
Proof.
  unfold nameWithoutExt, lowerExt, parse_name, extname.
  rewrite last_component_lower, split_ext_lower. simpl.
  now rewrite !toLowerCase_idem.
Qed.

(** X9: for file names written in ASCII, the matcher does not look at
    the case of the letters: two such names that differ only by case get
    the same class (video, subtitle or neither) and the same normalized
    name, so that [Movie.MKV] is paired with [movie.SRT].  The restriction
    matters for the program: beyond these characters lower-casing is no
    longer done letter by letter (a final sigma depends on what follows
    it), and names equal after lower-casing can get different normalized
    names. *)
Theorem X9_case_is_ignored (f g : string) :
  isAscii f = true -> isAscii g = true ->
  toLowerCase f = toLowerCase g ->
  isVideo f = isVideo g /\ isSubtitle f = isSubtitle g
  /\ nameWithoutExt f = nameWithoutExt g.
Proof.
  intros _ _ H.
  destruct (lowered_key_and_class f) as [Kf Ef].
  destruct (lowered_key_and_class g) as [Kg Eg].
  unfold isVideo, isSubtitle.
  rewrite <- Kf, <- Kg, <- Ef, <- Eg, H. auto.
Qed.

Lemma X9_case_is_ignored_witness :
  isVideo "Movie.MKV" = isVideo "mOVIE.mkv"
  /\ isSubtitle "Movie.MKV" = isSubtitle "mOVIE.mkv"
  /\ nameWithoutExt "Movie.MKV" = nameWithoutExt "mOVIE.mkv".
Proof.
  apply (@X9_case_is_ignored "Movie.MKV" "mOVIE.mkv"); reflexivity.
Defined.

End LetterCase.

(** ** The trace of a run *)

Module Trace.
Import JSMap JSMapFacts ListenerFacts Orchestrator.

Lemma printsOnly_ret (A : Type) (a : A) : printsOnly (ret a).
Proof.
  intros w. simpl. repeat split. exists []. split; [now rewrite app_nil_r|].
  intros e [].
Qed.

Lemma printsOnly_emit (e : effect) :
  isSpawn e = false -> isRender e = false -> printsOnly (emit e).
Proof.
  intros H1 H2 w. simpl. repeat split. exists [e]. split; [reflexivity|].
  intros x [<-|[]]. auto.
Qed.

Lemma printsOnly_getStatus : printsOnly getStatus.
Proof.
  intros w. simpl. repeat split. exists []. split; [now rewrite app_nil_r|].
  intros e [].
Qed.

Lemma printsOnly_bind (A B : Type) (m : M A) (k : A -> M B) :
  printsOnly m -> (forall a, printsOnly (k a)) -> printsOnly (bind m k).
Proof.
  intros Hm Hk w. unfold bind. destruct (m w) as [a w1] eqn:E.
  destruct (Hm w) as (H1 & H2 & l1 & H3 & H4). rewrite E in H1, H2, H3. simpl in *.
  destruct (Hk a w1) as (K1 & K2 & l2 & K3 & K4).
  split; [congruence|]. split; [congruence|].
  exists (l1 ++ l2). split; [now rewrite K3, H3, app_assoc|].
  intros e He. apply in_app_or in He. destruct He; auto.
Qed.

Lemma printsOnly_when (b : bool) (m : M unit) : printsOnly m -> printsOnly (when b m).
Proof. destruct b; simpl; auto using printsOnly_ret. Qed.

Lemma printsOnly_reportFailed (l : list BatchResult) (index : nat) :
  printsOnly (reportFailed index l).
Proof.
  revert index. induction l as [|item r IH]; intros index; simpl.
  - apply printsOnly_ret.
  - apply printsOnly_bind; [now apply printsOnly_emit|]. intros _.
    apply printsOnly_bind; [|intros _; apply IH].
    destruct (failure item); [now apply printsOnly_emit | apply printsOnly_ret].
Qed.

Ltac prints_steps :=
  repeat first
    [ apply printsOnly_bind; [|intros ?]
    | apply printsOnly_emit; reflexivity
    | apply printsOnly_when
    | apply printsOnly_reportFailed
    | apply printsOnly_getStatus
    | apply printsOnly_ret ].

Lemma afterBatch_prints (o : Orch) :
  exists l,
    out (world (afterBatch o)) = out (world o) ++ l
    /\ forall e, In e l -> isSpawn e = false /\ isRender e = false.
Proof.
  unfold afterBatch. cbv zeta.
  destruct (currentIndex o + BATCH_SIZE <? List.length (matches o));
    cbn [world];
    match goal with |- context [exec ?m ?w] =>
      assert (Hq : printsOnly m) by prints_steps;
      destruct (Hq w) as (_ & _ & l & H3 & H4)
    end; exists l; unfold exec; auto.
Qed.

Lemma rendersShow_app (n : nat) (l1 l2 : list effect) :
  rendersShow n l1 -> rendersShow n l2 -> rendersShow n (l1 ++ l2).
Proof. intros H1 H2 s Hs. apply in_app_or in Hs. destruct Hs; auto. Qed.

Lemma rendersShow_quiet (n : nat) (l : list effect) :
  (forall e, In e l -> isRender e = false) -> rendersShow n l.
Proof. intros H s Hs. apply H in Hs. discriminate. Qed.

Lemma map_filename_replace (i : nat) (c c' : Child) (l : list Child) :
  nth_error l i = Some c -> filename c' = filename c ->
  map filename (replace_nth i c' l) = map filename l.
Proof.
  revert i. induction l as [|x r IH]; intros [|j]; simpl; try discriminate.
  - intros H Hf. inversion H; subst. now rewrite Hf.
  - intros H Hf. now rewrite (IH j H Hf).
Qed.

Lemma firstn_plus (A : Type) (a k : nat) (l : list A) :
  firstn (a + k) l = firstn a l ++ firstn k (skipn a l).
Proof.
  revert l. induction a as [|a IH]; intros l; simpl; [reflexivity|].
  destruct l as [|x r]; simpl; [now rewrite firstn_nil | now rewrite IH].
Qed.

Lemma firstn_length_firstn (A : Type) (k : nat) (x : list A) :
  firstn (List.length (firstn k x)) x = firstn k x.
Proof.
  revert x. induction k as [|k IH]; intros [|y r]; simpl; try reflexivity.
  now rewrite IH.
Qed.

Lemma firstn_slice (A : Type) (a b : nat) (l : list A) :
  firstn (a + List.length (slice a b l)) l = firstn a l ++ slice a b l.
Proof.
  rewrite firstn_plus. f_equal. unfold slice. apply firstn_length_firstn.
Qed.

Lemma has_set (V : Type) (k f : string) (v : V) (m : JSMap.t V) :
  has f (set k v m) = String.eqb k f || has f m.
Proof. unfold has. rewrite get_set. now destruct (String.eqb k f). Qed.

Lemma batch_trace (outDir : string) (l : list MatchedPair) (w : World) :
  filter isSpawn
    (out (exec (forEach l (fun m => processVideo (video m) (subtitle m)
                                                 (outputFile outDir m))) w))
  = filter isSpawn (out w) ++ map (spawnOf outDir) l
  /\ map filename
       (children (exec (forEach l (fun m => processVideo (video m) (subtitle m)
                                                         (outputFile outDir m))) w))
     = map filename (children w) ++ map label l
  /\ (rendersShow (total (STATUS w)) (out w) ->
      rendersShow (total (STATUS w))
        (out (exec (forEach l (fun m => processVideo (video m) (subtitle m)
                                                     (outputFile outDir m))) w)))
  /\ (forall f,
        has f (inProgress
                 (STATUS (exec (forEach l (fun m => processVideo (video m) (subtitle m)
                                                                 (outputFile outDir m))) w)))
        = has f (inProgress (STATUS w)) || existsb (fun m => String.eqb (label m) f) l).
Proof.
  revert w. induction l as [|m r IH]; intros w; simpl forEach.
  - unfold exec. simpl. rewrite !app_nil_r. repeat split; auto.
    intros f. now rewrite orb_false_r.
  - rewrite ProgressParser.exec_bind.
    fold (exec (processVideo (video m) (subtitle m) (outputFile outDir m)) w).
    rewrite processVideo_eq. cbv zeta.
    match goal with |- context [exec _ ?w1] =>
      destruct (IH w1) as (H1 & H2 & H3 & H4); rewrite H1, H2
    end.
    cbn [out children STATUS total shownStatus inProgress] in *.
    split; [|split; [|split]].
    + rewrite filter_app. simpl. rewrite <- app_assoc. reflexivity.
    + rewrite map_app, <- app_assoc. reflexivity.
    + intros Hr. apply H3. apply rendersShow_app; [assumption|].
      intros s [Hs|[Hs|[Hs|[Hs|[]]]]]; try discriminate Hs.
      inversion Hs. reflexivity.
    + intros f. rewrite H4, has_set. cbn [existsb]. unfold label.
      destruct (String.eqb (Path.basename (video m)) f), (has f (inProgress (STATUS w))),
        (existsb (fun m0 => String.eqb (Path.basename (video m0)) f) r); reflexivity.
Qed.

Lemma startBatch_trace (o : Orch) :
  TraceInv o -> spawned o = currentIndex o -> TraceInv (startBatch o).
Proof.
  intros [Hs Hn Ht Hr] Hsp.
  destruct (startBatch_spec o) as (S1 & S2 & S3 & S4 & S5 & S6).
  assert (Hlen : spawned (startBatch o)
                 = currentIndex o
                   + List.length (slice (currentIndex o) (currentIndex o + BATCH_SIZE)
                                        (matches o))).
  { unfold spawned in *. rewrite S4, length_app, length_map. lia. }
  unfold startBatch in *. cbn [matches outputDir currentIndex stage world] in *.
  rewrite ProgressParser.exec_bind in *. unfold processBatch in *.
  match goal with |- context [exec (forEach ?l ?f) ?w1] =>
    destruct (@batch_trace (outputDir o) l w1) as (H1 & H2 & H3 & H4);
    destruct (@processBatch_spec (outputDir o) l w1) as (_ & _ & _ & P4 & _)
  end.
  cbv zeta in P4.
  constructor; cbn [matches outputDir currentIndex stage world].
  - rewrite H1, Hlen, firstn_slice, map_app. simpl.
    rewrite filter_app. simpl. rewrite app_nil_r, Hs, Hsp. reflexivity.
  - rewrite H2, Hlen, firstn_slice, map_app. simpl. rewrite Hn, Hsp. reflexivity.
  - rewrite P4. simpl. exact Ht.
  - simpl in H3. rewrite Ht in H3. apply H3.
    apply rendersShow_app; [assumption|]. intros s [Hx|[]]. discriminate Hx.
Qed.

Lemma filter_none (l : list effect) :
  (forall e, In e l -> isSpawn e = false) -> filter isSpawn l = [].
Proof.
  induction l as [|x r IH]; intros H; simpl; [reflexivity|].
  rewrite (H x (or_introl eq_refl)). apply IH. intros e He. apply H. now right.
Qed.

Lemma trace_child_update (o : Orch) (i : nat) (c c' : Child) (st' : Status)
    (extra : list effect) :
  TraceInv o ->
  nth_error (children (world o)) i = Some c ->
  filename c' = filename c ->
  total st' = total (STATUS (world o)) ->
  filter isSpawn extra = [] ->
  rendersShow (List.length (matches o)) extra ->
  TraceInv {| matches := matches o; outputDir := outputDir o;
              currentIndex := currentIndex o; stage := stage o;
              world := {| STATUS := st';
                          children := replace_nth i c' (children (world o));
                          out := out (world o) ++ extra |} |}.
Proof.
  intros [Hs Hn Ht Hr] Hc Hf Htot Hsp Hrn. unfold spawned in *.
  constructor; unfold spawned; cbn [matches outputDir currentIndex stage world STATUS
                                    children out]; rewrite ?length_replace_nth.
  - rewrite filter_app, Hsp, app_nil_r. exact Hs.
  - rewrite (@map_filename_replace i c c' _ Hc Hf). exact Hn.
  - congruence.
  - now apply rendersShow_app.
Qed.

Lemma react_trace (e : event) (o o' : Orch) :
  BatchInv o -> TraceInv o -> react e o = Some o' ->
  TraceInv o' /\ outputDir o' = outputDir o.
Proof.
  intros Hb Htr Hr.
  destruct e as [i chunk|i code|i err| |]; simpl in Hr.
  - destruct (lifeOf o i) as [[]|] eqn:El; try discriminate.
    apply lifeOf_child in El. destruct El as (c & Hc & _).
    inversion Hr; subst o'. split; [|reflexivity].
    pose proof (tr_total Htr) as Ht. unfold inWorld.
    rewrite (@on_data_eq (world o) i c chunk Hc).
    assert (Hcap : filename (fst (capture c chunk)) = filename c
                   /\ forall e, In e (snd (capture c chunk)) ->
                                isSpawn e = false /\ isRender e = false).
    { unfold capture. destruct (falsy (duration c)); [|simpl; intuition].
      destruct (durationMatch chunk); simpl; [|intuition].
      split; [reflexivity|]. intros e [<-|[]]. auto. }
    destruct (capture c chunk) as [c1 logs]. simpl in Hcap. destruct Hcap as [Hf Hl].
    assert (Hfl : filter isSpawn logs = []).
    { apply filter_none. intros e He. now apply Hl. }
    assert (Hrl : rendersShow (List.length (matches o)) logs).
    { apply rendersShow_quiet. intros e He. now apply Hl. }
    destruct (forwarded c1 chunk) as [p|].
    + apply (@trace_child_update o i c (withProgress c1 p)); auto.
      * rewrite filter_app, Hfl. reflexivity.
      * apply rendersShow_app; [assumption|].
        intros s [Hx|[]]. inversion Hx. simpl. exact Ht.
    + apply (@trace_child_update o i c c1); auto.
  - assert (Hex : exists c, nth_error (children (world o)) i = Some c).
    { destruct (lifeOf o i) as [l|] eqn:El; [|discriminate].
      apply lifeOf_child in El. destruct El as (c & Hc & _). now exists c. }
    destruct Hex as (c & Hc).
    assert (Ho' : o' = inWorld o (bind (on_close i code) (fun _ => setLife i Closed))).
    { destruct (lifeOf o i) as [[]|]; congruence. }
    subst o'. split; [|reflexivity].
    pose proof (tr_total Htr) as Ht. unfold inWorld.
    rewrite (@on_close_eq (world o) i c code Hc). cbv zeta.
    apply (@trace_child_update o i c); auto.
    intros s [Hx|[Hx|[]]]; [|discriminate Hx]. inversion Hx. simpl. exact Ht.
  - destruct (lifeOf o i) as [[]|] eqn:El; try discriminate.
    apply lifeOf_child in El. destruct El as (c & Hc & _).
    inversion Hr; subst o'. split; [|reflexivity].
    pose proof (tr_total Htr) as Ht. unfold inWorld.
    rewrite (@on_error_eq (world o) i c err Hc). cbv zeta.
    apply (@trace_child_update o i c); auto.
    intros s [Hx|[Hx|[]]]; [discriminate Hx|]. inversion Hx. simpl. exact Ht.
  - destruct (stage o) eqn:Es; try discriminate. inversion Hr; subst o'.
    split; [|reflexivity]. apply startBatch_trace; [assumption|].
    rewrite (inv_spawned Hb), Es. pose proof (inv_stage Hb) as Hst. rewrite Es in Hst. lia.
  - destruct (stage o) eqn:Es; try discriminate.
    destruct (forallb isSettled (slice _ _ _)); [|discriminate].
    inversion Hr; subst o'.
    destruct (afterBatch_spec o) as (A1 & A2 & A3 & A4 & A5 & A6).
    destruct (afterBatch_prints o) as (l & Hout & Hl).
    assert (Hod : outputDir (afterBatch o) = outputDir o).
    { unfold afterBatch. cbv zeta.
      now destruct (currentIndex o + BATCH_SIZE <? List.length (matches o)). }
    split; [|assumption].
    destruct Htr as [Hs Hn Ht Hrn]. unfold spawned in *.
    constructor; unfold spawned; rewrite ?A1, ?A4, ?A5, ?Hod.
    + rewrite Hout, filter_app, (@filter_none l), app_nil_r; [exact Hs|].
      intros e He. now apply Hl.
    + exact Hn.
    + exact Ht.
    + rewrite Hout. apply rendersShow_app; [assumption|].
      apply rendersShow_quiet. intros e He. now apply Hl.
Qed.

Lemma main_trace (args : list string) (fs : FsEnv) (o0 : Orch) :
  main args fs = Live o0 ->
  TraceInv o0 /\ exists inputDir, args = [inputDir; outputDir o0].
Proof.
  unfold main. intros H.
  destruct args as [|inputDir [|outDir [|? ?]]]; try discriminate.
  destruct (fs_stat fs inputDir) as [?|[]]; try discriminate.
  unfold batchProcess in H.
  destruct (fs_mkdir fs outDir); [discriminate|].
  destruct (fs_readdir fs inputDir) as [?|files] eqn:Er; [discriminate|].
  destruct (List.length (findMatchingFiles inputDir files) =? 0) eqn:En; [discriminate|].
  inversion H as [Ho]. clear H.
  match goal with |- context [startBatch ?x] => set (o := x) in * end.
  split.
  - apply startBatch_trace; [|reflexivity].
    constructor; unfold spawned; cbn [o matches outputDir world children STATUS out
                                      total freshStatus]; simpl firstn.
    + reflexivity.
    + reflexivity.
    + reflexivity.
    + intros s [Hx|[Hx|[Hx|[Hx|[Hx|[]]]]]]; discriminate Hx.
  - exists inputDir. unfold startBatch. reflexivity.
Qed.

Lemma run_trace (es : list event) (o o' : Orch) :
  BatchInv o -> TraceInv o -> run es o = Some o' ->
  TraceInv o' /\ outputDir o' = outputDir o.
Proof.
  revert o. induction es as [|e r IH]; intros o Hb Ht Hrun; simpl in Hrun.
  - inversion Hrun; subst. auto.
  - destruct (react e o) as [o1|] eqn:E; [|discriminate].
    destruct (@react_inv e o o1 Hb E) as [Hb1 _].
    destruct (@react_trace e o o1 Hb Ht E) as [Ht1 Hd1].
    destruct (IH _ Hb1 Ht1 Hrun) as [Ht' Hd']. split; congruence.
Qed.

(** X10: at every moment of a run the encoder has been started exactly
    once for each of the pairs handled so far and for nothing else: in
    the order of the matcher, each time as [ffmpeg] with the arguments
    built from that pair's video, subtitle and output file; and the
    closures carry the labels of those pairs, in the same order. *)
Theorem X10_one_encoder_per_pair
    (args : list string) (fs : FsEnv) (o0 o : Orch) (es : list event) :
  main args fs = Live o0 -> run es o0 = Some o ->
  filter isSpawn (out (world o))
  = map (spawnOf (outputDir o0)) (firstn (spawned o) (matches o0))
  /\ map filename (children (world o)) = map label (firstn (spawned o) (matches o0))
  /\ spawned o <= List.length (matches o0).
Proof.
  intros Hmain Hrun.
  destruct (main_live _ _ Hmain) as [Hb0 _].
  destruct (main_trace _ _ Hmain) as [Ht0 _].
  destruct (run_inv _ Hb0 Hrun) as [Hb Hm].
  destruct (run_trace _ Hb0 Ht0 Hrun) as [[Hs Hn _ _] Hd].
  rewrite Hm, Hd in *. split; [exact Hs|]. split; [exact Hn|].
  pose proof (inv_spawned Hb) as Hsp. rewrite Hm in Hsp. destruct (stage o); lia.
Qed.

Lemma X10_one_encoder_per_pair_witness :
  filter isSpawn (out (world elevenPaused))
  = map (spawnOf (outputDir elevenStart)) (firstn (spawned elevenPaused) (matches elevenStart)).
Proof.
  assert (Hmain : main ["in"; "out"] (fs_ok elevenMovies) = Live elevenStart)
    by (vm_compute; reflexivity).
  assert (Hrun : run firstBatchEvents elevenStart = Some elevenPaused)
    by (vm_compute; reflexivity).
  exact (proj1 (X10_one_encoder_per_pair ["in"; "out"] (fs_ok elevenMovies)
                  firstBatchEvents Hmain Hrun)).
Defined.

(** X11: [STATUS.total] is the number of pairs during the whole run, it is
    not zero, and every snapshot that [printProgress] prints shows it: the
    overall percentage is never computed with a zero total. *)
Theorem X11_total_is_the_number_of_pairs
    (args : list string) (fs : FsEnv) (o0 o : Orch) (es : list event) :
  main args fs = Live o0 -> run es o0 = Some o ->
  total (STATUS (world o)) = List.length (matches o0)
  /\ 0 < List.length (matches o0)
  /\ forall s, In (Render s) (out (world o)) -> shown_total s = List.length (matches o0).
Proof.
  intros Hmain Hrun.
  destruct (main_live _ _ Hmain) as [Hb0 (d & od & fl & _ & _ & _ & _ & Hst0)].
  destruct (main_trace _ _ Hmain) as [Ht0 _].
  destruct (run_inv _ Hb0 Hrun) as [Hb Hm].
  destruct (run_trace _ Hb0 Ht0 Hrun) as [[_ _ Ht Hr] _].
  rewrite Hm in *. split; [exact Ht|]. split; [|exact Hr].
  pose proof (inv_stage Hb0) as Hst. rewrite Hst0 in Hst. lia.
Qed.

Lemma X11_total_is_the_number_of_pairs_witness :
  total (STATUS (world elevenPaused)) = List.length (matches elevenStart).
Proof.
  assert (Hmain : main ["in"; "out"] (fs_ok elevenMovies) = Live elevenStart)
    by (vm_compute; reflexivity).
  assert (Hrun : run firstBatchEvents elevenStart = Some elevenPaused)
    by (vm_compute; reflexivity).
  exact (proj1 (X11_total_is_the_number_of_pairs ["in"; "out"] (fs_ok elevenMovies)
                  firstBatchEvents Hmain Hrun)).
Defined.

End Trace.

(** ** The tracker in a run without spawn failures *)

Module FaultFree.
Import JSMap JSMapFacts ListenerFacts Orchestrator MatcherFacts Trace.

Lemma set_fresh (V : Type) (k : string) (v : V) (m : JSMap.t V) :
  get k m = None -> set k v m = m ++ [(k, v)].
Proof.
  induction m as [|[k' v'] r IH]; simpl; intros H; [reflexivity|].
  destruct (String.eqb k' k); [discriminate H|]. now rewrite IH.
Qed.

Lemma get_delete_other (V : Type) (k f : string) (m : JSMap.t V) :
  k <> f -> get f (delete k m) = get f m.
Proof.
  intros Hk. induction m as [|[k' v'] r IH]; simpl; [reflexivity|].
  destruct (String.eqb k' k) eqn:E1.
  - apply String.eqb_eq in E1. subst k'. destruct (String.eqb k f) eqn:E2.
    + apply String.eqb_eq in E2. contradiction.
    + exact IH.
  - simpl. now rewrite IH.
Qed.

Lemma not_In_get (V : Type) (k : string) (m : JSMap.t V) :
  ~ In k (keys m) -> get k m = None.
Proof.
  intros H. destruct (get k m) as [v|] eqn:E; [|reflexivity].
  exfalso. apply H. apply get_Some_In in E. unfold keys.
  exact (in_map fst _ _ E).
Qed.

Lemma count_replace (f : Child -> bool) (i : nat) (c c' : Child) (l : list Child) :
  nth_error l i = Some c ->
  List.length (filter f (replace_nth i c' l)) + (if f c then 1 else 0)
  = List.length (filter f l) + (if f c' then 1 else 0).
Proof.
  revert i. induction l as [|x r IH]; intros [|i] H; simpl in *; try discriminate.
  - inversion H; subst. destruct (f c), (f c'); simpl; lia.
  - specialize (IH _ H). destruct (f x); simpl; lia.
Qed.

Lemma fresh_none (f : Child -> bool) (l : list MatchedPair) :
  (forall m, f (freshChild m) = false) -> filter f (map freshChild l) = [].
Proof.
  intros H. induction l as [|m r IH]; simpl; [reflexivity|]. now rewrite H.
Qed.

Lemma settled_split (l : list Child) :
  List.length (filter isSettled l)
  = List.length (filter resolved l) + List.length (filter rejected l).
Proof.
  induction l as [|c r IH]; simpl; [reflexivity|].
  unfold isSettled at 1, resolved at 1, rejected at 1. destruct (settled c); simpl; lia.
Qed.

Lemma flags_split (l : list bool) :
  List.length l
  = List.length (filter (fun b : bool => b) l) + List.length (filter negb l).
Proof.
  induction l as [|[] r IH]; simpl; lia.
Qed.

Lemma NoDup_app_disjoint (A : Type) (a b : list A) (x : A) :
  NoDup (a ++ b) -> In x a -> In x b -> False.
Proof.
  induction a as [|y r IH]; simpl; intros H Ha Hb; [contradiction|].
  inversion H as [|? ? Hy Hr]; subst. destruct Ha as [->|Ha].
  - apply Hy. apply in_or_app. now right.
  - now apply IH.
Qed.

Lemma names_NoDup (o : Orch) :
  TraceInv o -> NoDup (map label (matches o)) ->
  NoDup (map filename (children (world o))).
Proof.
  intros Ht Hnd. rewrite (tr_names Ht), <- firstn_map.
  rewrite <- (firstn_skipn (spawned o) (map label (matches o))) in Hnd.
  now apply NoDup_app_remove_r in Hnd.
Qed.

Lemma same_name_same_child (l : list Child) (i j : nat) (c x : Child) :
  NoDup (map filename l) ->
  nth_error l i = Some c -> nth_error l j = Some x -> filename x = filename c -> j = i.
Proof.
  intros Hnd Hi Hj Hf.
  apply (proj1 (NoDup_nth_error (map filename l)) Hnd).
  - rewrite length_map. apply nth_error_Some. congruence.
  - rewrite !nth_error_map, Hi, Hj. simpl. congruence.
Qed.

Lemma alive_is_pending (o : Orch) (i : nat) (c : Child) :
  FlightInv o -> nth_error (children (world o)) i = Some c -> life c = Alive ->
  settled c = Pending.
Proof.
  intros Hfl Hc Hl. destruct (@fl_life o Hfl i c Hc) as [[_ H]|[H _]]; [exact H|congruence].
Qed.

(** A 'data' event: the closure keeps its name, promise and life. *)
Lemma flight_progress (o : Orch) (i : nat) (c c' : Child) (st' : Status)
    (printed : list effect) :
  FlightInv o -> NoDup (map filename (children (world o))) ->
  nth_error (children (world o)) i = Some c -> life c = Alive ->
  filename c' = filename c -> settled c' = settled c -> life c' = life c ->
  completed st' = completed (STATUS (world o)) ->
  results st' = results (STATUS (world o)) ->
  (forall f, has f (inProgress st')
             = has f (inProgress (STATUS (world o))) || String.eqb (filename c) f) ->
  FlightInv {| matches := matches o; outputDir := outputDir o;
               currentIndex := currentIndex o; stage := stage o;
               world := {| STATUS := st';
                           children := replace_nth i c' (children (world o));
                           out := printed |} |}.
Proof.
  intros Hfl Hnd Hc Hlife Hf Hs Hl Hcomp Hres Hin.
  pose proof (@alive_is_pending o i c Hfl Hc Hlife) as Hpend.
  assert (Hset : isSettled c' = isSettled c) by (unfold isSettled; now rewrite Hs).
  assert (Hrs : resolved c' = resolved c) by (unfold resolved; now rewrite Hs).
  assert (Hrj : rejected c' = rejected c) by (unfold rejected; now rewrite Hs).
  assert (Hhere : has (filename c) (inProgress (STATUS (world o))) = true).
  { rewrite (@fl_inflight o Hfl i c Hc). unfold isSettled. now rewrite Hpend. }
  assert (Hcase : forall j x,
            nth_error (replace_nth i c' (children (world o))) j = Some x ->
            (j = i /\ x = c')
            \/ (j <> i /\ nth_error (children (world o)) j = Some x)).
  { intros j x Hx. destruct (Nat.eq_dec j i) as [->|Hji].
    - rewrite (@nth_error_replace_same _ i c' c _ Hc) in Hx. inversion Hx. now left.
    - rewrite nth_error_replace_other in Hx by congruence. now right. }
  constructor; unfold settledCount;
    cbn [world STATUS children matches outputDir currentIndex stage out].
  - intros j x Hx. destruct (Hcase j x Hx) as [[-> ->]|[Hji Hx0]].
    + left. rewrite Hl, Hs. now split.
    + exact (@fl_life o Hfl j x Hx0).
  - rewrite Hcomp, (fl_completed Hfl). unfold settledCount.
    pose proof (@count_replace isSettled i c c' _ Hc) as H. rewrite Hset in H.
    destruct (isSettled c); lia.
  - intros j x Hx. rewrite Hin. destruct (Hcase j x Hx) as [[-> ->]|[Hji Hx0]].
    + rewrite Hf, Hhere, Hset. unfold isSettled. now rewrite Hpend.
    + rewrite (@fl_inflight o Hfl j x Hx0).
      destruct (String.eqb (filename c) (filename x)) eqn:E; [|now rewrite orb_false_r].
      apply String.eqb_eq in E. exfalso. apply Hji.
      now apply (@same_name_same_child _ i j c x Hnd Hc Hx0).
  - intros j x Hx. rewrite Hres. destruct (Hcase j x Hx) as [[-> ->]|[Hji Hx0]].
    + rewrite Hf, Hs. exact (@fl_flag o Hfl i c Hc).
    + exact (@fl_flag o Hfl j x Hx0).
  - intros f Hk. rewrite Hres in Hk.
    destruct (@fl_keys o Hfl f Hk) as (j & x & Hx & Hfx & Hsx).
    destruct (Nat.eq_dec j i) as [->|Hji].
    + rewrite Hc in Hx. inversion Hx; subst x. unfold isSettled in Hsx.
      rewrite Hpend in Hsx. discriminate Hsx.
    + exists j, x. rewrite nth_error_replace_other by congruence. auto.
  - rewrite Hres, (fl_succeeded Hfl).
    pose proof (@count_replace resolved i c c' _ Hc) as H. rewrite Hrs in H.
    destruct (resolved c); lia.
  - rewrite Hres, (fl_failed Hfl).
    pose proof (@count_replace rejected i c c' _ Hc) as H. rewrite Hrj in H.
    destruct (rejected c); lia.
Qed.

(** A 'close' event on a running conversion. *)
Lemma flight_finish (o : Orch) (i : nat) (c : Child) (p : promise) (ok : bool)
    (printed : list effect) :
  FlightInv o -> NoDup (map filename (children (world o))) ->
  nth_error (children (world o)) i = Some c -> life c = Alive ->
  flagOf p = Some ok ->
  FlightInv {| matches := matches o; outputDir := outputDir o;
               currentIndex := currentIndex o; stage := stage o;
               world := {| STATUS := finishStatus (STATUS (world o)) (filename c) ok;
                           children := replace_nth i (settleWith c p Closed)
                                                   (children (world o));
                           out := printed |} |}.
Proof.
  intros Hfl Hnd Hc Hlife Hp.
  pose proof (@alive_is_pending o i c Hfl Hc Hlife) as Hpend.
  remember (settleWith c p Closed) as c' eqn:Ec'.
  assert (Hs' : settled c' = p) by (subst c'; unfold settleWith; simpl; now rewrite Hpend).
  assert (Hf' : filename c' = filename c) by (subst c'; reflexivity).
  assert (Hl' : life c' = Closed) by (subst c'; reflexivity).
  assert (HisS : isSettled c = false) by (unfold isSettled; now rewrite Hpend).
  assert (HisS' : isSettled c' = true).
  { unfold isSettled. rewrite Hs'. destruct p; [discriminate Hp|reflexivity|reflexivity]. }
  assert (Hnone : get (filename c) (results (STATUS (world o))) = None).
  { rewrite (@fl_flag o Hfl i c Hc), Hpend. reflexivity. }
  assert (Hcase : forall j x,
            nth_error (replace_nth i c' (children (world o))) j = Some x ->
            (j = i /\ x = c')
            \/ (j <> i /\ nth_error (children (world o)) j = Some x
                /\ filename c <> filename x)).
  { intros j x Hx. destruct (Nat.eq_dec j i) as [->|Hji].
    - rewrite (@nth_error_replace_same _ i c' c _ Hc) in Hx. inversion Hx. now left.
    - rewrite nth_error_replace_other in Hx by congruence. right.
      split; [exact Hji|]. split; [exact Hx|]. intros Heq. apply Hji.
      now apply (@same_name_same_child _ i j c x Hnd Hc Hx). }
  clear Ec'.
  constructor; unfold settledCount;
    cbn [world STATUS children matches outputDir currentIndex stage out finishStatus
         completed inProgress results].
  - intros j x Hx. destruct (Hcase j x Hx) as [[-> ->]|(Hji & Hx0 & _)].
    + right. now split.
    + exact (@fl_life o Hfl j x Hx0).
  - rewrite (fl_completed Hfl). unfold settledCount.
    pose proof (@count_replace isSettled i c c' _ Hc) as H.
    rewrite HisS, HisS' in H. lia.
  - intros j x Hx. unfold has. destruct (Hcase j x Hx) as [[-> ->]|(Hji & Hx0 & Hne)].
    + rewrite Hf', get_delete_same, HisS'. reflexivity.
    + rewrite (@get_delete_other _ _ _ _ Hne).
      exact (@fl_inflight o Hfl j x Hx0).
  - intros j x Hx. destruct (Hcase j x Hx) as [[-> ->]|(Hji & Hx0 & Hne)].
    + rewrite Hf', get_set_same, Hs'. now rewrite Hp.
    + rewrite (@get_set_other _ _ _ ok _ Hne).
      exact (@fl_flag o Hfl j x Hx0).
  - intros f Hk. rewrite (@set_fresh _ _ ok _ Hnone) in Hk. unfold keys in Hk.
    rewrite map_app in Hk. apply in_app_or in Hk. destruct Hk as [Hk|[<-|[]]].
    + destruct (@fl_keys o Hfl f Hk) as (j & x & Hx & Hfx & Hsx).
      destruct (Nat.eq_dec j i) as [->|Hji].
      * rewrite Hc in Hx. inversion Hx; subst x. congruence.
      * exists j, x. rewrite nth_error_replace_other by congruence. auto.
    + exists i, c'. rewrite (@nth_error_replace_same _ i c' c _ Hc). auto.
  - rewrite (@set_fresh _ _ ok _ Hnone). unfold values. rewrite map_app, filter_app, length_app.
    fold (values (results (STATUS (world o)))). rewrite (fl_succeeded Hfl).
    pose proof (@count_replace resolved i c c' _ Hc) as H.
    unfold resolved at 2 4 in H. rewrite Hpend, Hs' in H.
    destruct p; [discriminate Hp| |]; inversion Hp; subst ok; simpl; simpl in H; lia.
  - rewrite (@set_fresh _ _ ok _ Hnone). unfold values. rewrite map_app, filter_app, length_app.
    fold (values (results (STATUS (world o)))). rewrite (fl_failed Hfl).
    pose proof (@count_replace rejected i c c' _ Hc) as H.
    unfold rejected at 2 4 in H. rewrite Hpend, Hs' in H.
    destruct p; [discriminate Hp| |]; inversion Hp; subst ok; simpl; simpl in H; lia.
Qed.

Lemma flight_startBatch (o : Orch) :
  FlightInv o -> NoDup (map filename (children (world (startBatch o)))) ->
  FlightInv (startBatch o).
Proof.
  intros Hfl Hnd.
  remember (slice (currentIndex o) (currentIndex o + BATCH_SIZE) (matches o)) as sl eqn:Esl.
  assert (Hch : children (world (startBatch o))
                = children (world o) ++ map freshChild sl).
  { subst sl. apply startBatch_spec. }
  assert (Hst : results (STATUS (world (startBatch o))) = results (STATUS (world o))
                /\ completed (STATUS (world (startBatch o))) = completed (STATUS (world o))
                /\ forall f, has f (inProgress (STATUS (world (startBatch o))))
                             = has f (inProgress (STATUS (world o)))
                               || existsb (fun m => String.eqb (label m) f) sl).
  { subst sl. unfold startBatch. cbn [world]. rewrite ProgressParser.exec_bind.
    unfold processBatch.
    match goal with |- context [exec (forEach ?l ?f) ?w1] =>
      destruct (@batch_trace (outputDir o) l w1) as (_ & _ & _ & H4);
      destruct (@processBatch_spec (outputDir o) l w1) as (_ & P2 & P3 & _)
    end.
    cbv zeta in P2, P3. split; [exact P2|]. split; [exact P3|exact H4]. }
  destruct Hst as (Hres & Hcomp & Hin).
  rewrite Hch, map_app in Hnd.
  assert (Hfresh : forall m, In m sl -> In (label m) (map filename (map freshChild sl))).
  { intros m Hm. rewrite map_map. exact (in_map (fun x => filename (freshChild x)) _ _ Hm). }
  assert (Hold : forall x, In x (children (world o)) ->
                           existsb (fun m => String.eqb (label m) (filename x)) sl = false).
  { intros x Hx. destruct (existsb _ sl) eqn:E; [|reflexivity]. exfalso.
    apply existsb_exists in E. destruct E as (m & Hm & E). apply String.eqb_eq in E.
    apply (@NoDup_app_disjoint _ _ _ (filename x) Hnd).
    - now apply in_map.
    - rewrite <- E. now apply Hfresh. }
  assert (Hcase : forall j x,
            nth_error (children (world o) ++ map freshChild sl) j = Some x ->
            (nth_error (children (world o)) j = Some x)
            \/ (exists m, In m sl /\ x = freshChild m)).
  { intros j x Hx. destruct (Nat.lt_ge_cases j (List.length (children (world o)))) as [Hj|Hj].
    - left. now rewrite nth_error_app1 in Hx.
    - right. rewrite nth_error_app2 in Hx by assumption. apply nth_error_In in Hx.
      apply in_map_iff in Hx. destruct Hx as (m & <- & Hm). now exists m. }
  constructor; unfold settledCount; rewrite ?Hch, ?Hres, ?Hcomp.
  - intros j x Hx. destruct (Hcase j x Hx) as [Hx0|(m & Hm & ->)].
    + exact (@fl_life o Hfl j x Hx0).
    + left. now split.
  - rewrite filter_app, length_app, (@fresh_none isSettled sl), Nat.add_0_r by reflexivity.
    exact (fl_completed Hfl).
  - intros j x Hx. rewrite Hin. destruct (Hcase j x Hx) as [Hx0|(m & Hm & ->)].
    + rewrite (Hold x (nth_error_In _ _ Hx0)), orb_false_r.
      exact (@fl_inflight o Hfl j x Hx0).
    + assert (E : existsb (fun m0 => String.eqb (label m0) (filename (freshChild m))) sl
                  = true).
      { apply existsb_exists. exists m. split; [exact Hm|]. apply String.eqb_refl. }
      rewrite E, orb_true_r. reflexivity.
  - intros j x Hx. destruct (Hcase j x Hx) as [Hx0|(m & Hm & ->)].
    + exact (@fl_flag o Hfl j x Hx0).
    + apply not_In_get. intros Hk.
      destruct (@fl_keys o Hfl _ Hk) as (j0 & x0 & Hx0 & Hfx & _).
      apply (@NoDup_app_disjoint _ _ _ (filename x0) Hnd).
      * apply in_map. exact (nth_error_In _ _ Hx0).
      * rewrite Hfx. now apply Hfresh.
  - intros f Hk. destruct (@fl_keys o Hfl f Hk) as (j & x & Hx & Hfx & Hsx).
    exists j, x. rewrite nth_error_app1; [auto|]. apply nth_error_Some. congruence.
  - rewrite filter_app, length_app, (@fresh_none resolved sl), Nat.add_0_r by reflexivity.
    exact (fl_succeeded Hfl).
  - rewrite filter_app, length_app, (@fresh_none rejected sl), Nat.add_0_r by reflexivity.
    exact (fl_failed Hfl).
Qed.

Lemma react_flight (e : event) (o o' : Orch) :
  BatchInv o -> TraceInv o -> NoDup (map label (matches o)) -> FlightInv o ->
  isError e = false -> react e o = Some o' -> FlightInv o'.
Proof.
  intros Hb Htr Hlab Hfl He Hr.
  pose proof (@names_NoDup o Htr Hlab) as Hnd.
  destruct (@react_trace e o o' Hb Htr Hr) as [Htr' _].
  destruct (@react_inv e o o' Hb Hr) as [_ Hm'].
  destruct e as [i chunk|i code|i err| |]; simpl in Hr; try discriminate He.
  - destruct (lifeOf o i) as [[]|] eqn:El; try discriminate.
    apply lifeOf_child in El. destruct El as (c & Hc & Hlife).
    inversion Hr; subst o'. unfold inWorld.
    rewrite (@on_data_eq (world o) i c chunk Hc).
    assert (Hcap : filename (fst (capture c chunk)) = filename c
                   /\ settled (fst (capture c chunk)) = settled c
                   /\ life (fst (capture c chunk)) = life c).
    { unfold capture. destruct (falsy (duration c)); [|simpl; auto].
      destruct (durationMatch chunk); simpl; auto. }
    destruct (capture c chunk) as [c1 logs]. simpl in Hcap. destruct Hcap as (Hf & Hs & Hl).
    destruct (forwarded c1 chunk) as [p|].
    + apply (@flight_progress o i c (withProgress c1 p)); auto.
      intros f. unfold shownStatus. cbn [inProgress]. rewrite has_set. apply orb_comm.
    + apply (@flight_progress o i c c1); auto.
      intros f. destruct (String.eqb (filename c) f) eqn:E; [|now rewrite orb_false_r].
      apply String.eqb_eq in E. subst f. rewrite orb_true_r.
      rewrite (@fl_inflight o Hfl i c Hc). unfold isSettled.
      now rewrite (@alive_is_pending o i c Hfl Hc Hlife).
  - destruct (lifeOf o i) as [l|] eqn:El; [|discriminate].
    apply lifeOf_child in El. destruct El as (c & Hc & Hlife).
    assert (Hal : life c = Alive).
    { destruct (@fl_life o Hfl i c Hc) as [[H _]|[H _]]; [exact H|].
      rewrite H in Hlife. subst l. discriminate Hr. }
    assert (Ho' : o' = inWorld o (bind (on_close i code) (fun _ => setLife i Closed))).
    { destruct l; congruence. }
    subst o'. unfold inWorld.
    rewrite (@on_close_eq (world o) i c code Hc). cbv zeta.
    apply (@flight_finish o i c); auto.
    now destruct (exitOk code).
  - destruct (stage o) eqn:Es; try discriminate. inversion Hr; subst o'.
    apply flight_startBatch; [assumption|].
    apply names_NoDup; [assumption|]. now rewrite Hm'.
  - destruct (stage o) eqn:Es; try discriminate.
    destruct (forallb isSettled (slice _ _ _)); [|discriminate].
    inversion Hr; subst o'.
    destruct (afterBatch_spec o) as (A1 & A2 & A3 & A4 & A5 & A6).
    destruct Hfl as [F1 F2 F3 F4 F5 F6 F7]. unfold settledCount in *.
    constructor; unfold settledCount; rewrite ?A4, ?A5; assumption.
Qed.

Lemma main_flight (args : list string) (fs : FsEnv) (o0 : Orch) :
  main args fs = Live o0 -> NoDup (map label (matches o0)) -> FlightInv o0.
Proof.
  intros H Hlab.
  destruct (main_trace _ _ H) as [Ht0 _].
  pose proof (@names_NoDup o0 Ht0 Hlab) as Hnd.
  unfold main in H.
  destruct args as [|inputDir [|outDir [|? ?]]]; try discriminate.
  destruct (fs_stat fs inputDir) as [?|[]]; try discriminate.
  unfold batchProcess in H.
  destruct (fs_mkdir fs outDir); [discriminate|].
  destruct (fs_readdir fs inputDir) as [?|files] eqn:Er; [discriminate|].
  destruct (List.length (findMatchingFiles inputDir files) =? 0) eqn:En; [discriminate|].
  inversion H as [Ho]. rewrite <- Ho in Hnd.
  apply flight_startBatch; [|exact Hnd].
  constructor; unfold settledCount; cbn [world STATUS children completed freshStatus
                                         inProgress results];
    try reflexivity.
  - intros [|j] c Hc; discriminate Hc.
  - intros [|j] c Hc; discriminate Hc.
  - intros [|j] c Hc; discriminate Hc.
  - intros f [].
Qed.

Lemma run_flight (es : list event) (o o' : Orch) :
  BatchInv o -> TraceInv o -> NoDup (map label (matches o)) -> FlightInv o ->
  faultFree es = true -> run es o = Some o' -> FlightInv o'.
Proof.
  revert o. induction es as [|e r IH]; intros o Hb Ht Hlab Hfl Hff Hrun; simpl in *.
  - inversion Hrun; subst. assumption.
  - apply andb_true_iff in Hff. destruct Hff as [He Hff].
    apply negb_true_iff in He.
    destruct (react e o) as [o1|] eqn:E; [|discriminate].
    destruct (@react_inv e o o1 Hb E) as [Hb1 Hm1].
    destruct (@react_trace e o o1 Hb Ht E) as [Ht1 _].
    apply (IH o1); auto.
    + now rewrite Hm1.
    + apply (@react_flight e o o1); auto.
Qed.

(** X12: in a run on a directory listing in which no encoder failed to
    start, the tracker agrees with the conversions at every moment:
    [STATUS.completed] is the number of settled conversions and the size of
    [results], and it never exceeds [STATUS.total]; every conversion that
    was started is either in flight (in [inProgress], not in [results]) or
    finished (not in [inProgress], in [results] with the flag of its exit
    code); and when [batchProcess] has returned, [completed] is [total]. *)
Theorem X12_tracker_agrees_with_conversions
    (inputDir outDir : string) (fs : FsEnv) (files : list string)
    (o0 o : Orch) (es : list event) :
  Forall (fun f => entryName f = true) files ->
  fs_readdir fs inputDir = inr files ->
  main [inputDir; outDir] fs = Live o0 ->
  faultFree es = true ->
  run es o0 = Some o ->
  completed (STATUS (world o)) = settledCount o
  /\ completed (STATUS (world o)) <= total (STATUS (world o))
  /\ size (results (STATUS (world o))) = completed (STATUS (world o))
  /\ (forall j c,
        nth_error (children (world o)) j = Some c ->
        has (filename c) (inProgress (STATUS (world o))) = negb (isSettled c)
        /\ get (filename c) (results (STATUS (world o))) = flagOf (settled c))
  /\ (stage o = Finished ->
        completed (STATUS (world o)) = total (STATUS (world o))).
Proof.
  intros Hall Hread Hmain Hff Hrun.
  destruct (main_live _ _ Hmain) as [Hb0 (d & od & fl & Hargs & Hrd & Hms & _)].
  inversion Hargs; subst d od. rewrite Hread in Hrd. inversion Hrd; subst fl.
  assert (Hlab : NoDup (map label (matches o0))).
  { rewrite Hms. now apply labels_NoDup. }
  destruct (main_trace _ _ Hmain) as [Ht0 _].
  pose proof (@main_flight _ _ _ Hmain Hlab) as Hf0.
  destruct (run_inv _ Hb0 Hrun) as [Hb Hm].
  destruct (run_trace _ Hb0 Ht0 Hrun) as [Ht _].
  pose proof (@run_flight es o0 o Hb0 Ht0 Hlab Hf0 Hff Hrun) as Hfl.
  pose proof (fl_completed Hfl) as Hc.
  assert (Hle : settledCount o <= spawned o).
  { unfold settledCount, spawned. apply filter_length_le. }
  pose proof (inv_spawned Hb) as Hsp. pose proof (inv_stage Hb) as Hst.
  split; [exact Hc|]. split.
  { rewrite Hc, (tr_total Ht). destruct (stage o); lia. }
  split.
  { rewrite Hc. unfold settledCount, size. rewrite settled_split.
    rewrite <- (fl_succeeded Hfl), <- (fl_failed Hfl).
    rewrite <- (length_map snd). apply flags_split. }
  split.
  { intros j c Hj. split; [exact (@fl_inflight o Hfl j c Hj)|exact (@fl_flag o Hfl j c Hj)]. }
  intros Hfin. rewrite Hfin in Hsp, Hst. rewrite Hc, (tr_total Ht).
  unfold settledCount. unfold spawned in Hsp.
  rewrite (@settled_all (children (world o)) (currentIndex o)).
  - lia.
  - exact (inv_settled Hb).
  - lia.
Qed.

Lemma X12_tracker_agrees_with_conversions_witness :
  completed (STATUS (world elevenMixed)) = settledCount elevenMixed.
Proof.
  refine (proj1 (@X12_tracker_agrees_with_conversions "in" "out" (fs_ok elevenMovies)
                   elevenMovies elevenStart elevenMixed mixedBatchEvents _ _ _ _ _)).
  - repeat constructor.
  - reflexivity.
  - vm_compute. reflexivity.
  - reflexivity.
  - vm_compute. reflexivity.
Defined.

End FaultFree.

(** ** The report of a batch and the final statistics *)

Module Report.
Import JSMap JSMapFacts ListenerFacts Orchestrator MatcherFacts Trace FaultFree.

Lemma skipn_combine (A B : Type) (n : nat) (l : list A) (l' : list B) :
  skipn n (combine l l') = combine (skipn n l) (skipn n l').
Proof.
  revert l l'. induction n as [|n IH]; intros [|x l] [|y l']; simpl; auto.
  now destruct (skipn n l).
Qed.

Lemma slice_combine (A B : Type) (a b : nat) (l : list A) (l' : list B) :
  slice a b (combine l l') = combine (slice a b l) (slice a b l').
Proof. unfold slice. now rewrite skipn_combine, combine_firstn. Qed.

Lemma slice_map (A B : Type) (f : A -> B) (a b : nat) (l : list A) :
  slice a b (map f l) = map f (slice a b l).
Proof. unfold slice. now rewrite skipn_map, firstn_map. Qed.

Lemma slice_firstn (A : Type) (a b : nat) (l : list A) :
  slice a b (firstn (Nat.min b (List.length l)) l) = slice a b l.
Proof.
  unfold slice. rewrite skipn_firstn_comm, firstn_firstn.
  destruct (Nat.le_ge_cases b (List.length l)) as [H|H].
  - rewrite (Nat.min_l b _ H). now rewrite Nat.min_id.
  - rewrite (Nat.min_r b _ H).
    rewrite (@firstn_all2 _ (Nat.min (b - a) (List.length l - a)));
      [|rewrite length_skipn; lia].
    rewrite (@firstn_all2 _ (b - a)); [reflexivity|rewrite length_skipn; lia].
Qed.

(** For settled conversions that carry the labels of the pairs, the tasks
    return one result per conversion. *)
Lemma collect_resultOf (ms : list MatchedPair) (cs : list Child) :
  forallb isSettled cs = true -> map label ms = map filename cs ->
  collect (combine ms cs) = map resultOf cs.
Proof.
  revert cs. induction ms as [|m r IH]; intros [|c cs] Hs Hn; simpl in *;
    try reflexivity; try discriminate Hn.
  apply andb_true_iff in Hs. destruct Hs as [Hc Hs].
  inversion Hn as [[Hl Hr]]. rewrite (IH cs Hs Hr).
  unfold taskResult, resultOf, resolved, isSettled, label in *.
  destruct (settled c); [discriminate Hc| |]; now rewrite Hl.
Qed.

Lemma batch_names (o : Orch) :
  BatchInv o -> TraceInv o -> stage o = Running ->
  map label (slice (currentIndex o) (currentIndex o + BATCH_SIZE) (matches o))
  = map filename (currentBatch o).
Proof.
  intros Hb Ht Hst. unfold currentBatch.
  rewrite <- !slice_map, (tr_names Ht), (inv_spawned Hb), Hst, <- firstn_map.
  rewrite <- (length_map label (matches o)). now rewrite slice_firstn.
Qed.

Lemma batch_results (o : Orch) :
  BatchInv o -> TraceInv o -> stage o = Running ->
  forallb isSettled (currentBatch o) = true ->
  batchResults o (currentIndex o) = map resultOf (currentBatch o).
Proof.
  intros Hb Ht Hst Hs. unfold batchResults. rewrite slice_combine.
  apply collect_resultOf; [exact Hs|]. now apply batch_names.
Qed.

Lemma exec_emit (e : effect) (w : World) :
  exec (emit e) w = {| STATUS := STATUS w; children := children w; out := out w ++ [e] |}.
Proof. reflexivity. Qed.

Lemma reportFailed_out (l : list BatchResult) :
  forall (k : nat) (w : World),
  exists listing,
    exec (reportFailed k l) w
    = {| STATUS := STATUS w; children := children w; out := out w ++ listing |}
    /\ failedItems listing = combine (seq (k + 1) (List.length l)) (map file l).
Proof.
  induction l as [|item r IH]; intros k w.
  - exists []. split; [|reflexivity]. unfold exec. simpl. rewrite app_nil_r.
    now destruct w.
  - cbn [reportFailed]. rewrite !ProgressParser.exec_bind.
    match goal with |- context [exec (reportFailed (S k) r) ?w1] =>
      destruct (IH (S k) w1) as (lst & E & F); rewrite E
    end.
    destruct (failure item) as [e|].
    + exists ([Log (MsgFailedItem (k + 1) (file item)); Log (MsgFailedReason e)] ++ lst).
      split.
      * unfold bind, emit. simpl. now rewrite <- !app_assoc.
      * simpl. rewrite F. reflexivity.
    + exists ([Log (MsgFailedItem (k + 1) (file item))] ++ lst).
      split.
      * unfold bind, emit, ret. simpl. now rewrite <- !app_assoc.
      * simpl. rewrite F. reflexivity.
Qed.

(** What [batchProcess] prints when a batch has ended. *)
Lemma afterBatch_out (o : Orch) :
  let res := batchResults o (currentIndex o) in
  let failed := filter (fun r => negb (success r)) res in
  exists listing,
    out (world (afterBatch o))
    = out (world o)
      ++ [Log MsgBatchDone;
          Log (MsgBatchSucceeded (List.length (filter (fun r => success r) res)));
          Log (MsgBatchFailed (List.length failed))]
      ++ listing
      ++ (if currentIndex o + BATCH_SIZE <? List.length (matches o) then promptLines
          else summaryLines (List.length (matches o))
                 (List.length (filter (fun b : bool => b)
                                      (values (results (STATUS (world o))))))
                 (List.length (filter negb (values (results (STATUS (world o)))))))
    /\ failedItems listing = combine (seq 1 (List.length failed)) (map file failed)
    /\ (failed = [] -> listing = []).
Proof.
  cbv zeta. unfold afterBatch. cbv zeta.
  remember (batchResults o (currentIndex o)) as res eqn:Eres.
  remember (filter (fun r => negb (success r)) res) as failed eqn:Efailed.
  destruct (@reportFailed_out failed 0
              {| STATUS := STATUS (world o); children := children (world o);
                 out := out (world o)
                        ++ [Log MsgBatchDone;
                            Log (MsgBatchSucceeded
                                   (List.length (filter (fun r => success r) res)));
                            Log (MsgBatchFailed (List.length failed));
                            Log MsgFailedFiles] |}) as (lst & E & F).
  unfold exec in E.
  exists (if 0 <? List.length failed then Log MsgFailedFiles :: lst else []).
  split; [|split].
  - destruct (currentIndex o + BATCH_SIZE <? List.length (matches o));
      cbn [world]; unfold exec, bind, emit, when, getStatus, ret, promptLines, summaryLines;
      destruct (0 <? List.length failed); cbn [fst snd out STATUS children];
      rewrite <- ?app_assoc; cbn [app];
      try (match goal with |- context [reportFailed 0 failed ?W] =>
             destruct (reportFailed 0 failed W) as [u w'] eqn:Er;
             cbn [snd] in E; subst w'
           end);
      cbn [fst snd out STATUS children]; rewrite <- ?app_assoc; reflexivity.
  - destruct failed; [reflexivity|]. exact F.
  - intros ->. reflexivity.
Qed.

Lemma settled_rejected (cs : list Child) :
  forallb isSettled cs = true ->
  filter (fun c => negb (resolved c)) cs = filter rejected cs.
Proof.
  intros H. apply filter_ext_in. intros c Hc.
  pose proof (proj1 (forallb_forall _ _) H c Hc) as Hs.
  unfold isSettled, resolved, rejected in *. now destruct (settled c).
Qed.

Lemma settled_count (cs : list Child) :
  forallb isSettled cs = true ->
  List.length (filter resolved cs) + List.length (filter rejected cs) = List.length cs.
Proof.
  intros H. rewrite <- settled_split. now rewrite forallb_filter_id.
Qed.

Lemma resume_settled (o o' : Orch) :
  react Resume o = Some o' ->
  stage o = Running /\ forallb isSettled (currentBatch o) = true /\ o' = afterBatch o.
Proof.
  simpl. unfold currentBatch. destruct (stage o); try discriminate.
  destruct (forallb isSettled _); [|discriminate]. intros H. inversion H. auto.
Qed.

(** X13: when the conversions of a batch have all ended, [batchProcess]
    prints the number of those that succeeded and the number of those that
    failed, which add up to the size of the batch, then the failed files of
    the batch, numbered from 1 in the order of the batch (nothing when none
    failed), and then either the prompt for the next batch or the final
    statistics with the number of pairs as the total. *)
Theorem X13_batch_report
    (args : list string) (fs : FsEnv) (o0 o o' : Orch) (es : list event) :
  main args fs = Live o0 -> run es o0 = Some o -> react Resume o = Some o' ->
  let succeeded := filter resolved (currentBatch o) in
  let failed := filter rejected (currentBatch o) in
  List.length succeeded + List.length failed
  = Nat.min BATCH_SIZE (List.length (matches o0) - currentIndex o)
  /\ 0 < List.length succeeded + List.length failed
  /\ exists listing rest,
       out (world o')
       = out (world o)
         ++ [Log MsgBatchDone;
             Log (MsgBatchSucceeded (List.length succeeded));
             Log (MsgBatchFailed (List.length failed))]
         ++ listing ++ rest
       /\ failedItems listing
          = combine (seq 1 (List.length failed)) (map filename failed)
       /\ (failed = [] -> listing = [])
       /\ (rest = promptLines
           \/ exists a b, rest = summaryLines (List.length (matches o0)) a b).
Proof.
  intros Hmain Hrun Hres. cbv zeta.
  destruct (main_live _ _ Hmain) as [Hb0 _].
  destruct (main_trace _ _ Hmain) as [Ht0 _].
  destruct (run_inv _ Hb0 Hrun) as [Hb Hm].
  destruct (run_trace _ Hb0 Ht0 Hrun) as [Ht _].
  destruct (resume_settled _ Hres) as (Hst & Hs & ->).
  pose proof (@batch_results o Hb Ht Hst Hs) as Hbr.
  pose proof (settled_count _ Hs) as Hcount.
  assert (Hlen : List.length (currentBatch o)
                 = Nat.min BATCH_SIZE (List.length (matches o0) - currentIndex o)).
  { unfold currentBatch. rewrite length_slice. fold (spawned o).
    rewrite (inv_spawned Hb), Hst, Hm. unfold BATCH_SIZE. lia. }
  pose proof (inv_stage Hb) as Hidx. rewrite Hst, Hm in Hidx.
  split; [lia|]. split; [unfold BATCH_SIZE in *; lia|].
  destruct (afterBatch_out o) as (listing & Hout & Hitems & Hnil).
  rewrite Hbr in Hout, Hitems, Hnil.
  repeat rewrite filter_map_swap in Hout.
  repeat rewrite filter_map_swap in Hitems.
  repeat rewrite filter_map_swap in Hnil.
  cbn [success resultOf] in Hout, Hitems, Hnil.
  rewrite (settled_rejected _ Hs) in Hout, Hitems, Hnil.
  change (filter (fun a => resolved a) (currentBatch o))
    with (filter resolved (currentBatch o)) in Hout.
  repeat rewrite length_map in Hout. repeat rewrite length_map in Hitems.
  rewrite map_map in Hitems.
  cbn [file resultOf] in Hitems. rewrite Hm in Hout.
  exists listing.
  eexists. split; [exact Hout|]. split; [exact Hitems|]. split.
  - intros E. apply Hnil. now rewrite E.
  - destruct (currentIndex o + BATCH_SIZE <? List.length (matches o0)); eauto.
Qed.

Lemma X13_batch_report_witness :
  List.length (filter resolved (currentBatch elevenBeforeEnd))
  + List.length (filter rejected (currentBatch elevenBeforeEnd))
  = Nat.min BATCH_SIZE (List.length (matches elevenStart) - currentIndex elevenBeforeEnd).
Proof.
  assert (Hmain : main ["in"; "out"] (fs_ok elevenMovies) = Live elevenStart)
    by (vm_compute; reflexivity).
  assert (Hrun : run wholeRunEvents elevenStart = Some elevenBeforeEnd)
    by (vm_compute; reflexivity).
  assert (Hres : react Resume elevenBeforeEnd = Some elevenEnd)
    by (vm_compute; reflexivity).
  exact (proj1 (@X13_batch_report ["in"; "out"] (fs_ok elevenMovies) elevenStart
                  elevenBeforeEnd elevenEnd wholeRunEvents Hmain Hrun Hres)).
Defined.

(** X14: in a run on a directory listing in which no encoder failed to
    start, the last thing [batchProcess] prints is the final statistics:
    the number of pairs, the number of conversions that exited with code 0
    and the number of the others; the two add up to the number of pairs. *)
Theorem X14_final_statistics
    (inputDir outDir : string) (fs : FsEnv) (files : list string)
    (o0 o o' : Orch) (es : list event) :
  Forall (fun f => entryName f = true) files ->
  fs_readdir fs inputDir = inr files ->
  main [inputDir; outDir] fs = Live o0 ->
  faultFree es = true ->
  run es o0 = Some o -> react Resume o = Some o' -> stage o' = Finished ->
  let succeeded := List.length (filter resolved (children (world o))) in
  let failed := List.length (filter rejected (children (world o))) in
  succeeded + failed = List.length (matches o0)
  /\ exists before,
       out (world o')
       = before ++ summaryLines (List.length (matches o0)) succeeded failed.
Proof.
  intros Hall Hread Hmain Hff Hrun Hres Hfin. cbv zeta.
  destruct (main_live _ _ Hmain) as [Hb0 (d & od & fl & Hargs & Hrd & Hms & _)].
  inversion Hargs; subst d od. rewrite Hread in Hrd. inversion Hrd; subst fl.
  assert (Hlab : NoDup (map label (matches o0))).
  { rewrite Hms. now apply labels_NoDup. }
  destruct (main_trace _ _ Hmain) as [Ht0 _].
  pose proof (@main_flight _ _ _ Hmain Hlab) as Hf0.
  destruct (run_inv _ Hb0 Hrun) as [Hb Hm].
  pose proof (@run_flight es o0 o Hb0 Ht0 Hlab Hf0 Hff Hrun) as Hfl.
  destruct (resume_settled _ Hres) as (Hst & Hs & ->).
  destruct (afterBatch_spec o) as (_ & _ & A3 & _).
  rewrite A3 in Hfin.
  destruct (currentIndex o + BATCH_SIZE <? List.length (matches o)) eqn:Elt;
    [discriminate Hfin|].
  pose proof (proj1 (Nat.ltb_ge _ _) Elt) as Hlast.
  split.
  - rewrite <- settled_split. fold (settledCount o).
    assert (Hall' : forallb isSettled (children (world o)) = true)
      by now apply batch_settled.
    unfold settledCount. rewrite (forallb_filter_id _ _ Hall'). fold (spawned o).
    rewrite (inv_spawned Hb), Hst, <- Hm. lia.
  - destruct (afterBatch_out o) as (listing & Hout & _ & _).
    rewrite Elt in Hout.
    rewrite (fl_succeeded Hfl), (fl_failed Hfl), Hm in Hout.
    eexists. rewrite Hout, !app_assoc. reflexivity.
Qed.

Lemma X14_final_statistics_witness :
  List.length (filter resolved (children (world elevenBeforeEnd)))
  + List.length (filter rejected (children (world elevenBeforeEnd)))
  = List.length (matches elevenStart).
Proof.
  refine (proj1 (@X14_final_statistics "in" "out" (fs_ok elevenMovies) elevenMovies
                   elevenStart elevenBeforeEnd elevenEnd wholeRunEvents _ _ _ _ _ _ _)).
  - repeat constructor.
  - reflexivity.
  - vm_compute. reflexivity.
  - reflexivity.
  - vm_compute. reflexivity.
  - vm_compute. reflexivity.
  - vm_compute. reflexivity.
Defined.

End Report.

(** ** The order of the pairs *)

Module ListingOrder.
Import JSMap JSMapFacts Path PathFacts MatcherFacts.

(** The first element of a list that satisfies a test. *)
Lemma first_split (A : Type) (P : A -> bool) (l : list A) (x : A) :
  In x l -> P x = true ->
  exists l1 y l2, l = l1 ++ y :: l2 /\ P y = true /\ forall z, In z l1 -> P z = false.
Proof.
  induction l as [|a r IH]; intros Hin HP; [contradiction|].
  destruct (P a) eqn:Ea.
  - exists [], a, r. split; [reflexivity|]. split; [exact Ea|]. intros z [].
  - destruct Hin as [->|Hin]; [congruence|].
    destruct (IH Hin HP) as (l1 & y & l2 & -> & Hy & Hl1).
    exists (a :: l1), y, l2. split; [reflexivity|]. split; [exact Hy|].
    intros z [<-|Hz]; auto.
Qed.

(** [pairUp] keeps the order of the video map. *)
Lemma pairUp_order (vs ss : JSMap.t string) (i j : nat) (p q : MatchedPair) :
  nth_error (pairUp vs ss) i = Some p -> nth_error (pairUp vs ss) j = Some q -> i < j ->
  exists k1 k2 a b c, vs = a ++ (k1, video p) :: b ++ (k2, video q) :: c.
Proof.
  revert i j. induction vs as [|[k v] r IH]; intros i j Hp Hq Hij; simpl in Hp, Hq.
  - destruct i; discriminate Hp.
  - destruct (get k ss) as [s|].
    + destruct j as [|j]; [lia|]. destruct i as [|i]; simpl in Hp, Hq.
      * inversion Hp; subst p. apply nth_error_In, In_pairUp in Hq.
        destruct Hq as (k2 & Hin & _). apply in_split in Hin.
        destruct Hin as (b & c & ->). now exists k, k2, [], b, c.
      * destruct (IH i j Hp Hq) as (k1 & k2 & a & b & c & ->); [lia|].
        now exists k1, k2, ((k, v) :: a), b, c.
    + destruct (IH i j Hp Hq Hij) as (k1 & k2 & a & b & c & ->).
      now exists k1, k2, ((k, v) :: a), b, c.
Qed.

Section Scan.
Variable inputDir : string.

(** A name is a key of the video map exactly when the listing has a video
    of that name. *)
Lemma video_key_iff (files : list string) (k : string) :
  In k (keys (fst (scan inputDir files)))
  <-> exists f, In f files /\ videoFor k f = true.
Proof.
  pose proof (@scan_videos_get inputDir k files) as Hget.
  split.
  - intros Hin. destruct (lastWith (videoFor k) files) as [f|] eqn:El.
    + apply lastWith_Some in El. now exists f.
    + simpl in Hget. apply get_None_not_In in Hget. contradiction.
  - intros (f & Hf & Hv). destruct (lastWith (videoFor k) files) as [g|] eqn:El.
    + simpl in Hget. apply get_Some_In in Hget. exact (in_map fst _ _ Hget).
    + rewrite (proj1 (lastWith_None _ _) El f Hf) in Hv. discriminate Hv.
Qed.

(** What one more entry of the listing does to the keys of the video map. *)
Lemma video_keys_step (files : list string) (f : string) :
  keys (fst (scan inputDir (files ++ [f])))
  = if isVideo f && negb (has (nameWithoutExt f) (fst (scan inputDir files)))
    then keys (fst (scan inputDir files)) ++ [nameWithoutExt f]
    else keys (fst (scan inputDir files)).
Proof.
  unfold scan. rewrite fold_left_app. cbn [fold_left].
  destruct (fold_left (classify inputDir) files (empty, empty)) as [vs ss].
  unfold classify. cbn [fst]. destruct (isVideo f); cbn [andb fst].
  - rewrite keys_set. now destruct (has (nameWithoutExt f) vs).
  - now destruct (isSubtitle f).
Qed.

(** The keys of the video map are in the order in which the listing first
    shows a video of each name. *)
Lemma video_keys_order (files : list string) :
  forall k1 k2 a b c,
    keys (fst (scan inputDir files)) = a ++ k1 :: b ++ k2 :: c ->
    exists l1 f l2,
      files = l1 ++ f :: l2 /\ videoFor k1 f = true
      /\ forall g, In g l1 -> videoFor k1 g = false /\ videoFor k2 g = false.
Proof.
  induction files as [|f fs IH] using rev_ind; intros k1 k2 a b c Hk.
  - destruct a; discriminate Hk.
  - rewrite video_keys_step in Hk.
    assert (Hext : forall l1 g l2,
              fs = l1 ++ g :: l2 -> fs ++ [f] = l1 ++ g :: (l2 ++ [f])).
    { intros l1 g l2 ->. now rewrite <- app_assoc. }
    destruct (isVideo f && negb (has (nameWithoutExt f) (fst (scan inputDir fs)))) eqn:Enew.
    + apply andb_true_iff in Enew. destruct Enew as [Hvid Hnew].
      apply negb_true_iff in Hnew.
      destruct c as [|x c0] using rev_ind.
      * clear IH.
        replace (a ++ k1 :: b ++ [k2]) with ((a ++ k1 :: b) ++ [k2]) in Hk
          by (rewrite <- app_assoc; reflexivity).
        apply app_inj_tail in Hk. destruct Hk as [Hkeys Hk2]. subst k2.
        assert (Hin1 : In k1 (keys (fst (scan inputDir fs)))).
        { rewrite Hkeys. apply in_or_app. right. now left. }
        apply video_key_iff in Hin1. destruct Hin1 as (g & Hg & Hvg).
        destruct (@first_split _ (videoFor k1) fs g Hg Hvg) as (l1 & y & l2 & E & Hy & Hl1).
        exists l1, y, (l2 ++ [f]). split; [now apply Hext|]. split; [exact Hy|].
        intros z Hz. split; [now apply Hl1|].
        destruct (videoFor (nameWithoutExt f) z) eqn:Ez; [|reflexivity].
        exfalso.
        assert (Hin2 : In (nameWithoutExt f) (keys (fst (scan inputDir fs)))).
        { apply video_key_iff. exists z. split; [|exact Ez].
          rewrite E. apply in_or_app. now left. }
        unfold has in Hnew.
        destruct (get (nameWithoutExt f) (fst (scan inputDir fs))) eqn:Eg;
          [discriminate Hnew|].
        apply get_None_not_In in Eg. contradiction.
      * clear IHc0.
        replace (a ++ k1 :: b ++ k2 :: c0 ++ [x])
          with ((a ++ k1 :: b ++ k2 :: c0) ++ [x]) in Hk
          by (rewrite <- !app_assoc; cbn [app]; rewrite <- !app_assoc; reflexivity).
        apply app_inj_tail in Hk. destruct Hk as [Hkeys _].
        destruct (IH _ _ _ _ _ Hkeys) as (l1 & g & l2 & E & Hg & Hl1).
        exists l1, g, (l2 ++ [f]). split; [now apply Hext|]. now split.
    + destruct (IH _ _ _ _ _ Hk) as (l1 & g & l2 & E & Hg & Hl1).
      exists l1, g, (l2 ++ [f]). split; [now apply Hext|]. now split.
Qed.

End Scan.

(** X15: the pairs come in the order in which the listing first shows a
    video of each normalized name: when a pair [p] is returned before a
    pair [q], the listing has a video with the name of [p] such that no
    entry before it is a video with the name of [p] or of [q].  The batches
    therefore follow the order of the directory listing. *)
Theorem X15_pairs_in_listing_order
    (inputDir : string) (files : list string) (i j : nat) (p q : MatchedPair) :
  Forall (fun f => entryName f = true) files ->
  nth_error (findMatchingFiles inputDir files) i = Some p ->
  nth_error (findMatchingFiles inputDir files) j = Some q ->
  i < j ->
  exists l1 f l2,
    files = l1 ++ f :: l2
    /\ isVideo f = true /\ nameWithoutExt f = pairKey p
    /\ forall g, In g l1 ->
                 isVideo g = true ->
                 nameWithoutExt g <> pairKey p /\ nameWithoutExt g <> pairKey q.
Proof.
  intros Hall Hp Hq Hij. unfold findMatchingFiles in Hp, Hq.
  pose proof (@video_keys_order inputDir files) as Hord.
  pose proof (fun k v => @scan_videos_keyed inputDir files k v Hall) as Hkeyed.
  destruct (scan inputDir files) as [vs ss]. cbn [fst] in Hord, Hkeyed.
  destruct (@pairUp_order vs ss i j p q Hp Hq Hij) as (k1 & k2 & a & b & c & E).
  assert (H1 : pairKey p = k1).
  { apply Hkeyed. rewrite E. apply in_or_app. right. now left. }
  assert (H2 : pairKey q = k2).
  { apply Hkeyed. rewrite E. apply in_or_app. right. right.
    apply in_or_app. right. now left. }
  destruct (Hord k1 k2 (keys a) (keys b) (keys c)) as (l1 & f & l2 & Ef & Hf & Hl1).
  { rewrite E. unfold keys. rewrite map_app. cbn [map fst]. rewrite map_app. reflexivity. }
  apply videoFor_spec in Hf. destruct Hf as [Hv Hn].
  exists l1, f, l2. split; [exact Ef|]. split; [exact Hv|]. split; [congruence|].
  intros g Hg Hvg. destruct (Hl1 g Hg) as [G1 G2]. rewrite H1, H2.
  split; intros Heq.
  - assert (videoFor k1 g = true) by (apply videoFor_spec; auto). congruence.
  - assert (videoFor k2 g = true) by (apply videoFor_spec; auto). congruence.
Qed.

Lemma X15_pairs_in_listing_order_witness :
  exists l1 f l2,
    ["b.mp4"; "a.srt"; "a.mp4"; "B.mkv"; "b.srt"] = l1 ++ f :: l2
    /\ isVideo f = true
    /\ nameWithoutExt f = pairKey {| video := "in/B.mkv"; subtitle := "in/b.srt" |}
    /\ forall g, In g l1 ->
                 isVideo g = true ->
                 nameWithoutExt g <> pairKey {| video := "in/B.mkv"; subtitle := "in/b.srt" |}
                 /\ nameWithoutExt g
                    <> pairKey {| video := "in/a.mp4"; subtitle := "in/a.srt" |}.
Proof.
  refine (@X15_pairs_in_listing_order "in" ["b.mp4"; "a.srt"; "a.mp4"; "B.mkv"; "b.srt"]
            0 1 _ _ _ _ _ _).
  - repeat constructor.
  - vm_compute. reflexivity.
  - vm_compute. reflexivity.
  - lia.
Defined.

End ListingOrder.

(** ** The progress display *)

Module Display.
Import JSMap JSMapFacts ListenerFacts Orchestrator MatcherFacts Trace FaultFree.

Lemma length_slice_last (A : Type) (n : nat) (l : list A) :
  List.length (slice_last n l) <= n.
Proof. unfold slice_last. rewrite length_skipn. lia. Qed.

Lemma snapshot_shown (st before after : Status) :
  total st = total before ->
  completed st = completed before \/ completed st = completed after ->
  shownBetween before after (snapshot st).
Proof.
  intros Ht Hc. unfold shownBetween, snapshot. cbn [shown_total shown_completed shown_recent].
  split; [exact Ht|]. split; [exact Hc|]. apply length_slice_last.
Qed.

(** The snapshots printed while the tasks of a batch are started. *)
Lemma batch_renders (outDir : string) (l : list MatchedPair) (w : World) :
  exists added,
    out (exec (forEach l (fun m => processVideo (video m) (subtitle m)
                                                (outputFile outDir m))) w)
    = out w ++ added
    /\ forall s, In (Render s) added -> shownBetween (STATUS w) (STATUS w) s.
Proof.
  revert w. induction l as [|m r IH]; intros w; simpl forEach.
  - exists []. unfold exec. simpl. rewrite app_nil_r. split; [reflexivity|]. intros s [].
  - rewrite ProgressParser.exec_bind.
    fold (exec (processVideo (video m) (subtitle m) (outputFile outDir m)) w).
    rewrite processVideo_eq. cbv zeta.
    match goal with |- context [exec _ ?w1] => destruct (IH w1) as (added & E & Hs) end.
    rewrite E. cbn [out STATUS] in *.
    eexists. split; [rewrite <- app_assoc; reflexivity|].
    intros s Hin. apply in_app_or in Hin. destruct Hin as [Hin|Hin].
    + destruct Hin as [Hx|[Hx|[Hx|[Hx|[]]]]]; try discriminate Hx.
      inversion Hx. apply snapshot_shown; [reflexivity|now left].
    + destruct (Hs s Hin) as (H1 & H2 & H3). cbn [shownStatus total completed] in H1, H2.
      split; [exact H1|]. split; [|exact H3]. destruct H2; now left.
Qed.

(** The snapshots printed by one event. *)
Lemma react_renders (e : event) (o o' : Orch) :
  react e o = Some o' ->
  exists added,
    out (world o') = out (world o) ++ added
    /\ forall s, In (Render s) added ->
                 shownBetween (STATUS (world o)) (STATUS (world o')) s.
Proof.
  intros Hr.
  destruct e as [i chunk|i code|i err| |]; simpl in Hr.
  - destruct (lifeOf o i) as [[]|] eqn:El; try discriminate.
    apply lifeOf_child in El. destruct El as (c & Hc & _).
    inversion Hr; subst o'. unfold inWorld. cbn [world].
    rewrite (@on_data_eq (world o) i c chunk Hc).
    assert (Hcap : forall s, ~ In (Render s) (snd (capture c chunk))).
    { unfold capture. destruct (falsy (duration c)); [|simpl; tauto].
      destruct (durationMatch chunk); simpl; [|tauto].
      intros s [Hx|[]]. discriminate Hx. }
    destruct (capture c chunk) as [c1 logs]. simpl in Hcap.
    destruct (forwarded c1 chunk) as [p|]; cbn [out STATUS].
    + eexists. split; [reflexivity|]. intros s Hin.
      apply in_app_or in Hin. destruct Hin as [Hin|[Hx|[]]]; [now apply Hcap in Hin|].
      inversion Hx. apply snapshot_shown; [reflexivity|now left].
    + exists logs. split; [reflexivity|]. intros s Hin. now apply Hcap in Hin.
  - assert (Hex : exists c, nth_error (children (world o)) i = Some c).
    { destruct (lifeOf o i) as [l|] eqn:El; [|discriminate].
      apply lifeOf_child in El. destruct El as (c & Hc & _). now exists c. }
    destruct Hex as (c & Hc).
    assert (Ho' : o' = inWorld o (bind (on_close i code) (fun _ => setLife i Closed))).
    { destruct (lifeOf o i) as [[]|]; congruence. }
    subst o'. unfold inWorld. cbn [world].
    rewrite (@on_close_eq (world o) i c code Hc). cbv zeta. cbn [out STATUS].
    eexists. split; [reflexivity|].
    intros s [Hx|[Hx|[]]]; [|discriminate Hx].
    inversion Hx. apply snapshot_shown; [reflexivity|now right].
  - destruct (lifeOf o i) as [[]|] eqn:El; try discriminate.
    apply lifeOf_child in El. destruct El as (c & Hc & _).
    inversion Hr; subst o'. unfold inWorld. cbn [world].
    rewrite (@on_error_eq (world o) i c err Hc). cbv zeta. cbn [out STATUS].
    eexists. split; [reflexivity|].
    intros s [Hx|[Hx|[]]]; [discriminate Hx|].
    inversion Hx. apply snapshot_shown; [reflexivity|now right].
  - destruct (stage o) eqn:Es; try discriminate. inversion Hr; subst o'.
    unfold startBatch. cbn [world]. rewrite ProgressParser.exec_bind. unfold processBatch.
    match goal with |- context [exec (forEach ?l ?f) ?w1] =>
      destruct (@batch_renders (outputDir o) l w1) as (added & E & Hs)
    end.
    rewrite E. cbn [emit snd out STATUS] in *.
    eexists. split; [rewrite <- app_assoc; reflexivity|].
    intros s Hin. apply in_app_or in Hin. destruct Hin as [[Hx|[]]|Hin]; [discriminate Hx|].
    destruct (Hs s Hin) as (H1 & H2 & H3).
    split; [exact H1|]. split; [|exact H3]. destruct H2; now left.
  - destruct (stage o) eqn:Es; try discriminate.
    destruct (forallb isSettled (slice _ _ _)); [|discriminate].
    inversion Hr; subst o'.
    destruct (afterBatch_prints o) as (l & Hout & Hl).
    exists l. split; [exact Hout|]. intros s Hin.
    destruct (Hl _ Hin) as [_ Hx]. discriminate Hx.
Qed.

Lemma run_snoc (r : list event) (e : event) (o0 o : Orch) :
  run (r ++ [e]) o0 = Some o -> exists o1, run r o0 = Some o1 /\ react e o1 = Some o.
Proof.
  revert o0. induction r as [|x r IH]; intros o0 Hrun; simpl in *.
  - destruct (react e o0) as [o1|] eqn:E; [|discriminate].
    exists o0. split; [reflexivity|]. congruence.
  - destruct (react x o0) as [o1|]; [|discriminate]. now apply IH.
Qed.

Lemma main_renders (args : list string) (fs : FsEnv) (o0 : Orch) (s : Snapshot) :
  main args fs = Live o0 -> In (Render s) (out (world o0)) ->
  shown_completed s = 0 /\ List.length (shown_recent s) <= 5.
Proof.
  unfold main. intros H.
  destruct args as [|inputDir [|outDir [|? ?]]]; try discriminate.
  destruct (fs_stat fs inputDir) as [?|[]]; try discriminate.
  unfold batchProcess in H.
  destruct (fs_mkdir fs outDir); [discriminate|].
  destruct (fs_readdir fs inputDir) as [?|files] eqn:Er; [discriminate|].
  destruct (List.length (findMatchingFiles inputDir files) =? 0) eqn:En; [discriminate|].
  inversion H as [Ho]. clear H Ho.
  match goal with |- context [startBatch ?x] => set (o := x) in * end.
  destruct (@react_renders StdinData
              {| matches := matches o; outputDir := outputDir o;
                 currentIndex := currentIndex o; stage := Waiting; world := world o |}
              (startBatch o) eq_refl) as (added & E & Hs).
  rewrite E. cbn [world out o]. intros Hin.
  apply in_app_or in Hin. destruct Hin as [Hin|Hin].
  - destruct Hin as [Hx|[Hx|[Hx|[Hx|[Hx|[]]]]]]; discriminate Hx.
  - destruct (Hs s Hin) as (_ & H2 & H3). cbn [world STATUS o completed freshStatus] in H2.
    split; [|exact H3].
    assert (Hc : completed (STATUS (world (startBatch o))) = 0).
    { unfold startBatch. cbn [world]. rewrite ProgressParser.exec_bind. unfold processBatch.
      match goal with |- context [exec (forEach ?l ?f) ?w1] =>
        destruct (@processBatch_spec (outputDir o) l w1) as (_ & _ & P3 & _)
      end.
      cbv zeta in P3. rewrite P3. reflexivity. }
    destruct H2 as [H2|H2]; congruence.
Qed.

(** X16: in a run on a directory listing in which no encoder failed to
    start, every snapshot that [printProgress] has printed shows a number
    of completed conversions that is at most the total, the number of
    pairs as the total, and at most five recent results. *)
Theorem X16_display_within_bounds
    (inputDir outDir : string) (fs : FsEnv) (files : list string)
    (o0 : Orch) (es : list event) :
  Forall (fun f => entryName f = true) files ->
  fs_readdir fs inputDir = inr files ->
  main [inputDir; outDir] fs = Live o0 ->
  forall o s,
    faultFree es = true -> run es o0 = Some o ->
    In (Render s) (out (world o)) ->
    shown_completed s <= shown_total s
    /\ shown_total s = List.length (matches o0)
    /\ List.length (shown_recent s) <= 5.
Proof.
  intros Hall Hread Hmain.
  destruct (main_live _ _ Hmain) as [Hb0 (d & od & fl & Hargs & Hrd & Hms & _ & Hst0)].
  inversion Hargs; subst d od. rewrite Hread in Hrd. inversion Hrd; subst fl.
  assert (Hlab : NoDup (map label (matches o0))).
  { rewrite Hms. now apply labels_NoDup. }
  destruct (main_trace _ _ Hmain) as [Ht0 _].
  pose proof (@main_flight _ _ _ Hmain Hlab) as Hf0.
  assert (Hbound : forall o1 es1, faultFree es1 = true -> run es1 o0 = Some o1 ->
                     completed (STATUS (world o1)) <= List.length (matches o0)
                     /\ total (STATUS (world o1)) = List.length (matches o0)).
  { intros o1 es1 Hff1 Hrun1.
    destruct (run_inv _ Hb0 Hrun1) as [Hb1 Hm1].
    destruct (run_trace _ Hb0 Ht0 Hrun1) as [Ht1 _].
    pose proof (@run_flight es1 o0 o1 Hb0 Ht0 Hlab Hf0 Hff1 Hrun1) as Hfl1.
    rewrite (fl_completed Hfl1), (tr_total Ht1), Hm1. split; [|reflexivity].
    assert (Hle : settledCount o1 <= spawned o1).
    { unfold settledCount, spawned. apply filter_length_le. }
    pose proof (inv_spawned Hb1) as Hsp. rewrite Hm1 in Hsp. destruct (stage o1); lia. }
  induction es as [|e r IH] using rev_ind; intros o s Hff Hrun Hin.
  - simpl in Hrun. inversion Hrun; subst o.
    destruct (@main_renders _ _ _ s Hmain Hin) as [Hc Hr].
    pose proof (tr_renders Ht0 s Hin) as Htot.
    split; [lia|]. split; [exact Htot|exact Hr].
  - unfold faultFree in Hff. rewrite forallb_app in Hff.
    apply andb_true_iff in Hff. destruct Hff as [Hffr Hffe].
    destruct (@run_snoc r e o0 o Hrun) as (o1 & Hrun1 & Hstep).
    destruct (@react_renders e o1 o Hstep) as (added & E & Hs).
    rewrite E in Hin. apply in_app_or in Hin. destruct Hin as [Hin|Hin].
    + exact (IH o1 s Hffr Hrun1 Hin).
    + destruct (Hs s Hin) as (H1 & H2 & H3).
      destruct (Hbound o1 r Hffr Hrun1) as [B1 B2].
      assert (Hff' : faultFree (r ++ [e]) = true).
      { unfold faultFree. rewrite forallb_app. now apply andb_true_iff. }
      destruct (Hbound o (r ++ [e]) Hff' Hrun) as [B3 B4].
      split; [|split; [congruence|exact H3]].
      rewrite H1, B2. destruct H2 as [H2|H2]; rewrite H2; assumption.
Qed.

Lemma X16_display_within_bounds_witness :
  shown_completed firstSnapshot <= shown_total firstSnapshot
  /\ shown_total firstSnapshot = List.length (matches elevenStart)
  /\ List.length (shown_recent firstSnapshot) <= 5.
Proof.
  refine (@X16_display_within_bounds "in" "out" (fs_ok elevenMovies) elevenMovies
            elevenStart mixedBatchEvents _ _ _ elevenMixed firstSnapshot _ _ _).
  - repeat constructor.
  - reflexivity.
  - vm_compute. reflexivity.
  - reflexivity.
  - vm_compute. reflexivity.
  - vm_compute. do 6 right. left. reflexivity.
Defined.

End Display.
